(** * IPCounter: counting distinct IPv4 addresses

    A shallow embedding of the two counting engines of the repository,
    [bucket.CountUniqueIPs] (src/bucket/bitbucket.go) and
    the method [CountUniqueIPs] of [concurrent.BitsetCounter] (src/concurrent/concurrent.go),
    and the properties that hold of them.

    Conventions.
    - A [uint32] is a [Z] in [0, 2^32); operations that can leave the range
      are wrapped with [u32].  A [byte] is the Standard Library's [byte].
    - A Go slice used as an array is a [list]; an indexed read is stdpp's
      lookup [l !! i], and an index outside the slice is the run-time panic
      of Go, which the embedding makes an outcome of its own ([Panic]).
    - The two functions the engines call but the repository's sources here
      do not contain, [bytes.TrimSpace] (Go's library) and
      [utils.ParseIPv4], are Section variables. *)

From Stdlib Require Import ZArith Lia List Strings.Byte Strings.String.
From stdpp Require Import base tactics option list numbers relations.

Local Open Scope Z_scope.

(** ** Bytes, 32-bit words and the big-endian record format *)

Module Bits.

Definition u32 (z : Z) : Z := z mod 2 ^ 32.

(** The conversion [byte(x)] of Go: the low-order eight bits. *)
Definition byte_of_Z (z : Z) : byte :=
  match Byte.of_N (Z.to_N (z mod 256)) with
  | Some b => b
  | None => x00
  end.

(** The conversion [uint32(b)] of a byte. *)
Definition Z_of_byte (b : byte) : Z := Z.of_N (Byte.to_N b).

Definition newline : byte := x0a.

Definition is_newline (c : byte) : bool := Byte.eqb c newline.

(** [binary.BigEndian.PutUint32(buf[:], v)]: the four bytes of [buf]. *)
Definition PutUint32 (v : Z) : list byte :=
  [byte_of_Z (Z.shiftr v 24); byte_of_Z (Z.shiftr v 16);
   byte_of_Z (Z.shiftr v 8); byte_of_Z v].

(** [binary.BigEndian.Uint32(buf[:])] on the four bytes of [buf]. *)
Definition Uint32 (b0 b1 b2 b3 : byte) : Z :=
  Z.lor (Z.lor (Z.lor (Z_of_byte b3) (Z.shiftl (Z_of_byte b2) 8))
               (Z.shiftl (Z_of_byte b1) 16))
        (Z.shiftl (Z_of_byte b0) 24).

(** [make([]uint32, n)]. *)
Definition make (n : Z) : list Z := replicate (Z.to_nat n) 0.

(** The bit of a [[]uint32] bit array that stands for [i]. *)
Definition bit_at (words : list Z) (i : Z) : bool :=
  match words !! Z.to_nat (i / 32) with
  | Some w => Z.testbit w (i mod 32)
  | None => false
  end.

Lemma Z_of_byte_range b : 0 <= Z_of_byte b < 256.
Proof.
  unfold Z_of_byte. pose proof (Byte.to_N_bounded b). lia.
Qed.

Lemma Z_of_byte_of_Z z : Z_of_byte (byte_of_Z z) = z mod 256.
Proof.
  unfold Z_of_byte, byte_of_Z.
  assert (Hr : 0 <= z mod 256 < 256) by (apply Z.mod_pos_bound; lia).
  destruct (Byte.of_N (Z.to_N (z mod 256))) as [b|] eqn:E.
  - apply Byte.to_of_N in E. rewrite E. lia.
  - apply Byte.of_N_None_iff in E. lia.
Qed.

Lemma byte_of_Z_of_byte b : byte_of_Z (Z_of_byte b) = b.
Proof.
  unfold byte_of_Z. rewrite Z.mod_small by apply Z_of_byte_range.
  unfold Z_of_byte. rewrite N2Z.id, Byte.of_to_N. reflexivity.
Qed.

Lemma is_newline_true c : is_newline c = true <-> c = newline.
Proof.
  unfold is_newline. split.
  - apply Byte.byte_dec_bl.
  - apply Byte.byte_dec_lb.
Qed.

Lemma is_newline_false c : is_newline c = false <-> c <> newline.
Proof.
  rewrite <- is_newline_true. destruct (is_newline c); intuition congruence.
Qed.

Lemma u32_small z : 0 <= z < 2 ^ 32 -> u32 z = z.
Proof. intros H. unfold u32. apply Z.mod_small. exact H. Qed.

Lemma testbit_above z k i :
  0 <= z < 2 ^ k -> 0 <= k <= i -> Z.testbit z i = false.
Proof.
  intros Hz Hk. rewrite <- (Z.mod_small z (2 ^ k)) by exact Hz.
  apply Z.mod_pow2_bits_high. exact Hk.
Qed.

(** Decoding what [PutUint32] wrote gives the value back. *)
Lemma Uint32_PutUint32 v :
  0 <= v < 2 ^ 32 ->
  Uint32 (byte_of_Z (Z.shiftr v 24)) (byte_of_Z (Z.shiftr v 16))
         (byte_of_Z (Z.shiftr v 8)) (byte_of_Z v) = v.
Proof.
  intros Hv. unfold Uint32. rewrite !Z_of_byte_of_Z.
  change 256 with (2 ^ 8).
  apply Z.bits_inj'. intros n Hn.
  rewrite !Z.lor_spec, !Z.shiftl_spec by lia.
  rewrite !Z.testbit_mod_pow2 by lia.
  destruct (Z.ltb_spec n 8); [|destruct (Z.ltb_spec n 16);
    [|destruct (Z.ltb_spec n 24); [|destruct (Z.ltb_spec n 32)]]].
  - rewrite !(Z.testbit_neg_r _ (n - _)) by lia. simpl.
    rewrite !Bool.andb_false_r, !Bool.orb_false_r. reflexivity.
  - rewrite !(Z.testbit_neg_r _ (n - 16)), !(Z.testbit_neg_r _ (n - 24)) by lia.
    destruct (Z.ltb_spec (n - 8) 8); [|lia]. simpl.
    rewrite !Bool.andb_false_r, !Bool.orb_false_r.
    rewrite Z.shiftr_spec by lia. f_equal. lia.
  - rewrite !(Z.testbit_neg_r _ (n - 24)) by lia.
    destruct (Z.ltb_spec (n - 8) 8); [lia|].
    destruct (Z.ltb_spec (n - 16) 8); [|lia]. simpl.
    rewrite !Bool.andb_false_r, !Bool.orb_false_r.
    rewrite Z.shiftr_spec by lia. f_equal. lia.
  - destruct (Z.ltb_spec (n - 8) 8); [lia|].
    destruct (Z.ltb_spec (n - 16) 8); [lia|].
    destruct (Z.ltb_spec (n - 24) 8); [|lia]. simpl.
    rewrite Z.shiftr_spec by lia. f_equal. lia.
  - destruct (Z.ltb_spec (n - 8) 8); [lia|].
    destruct (Z.ltb_spec (n - 16) 8); [lia|].
    destruct (Z.ltb_spec (n - 24) 8); [lia|]. simpl.
    symmetry. apply (testbit_above v 32); lia.
Qed.

Lemma shiftl_1 b : 0 <= b -> Z.shiftl 1 b = 2 ^ b.
Proof. intros Hb. rewrite Z.shiftl_mul_pow2 by lia. lia. Qed.

Lemma mask_u32 b : 0 <= b < 32 -> u32 (Z.shiftl 1 b) = 2 ^ b.
Proof.
  intros Hb. rewrite shiftl_1 by lia. apply u32_small.
  split; [lia|]. apply Z.pow_lt_mono_r; lia.
Qed.

Lemma shiftr_5 s : Z.shiftr s 5 = s / 32.
Proof. rewrite Z.shiftr_div_pow2 by lia. reflexivity. Qed.

Lemma land_31 s : Z.land s 31 = s mod 32.
Proof. change 31 with (Z.ones 5). rewrite Z.land_ones by lia. reflexivity. Qed.

Lemma land_pow2_eqb w b :
  0 <= b -> (Z.land w (2 ^ b) =? 0) = negb (Z.testbit w b).
Proof.
  intros Hb. destruct (Z.testbit w b) eqn:E; simpl.
  - apply Z.eqb_neq. intros H0.
    apply (f_equal (fun z => Z.testbit z b)) in H0.
    rewrite Z.land_spec, E, Z.pow2_bits_true, Z.bits_0 in H0 by lia.
    discriminate.
  - apply Z.eqb_eq. apply Z.bits_inj'. intros n Hn.
    rewrite Z.land_spec, Z.bits_0.
    destruct (Z.eq_dec b n) as [<-|Hne]; [rewrite E; reflexivity|].
    rewrite Z.pow2_bits_false by lia. apply Bool.andb_false_r.
Qed.

Lemma testbit_set w b j :
  0 <= b -> Z.testbit (Z.lor w (2 ^ b)) j = Z.testbit w j || (j =? b).
Proof.
  intros Hb. rewrite Z.lor_spec, Z.pow2_bits_eqb by lia.
  f_equal. apply Z.eqb_sym.
Qed.

(** Setting the bit of [i] sets that bit and changes no other. *)
Lemma bit_at_set ws i w j :
  0 <= i -> 0 <= j -> ws !! Z.to_nat (i / 32) = Some w ->
  bit_at (<[Z.to_nat (i / 32) := Z.lor w (2 ^ (i mod 32))]> ws) j
  = bit_at ws j || (j =? i).
Proof.
  intros Hi Hj Hw. unfold bit_at.
  assert (Hlen : (Z.to_nat (i / 32) < length ws)%nat)
    by (eapply lookup_lt_Some; eauto).
  pose proof (Z.mod_pos_bound i 32 ltac:(lia)) as Hmi.
  pose proof (Z.div_mod i 32 ltac:(lia)) as Hdi.
  pose proof (Z.div_mod j 32 ltac:(lia)) as Hdj.
  pose proof (Z.mod_pos_bound j 32 ltac:(lia)) as Hmj.
  assert (0 <= i / 32) by (apply Z.div_pos; lia).
  assert (0 <= j / 32) by (apply Z.div_pos; lia).
  destruct (decide (Z.to_nat (j / 32) = Z.to_nat (i / 32))) as [E|E].
  - rewrite E, list_lookup_insert_eq by exact Hlen. rewrite Hw.
    rewrite testbit_set by lia. f_equal.
    assert (j / 32 = i / 32) by lia.
    destruct (Z.eqb_spec (j mod 32) (i mod 32)), (Z.eqb_spec j i);
      try reflexivity; exfalso; lia.
  - rewrite list_lookup_insert_ne by congruence.
    destruct (Z.eqb_spec j i) as [->|Hne]; [contradiction|].
    rewrite Bool.orb_false_r. reflexivity.
Qed.

Lemma bit_at_make n j : bit_at (make n) j = false.
Proof.
  unfold bit_at, make.
  destruct (replicate (Z.to_nat n) 0 !! Z.to_nat (j / 32)) as [w|] eqn:E;
    [|reflexivity].
  apply lookup_replicate in E as [-> _]. apply Z.bits_0.
Qed.

Lemma length_make n : length (make n) = Z.to_nat n.
Proof. apply length_replicate. Qed.

End Bits.

(** ** What is common to the two engines *)

Module Go.

(** [int64] arithmetic wraps around. *)
Definition int64 (z : Z) : Z := (z + 2 ^ 63) mod 2 ^ 64 - 2 ^ 63.

(** The underlying cause of an I/O failure, as the operating system
    names it. *)
Definition cause : Type := string.

(** What a call does: it returns [(n, nil)], returns [(0, err)] with an
    error of type [E], or panics on an index out of range. *)
Inductive result (E A : Type) : Type :=
| Ok (a : A)
| Err (e : E)
| Panic.

Arguments Ok {E A} a.
Arguments Err {E A} e.
Arguments Panic {E A}.

Lemma int64_small z : - 2 ^ 63 <= z < 2 ^ 63 -> int64 z = z.
Proof. intros H. unfold int64. rewrite Z.mod_small; lia. Qed.

End Go.

(** ** The input file as lines, and the addresses it holds

    This is the reading of the specification: the file is split at every
    newline, each line is trimmed, blank lines are ignored, and the lines
    the codec accepts are the file's valid addresses. *)

Module Lines.

Import Bits.

(** The segments between the newlines of [s] (one more than newlines). *)
Fixpoint split_lines (s : list byte) : list (list byte) :=
  match s with
  | [] => [[]]
  | c :: s' =>
      if is_newline c then [] :: split_lines s'
      else match split_lines s' with
           | l :: ls => (c :: l) :: ls
           | [] => [[c]]
           end
  end.

(** [bytes.LastIndexByte(b, c)]; [None] stands for -1. *)
Fixpoint LastIndexByte (b : list byte) (c : byte) : option nat :=
  match b with
  | [] => None
  | x :: b' =>
      match LastIndexByte b' c with
      | Some i => Some (S i)
      | None => if Byte.eqb x c then Some 0%nat else None
      end
  end.

Definition distinct (l : list Z) : Z := Z.of_nat (length (remove_dups l)).

Section Codec.

Variable TrimSpace : list byte -> list byte.
Variable ParseIPv4 : list byte -> option Z.

(** The address a line stands for, if any: trimmed, not blank, accepted
    by the codec. *)
Definition address_of_line (l : list byte) : option Z :=
  match TrimSpace l with
  | [] => None
  | t => ParseIPv4 t
  end.

Definition valid_addresses (s : list byte) : list Z :=
  omap address_of_line (split_lines s).

(** A line that is blank after trimming, or that the codec rejects. *)
Definition skipped_line (l : list byte) : Prop :=
  TrimSpace l = [] \/ ParseIPv4 (TrimSpace l) = None.

(** The lines of a file that stand for an address. *)
Definition counted_lines (s : list byte) : list (list byte) :=
  filter (fun l => is_Some (address_of_line l)) (split_lines s).

End Codec.

Lemma distinct_equiv (l1 l2 : list Z) :
  (forall x, x ∈ l1 <-> x ∈ l2) -> distinct l1 = distinct l2.
Proof.
  intros H. unfold distinct. f_equal. apply Permutation_length.
  apply NoDup_Permutation; try apply NoDup_remove_dups.
  intros x. rewrite !elem_of_remove_dups. apply H.
Qed.

Lemma distinct_nil : distinct [] = 0.
Proof. reflexivity. Qed.

Lemma distinct_nonneg l : 0 <= distinct l.
Proof. unfold distinct. lia. Qed.

Lemma distinct_cons_new x (l : list Z) :
  x ∉ l -> distinct (x :: l) = distinct l + 1.
Proof.
  intros H. unfold distinct. simpl.
  destruct (decide_rel elem_of x l) as [Hin|_]; [contradiction|].
  simpl. lia.
Qed.

Lemma distinct_cons_old x (l : list Z) :
  x ∈ l -> distinct (x :: l) = distinct l.
Proof.
  intros H. unfold distinct. simpl.
  destruct (decide_rel elem_of x l) as [_|Hn]; [reflexivity|contradiction].
Qed.

(** At most [n] distinct values lie in [0, n). *)
Lemma distinct_bound (l : list Z) n :
  0 <= n -> (forall x, x ∈ l -> 0 <= x < n) -> distinct l <= n.
Proof.
  intros Hn H. unfold distinct.
  assert (Hs : remove_dups l ⊆+ seqZ 0 n).
  { apply NoDup_submseteq; [apply NoDup_remove_dups|].
    intros x Hx. rewrite elem_of_remove_dups in Hx.
    apply elem_of_seqZ. specialize (H x Hx). lia. }
  apply submseteq_length in Hs. rewrite length_seqZ in Hs. lia.
Qed.

Lemma distinct_NoDup (l : list Z) : NoDup l -> distinct l = Z.of_nat (length l).
Proof.
  intros H. unfold distinct. f_equal. apply Permutation_length.
  apply NoDup_Permutation; [apply NoDup_remove_dups|exact H|].
  intros x. apply elem_of_remove_dups.
Qed.

Lemma byte_eqb_eq (x y : byte) : Byte.eqb x y = true <-> x = y.
Proof. split; [apply Byte.byte_dec_bl|apply Byte.byte_dec_lb]. Qed.

Lemma split_lines_nonempty s : split_lines s <> [].
Proof.
  destruct s as [|c s]; simpl; [discriminate|].
  destruct (is_newline c); [discriminate|].
  destruct (split_lines s); discriminate.
Qed.

Lemma split_lines_no_newline l : newline ∉ l -> split_lines l = [l].
Proof.
  induction l as [|c l IH]; intros Hn; [reflexivity|].
  apply not_elem_of_cons in Hn as [Hc Hl]. simpl.
  destruct (is_newline c) eqn:E.
  - apply is_newline_true in E. congruence.
  - rewrite IH by exact Hl. reflexivity.
Qed.

Lemma split_lines_app l s :
  newline ∉ l -> split_lines (l ++ newline :: s) = l :: split_lines s.
Proof.
  induction l as [|c l IH]; intros Hn.
  - reflexivity.
  - apply not_elem_of_cons in Hn as [Hc Hl]. simpl.
    destruct (is_newline c) eqn:E.
    + apply is_newline_true in E. congruence.
    + rewrite IH by exact Hl. reflexivity.
Qed.

Lemma LastIndexByte_None l c : c ∉ l -> LastIndexByte l c = None.
Proof.
  induction l as [|x l IH]; intros Hn; [reflexivity|].
  apply not_elem_of_cons in Hn as [Hc Hl]. simpl.
  rewrite IH by exact Hl.
  destruct (Byte.eqb x c) eqn:E; [|reflexivity].
  apply byte_eqb_eq in E. congruence.
Qed.

Lemma LastIndexByte_snoc l c :
  c ∉ l -> LastIndexByte (l ++ [c]) c = Some (length l).
Proof.
  induction l as [|x l IH]; intros Hn.
  - simpl. rewrite (proj2 (byte_eqb_eq c c)) by reflexivity. reflexivity.
  - apply not_elem_of_cons in Hn as [Hc Hl]. simpl.
    rewrite IH by exact Hl. reflexivity.
Qed.

Lemma LastIndexByte_Some l c i :
  LastIndexByte l c = Some i ->
  l !! i = Some c /\ c ∉ drop (S i) l.
Proof.
  revert i. induction l as [|x l IH]; intros i; [discriminate|].
  simpl. destruct (LastIndexByte l c) as [j|] eqn:E.
  - intros [= <-]. destruct (IH j eq_refl) as [H1 H2]. auto.
  - destruct (Byte.eqb x c) eqn:Ex; [|discriminate].
    intros [= <-]. apply byte_eqb_eq in Ex. subst x. simpl.
    split; [reflexivity|]. rewrite drop_0. clear IH.
    induction l as [|y l IHl]; [apply not_elem_of_nil|].
    simpl in E. destruct (LastIndexByte l c); [discriminate|].
    destruct (Byte.eqb y c) eqn:Ey; [discriminate|].
    apply not_elem_of_cons. split; [|apply IHl; reflexivity].
    intros ->. rewrite (proj2 (byte_eqb_eq y y)) in Ey by reflexivity.
    discriminate.
Qed.

Lemma distinct_fmap_inj (f : Z -> Z) (l : list Z) :
  (forall x y, x ∈ l -> y ∈ l -> f x = f y -> x = y) ->
  distinct (f <$> l) = distinct l.
Proof.
  intros Hinj. unfold distinct. f_equal.
  rewrite <- (length_fmap f (remove_dups l)).
  apply Permutation_length, NoDup_Permutation.
  - apply NoDup_remove_dups.
  - apply NoDup_fmap_2_strong; [|apply NoDup_remove_dups].
    intros x y Hx Hy. rewrite elem_of_remove_dups in Hx, Hy. auto.
  - intros y. rewrite elem_of_remove_dups, !list_elem_of_fmap.
    split; intros (x & -> & Hx); exists x; split; auto;
      rewrite elem_of_remove_dups in *; exact Hx.
Qed.

Lemma distinct_filter (P : Z -> Prop) `{!forall x, Decision (P x)} (l : list Z) :
  distinct (filter P l) = Z.of_nat (length (filter P (remove_dups l))).
Proof.
  unfold distinct. f_equal. apply Permutation_length, NoDup_Permutation.
  - apply NoDup_remove_dups.
  - apply list.NoDup_filter, NoDup_remove_dups.
  - intros x. rewrite elem_of_remove_dups, !list_elem_of_filter, elem_of_remove_dups.
    reflexivity.
Qed.

(** [f i + f (i+1) + ... + f (i+n-1)]. *)
Fixpoint sum_from (f : nat -> Z) (i n : nat) : Z :=
  match n with
  | O => 0
  | S n' => f i + sum_from f (S i) n'
  end.

Lemma sum_from_ext f g i n :
  (forall j, (i <= j < i + n)%nat -> f j = g j) -> sum_from f i n = sum_from g i n.
Proof.
  revert i. induction n as [|n IH]; intros i H; [reflexivity|].
  simpl. rewrite H by lia. rewrite IH; [reflexivity|].
  intros j Hj. apply H. lia.
Qed.

Lemma sum_from_zero i n : sum_from (fun _ => 0) i n = 0.
Proof. revert i. induction n as [|n IH]; intros i; simpl; [|rewrite IH]; reflexivity. Qed.

Lemma sum_from_add f g i n :
  sum_from (fun j => f j + g j) i n = sum_from f i n + sum_from g i n.
Proof. revert i. induction n as [|n IH]; intros i; simpl; [|rewrite IH]; lia. Qed.

Lemma sum_from_indicator (k i n : nat) :
  sum_from (fun j => if decide (k = j) then 1 else 0) i n =
  if decide (i <= k < i + n)%nat then 1 else 0.
Proof.
  revert i. induction n as [|n IH]; intros i; simpl.
  - destruct (decide _); [lia|reflexivity].
  - rewrite IH. repeat destruct (decide _); lia.
Qed.

(** Counting a list class by class. *)
Lemma sum_from_classes (key : Z -> nat) (l : list Z) n :
  (forall x, x ∈ l -> (key x < n)%nat) ->
  sum_from (fun i => Z.of_nat (length (filter (fun x => key x = i) l))) 0 n
  = Z.of_nat (length l).
Proof.
  induction l as [|x l IH]; intros Hk.
  - simpl. apply sum_from_zero.
  - rewrite (sum_from_ext _ (fun i => (if decide (key x = i) then 1 else 0)
        + Z.of_nat (length (filter (fun x => key x = i) l)))).
    + rewrite sum_from_add, sum_from_indicator, IH.
      * specialize (Hk x (list_elem_of_here _ _)).
        destruct (decide _); simpl length; lia.
      * intros y Hy. apply Hk, list_elem_of_further, Hy.
    + intros j _. rewrite filter_cons. destruct (decide (key x = j)); simpl; lia.
Qed.

(** The distinct values of a list, counted class by class. *)
Lemma distinct_classes (key : Z -> nat) (l : list Z) n :
  (forall x, x ∈ l -> (key x < n)%nat) ->
  sum_from (fun i => distinct (filter (fun x => key x = i) l)) 0 n = distinct l.
Proof.
  intros Hk.
  rewrite (sum_from_ext _
    (fun i => Z.of_nat (length (filter (fun x => key x = i) (remove_dups l))))).
  - apply sum_from_classes. intros x Hx. rewrite elem_of_remove_dups in Hx. auto.
  - intros j _. apply distinct_filter.
Qed.

(** What follows the last newline of [s]: the final partial line. *)
Definition tail_line (s : list byte) : list byte :=
  default [] (last (split_lines s)).

Lemma split_lines_app_newline pre y :
  split_lines (pre ++ newline :: y) = split_lines pre ++ split_lines y.
Proof.
  induction pre as [|c pre IH]; [reflexivity|].
  simpl. destruct (is_newline c); [rewrite IH; reflexivity|].
  rewrite IH. destruct (split_lines pre) as [|l ls] eqn:E; [|reflexivity].
  exfalso. exact (split_lines_nonempty _ E).
Qed.

Lemma tail_line_no_newline l : newline ∉ l -> tail_line l = l.
Proof.
  intros H. unfold tail_line. rewrite split_lines_no_newline by exact H.
  reflexivity.
Qed.

Lemma tail_line_app pre y : tail_line (pre ++ newline :: y) = tail_line y.
Proof.
  unfold tail_line. rewrite split_lines_app_newline.
  destruct (split_lines y) as [|l ls] eqn:E using rev_ind.
  - exfalso. exact (split_lines_nonempty _ E).
  - rewrite app_assoc, !last_snoc. reflexivity.
Qed.

Lemma newline_not_in_split_lines s l : l ∈ split_lines s -> newline ∉ l.
Proof.
  revert l. induction s as [|c s IH]; intros l; simpl.
  - intros Hl. apply list_elem_of_singleton in Hl as ->. apply not_elem_of_nil.
  - destruct (is_newline c) eqn:E.
    + intros Hl. apply elem_of_cons in Hl as [->|Hl]; [apply not_elem_of_nil|auto].
    + apply is_newline_false in E.
      destruct (split_lines s) as [|l0 ls] eqn:Es.
      * intros Hl. apply list_elem_of_singleton in Hl as ->.
        apply not_elem_of_cons. split; [congruence|apply not_elem_of_nil].
      * intros Hl. apply elem_of_cons in Hl as [->|Hl].
        -- apply not_elem_of_cons. split; [congruence|].
           apply IH, list_elem_of_here.
        -- apply IH, list_elem_of_further, Hl.
Qed.

Lemma tail_line_newline s : newline ∉ tail_line s.
Proof.
  unfold tail_line. destruct (last (split_lines s)) as [l|] eqn:E.
  - simpl. apply (newline_not_in_split_lines s). apply last_Some in E as [l' ->].
    apply elem_of_app. right. apply list_elem_of_here.
  - apply not_elem_of_nil.
Qed.

Lemma LastIndexByte_None_inv l c : LastIndexByte l c = None -> c ∉ l.
Proof.
  induction l as [|x l IH]; intros H; [apply not_elem_of_nil|].
  simpl in H. destruct (LastIndexByte l c); [discriminate|].
  destruct (Byte.eqb x c) eqn:E; [discriminate|].
  apply not_elem_of_cons. split; [|apply IH; reflexivity].
  intros ->. rewrite (proj2 (byte_eqb_eq x x)) in E by reflexivity.
  discriminate.
Qed.

(** A cut at the last newline: the part up to it, and the part after
    it, which has no newline. *)
Lemma LastIndexByte_cut l i :
  LastIndexByte l newline = Some i ->
  take (i + 1) l = take i l ++ [newline] /\ newline ∉ drop (i + 1) l.
Proof.
  intros H. apply LastIndexByte_Some in H as [H1 H2].
  rewrite Nat.add_1_r. split; [|exact H2].
  apply take_S_r, H1.
Qed.

Section CodecFacts.

Variable TrimSpace : list byte -> list byte.
Variable ParseIPv4 : list byte -> option Z.

Lemma skipped_line_None l :
  skipped_line TrimSpace ParseIPv4 l <-> address_of_line TrimSpace ParseIPv4 l = None.
Proof.
  unfold skipped_line, address_of_line.
  destruct (TrimSpace l) as [|b t]; [tauto|].
  split; [intros [H|H]; [discriminate|exact H]|auto].
Qed.

Lemma omap_filter_is_Some {A B} (f : A -> option B) (l : list A) :
  omap f (filter (fun x => is_Some (f x)) l) = omap f l.
Proof.
  induction l as [|x l IH]; [reflexivity|].
  rewrite filter_cons. destruct (decide (is_Some (f x))) as [Hs|Hn].
  - cbn [omap list_omap]. rewrite IH. reflexivity.
  - cbn [omap list_omap]. rewrite IH.
    destruct (f x) as [y|] eqn:E; [|reflexivity].
    exfalso. apply Hn. eauto.
Qed.

(** The valid addresses of a file are those of its counted lines. *)
Lemma valid_addresses_counted s :
  valid_addresses TrimSpace ParseIPv4 s =
  omap (address_of_line TrimSpace ParseIPv4) (counted_lines TrimSpace ParseIPv4 s).
Proof.
  unfold valid_addresses, counted_lines. symmetry. apply omap_filter_is_Some.
Qed.

Lemma valid_addresses_range s a :
  (forall l x, ParseIPv4 l = Some x -> 0 <= x < 2 ^ 32) ->
  a ∈ valid_addresses TrimSpace ParseIPv4 s -> 0 <= a < 2 ^ 32.
Proof.
  unfold valid_addresses. intros Hp Ha.
  apply list_elem_of_omap in Ha as (l & _ & Hl).
  unfold address_of_line in Hl.
  destruct (TrimSpace l) as [|b t]; [discriminate|].
  eapply Hp, Hl.
Qed.

(** A file of skipped lines has no valid address. *)
Lemma valid_addresses_skipped s :
  Forall (skipped_line TrimSpace ParseIPv4) (split_lines s) ->
  valid_addresses TrimSpace ParseIPv4 s = [].
Proof.
  unfold valid_addresses. induction 1 as [|l ls Hl _ IH]; [reflexivity|].
  apply skipped_line_None in Hl. cbn [omap list_omap]. rewrite Hl. exact IH.
Qed.

End CodecFacts.

End Lines.

(** ** A concrete codec

    The repository's [utils.ParseIPv4] and Go's [bytes.TrimSpace] are not
    among the sources at hand; the engines below take them as
    parameters.  The two functions here instantiate the parameters on
    concrete inputs. *)

Module Codec.

Import Bits.

(** The white space of ASCII, which [bytes.TrimSpace] removes. *)
Definition is_space (b : byte) : bool :=
  match b with
  | x09 | x0a | x0b | x0c | x0d | x20 => true
  | _ => false
  end.

Fixpoint trim_left (s : list byte) : list byte :=
  match s with
  | [] => []
  | b :: s' => if is_space b then trim_left s' else s
  end.

(** [bytes.TrimSpace] on ASCII text. *)
Definition TrimSpace (s : list byte) : list byte :=
  reverse (trim_left (reverse (trim_left s))).

Definition is_digit (b : byte) : bool :=
  (48 <=? Z_of_byte b) && (Z_of_byte b <=? 57).

Definition is_dot (b : byte) : bool := Byte.eqb b x2e.

(** The value of a run of decimal digits, as long as it stays within an
    octet. *)
Fixpoint octet_value (seg : list byte) (acc : Z) : option Z :=
  match seg with
  | [] => Some acc
  | b :: rest =>
      if is_digit b then
        let acc' := acc * 10 + (Z_of_byte b - 48) in
        if acc' <=? 255 then octet_value rest acc' else None
      else None
  end.

Definition parse_octet (seg : list byte) : option Z :=
  match seg with
  | [] => None
  | _ => octet_value seg 0
  end.

(** The segments between the dots of [s]; [cur] is the segment read so
    far, last byte first. *)
Fixpoint split_dots (s cur : list byte) : list (list byte) :=
  match s with
  | [] => [reverse cur]
  | b :: s' =>
      if is_dot b then reverse cur :: split_dots s' []
      else split_dots s' (b :: cur)
  end.

(** Modelled from the spec: [utils.ParseIPv4], whose source is not among
    the files at hand (section 4.1: exactly four dot-separated decimal
    octets, each an integer from 0 to 255, and nothing else; any
    deviation is a parse failure). *)
Definition ParseIPv4 (line : list byte) : option Z :=
  match split_dots line [] with
  | [s1; s2; s3; s4] =>
      match parse_octet s1, parse_octet s2, parse_octet s3, parse_octet s4 with
      | Some a, Some b, Some c, Some d =>
          Some (a * 2 ^ 24 + b * 2 ^ 16 + c * 2 ^ 8 + d)
      | _, _, _, _ => None
      end
  | _ => None
  end.

(** The bytes of a string literal. *)
Definition bytes (s : string) : list byte := list_byte_of_string s.

Lemma octet_value_range seg :
  forall acc v, 0 <= acc <= 255 -> octet_value seg acc = Some v -> 0 <= v <= 255.
Proof.
  induction seg as [|b seg IH]; intros acc v Hacc; simpl.
  - intros [= <-]. exact Hacc.
  - destruct (is_digit b) eqn:Ed; [|discriminate].
    destruct (Z.leb_spec (acc * 10 + (Z_of_byte b - 48)) 255); [|discriminate].
    apply IH. unfold is_digit in Ed.
    apply andb_prop in Ed as [E1 E2].
    apply Z.leb_le in E1. lia.
Qed.

Lemma parse_octet_range seg v : parse_octet seg = Some v -> 0 <= v <= 255.
Proof.
  destruct seg as [|b seg]; [discriminate|].
  apply octet_value_range. lia.
Qed.

(** The codec returns a 32-bit value. *)
Lemma ParseIPv4_u32 l a : ParseIPv4 l = Some a -> 0 <= a < 2 ^ 32.
Proof.
  unfold ParseIPv4.
  destruct (split_dots l []) as [|s1 [|s2 [|s3 [|s4 [|s5 rest]]]]];
    try discriminate.
  destruct (parse_octet s1) as [v1|] eqn:E1; [|discriminate].
  destruct (parse_octet s2) as [v2|] eqn:E2; [|discriminate].
  destruct (parse_octet s3) as [v3|] eqn:E3; [|discriminate].
  destruct (parse_octet s4) as [v4|] eqn:E4; [|discriminate].
  apply parse_octet_range in E1, E2, E3, E4.
  intros [= <-]. lia.
Qed.

Lemma TrimSpace_nil : TrimSpace [] = [].
Proof. reflexivity. Qed.

End Codec.

(** ** The disk-partitioned two-pass engine (src/bucket/bitbucket.go) *)

Module Bucket.

Import Bits Go Lines.

Definition numBuckets : Z := 256.
Definition suffixBits : Z := 24.
Definition wordsPerSet : Z := (Z.shiftl 1 suffixBits + 31) / 32.
Definition writeBufSize : Z := 256 * 1024.

(** The errors [CountUniqueIPs] returns, one per [fmt.Errorf] of the
    source, each wrapping its cause. *)
Inductive error : Type :=
| ErrMkdtemp (c : cause)
| ErrCreateBucket (c : cause)
| ErrOpenInput (c : cause)
| ErrRead (c : cause)
| ErrOpenBucket (i : nat) (c : cause)
| ErrReadBucket (i : nat) (c : cause).

Abbreviation result := (Go.result error).

(** The file system and the input as one call meets them.  A fault
    [(n, c)] on a stream lets [n] bytes through and then fails with [c]. *)
Record world : Type := {
  mkdtemp_fail : option cause;
  create_fail : nat -> option cause;
  open_fail : option cause;
  input : list byte;
  read_fail : option cause;
  write_fault : nat -> option (nat * cause);
  bucket_open_fail : nat -> option cause;
  bucket_read_fault : nat -> option (nat * cause);
}.

(** A world in which no operation fails. *)
Definition healthy (file : list byte) : world := {|
  mkdtemp_fail := None;
  create_fail := fun _ => None;
  open_fail := None;
  input := file;
  read_fail := None;
  write_fault := fun _ => None;
  bucket_open_fail := fun _ => None;
  bucket_read_fault := fun _ => None;
|}.

(** A world in which nothing fails but writes to the bucket files. *)
Definition with_write_faults (file : list byte)
    (faults : nat -> option (nat * cause)) : world := {|
  mkdtemp_fail := None;
  create_fail := fun _ => None;
  open_fail := None;
  input := file;
  read_fail := None;
  write_fault := faults;
  bucket_open_fail := fun _ => None;
  bucket_read_fault := fun _ => None;
|}.

(** A bucket file under its [bufio.Writer]: the bytes still in the
    buffer, the writer's sticky error, and the bytes on disk. *)
Record writer : Type := {
  buf : list byte;
  werr : option cause;
  disk : list byte;
}.

Definition new_writer : writer := {| buf := []; werr := None; disk := [] |}.

(** [os.File.Write]: the bytes that fit are written, the rest fail. *)
Definition file_write (fault : option (nat * cause)) (d p : list byte)
  : list byte * option cause :=
  match fault with
  | None => (d ++ p, None)
  | Some (q, c) =>
      let room := (q - length d)%nat in
      if (length p <=? room)%nat then (d ++ p, None)
      else (d ++ take room p, Some c)
  end.

(** [bufio.Writer.Flush]. *)
Definition Flush (fault : option (nat * cause)) (w : writer)
  : writer * option cause :=
  match werr w with
  | Some c => (w, Some c)
  | None =>
      match buf w with
      | [] => (w, None)
      | _ =>
          let '(d, e) := file_write fault (disk w) (buf w) in
          match e with
          | None => ({| buf := []; werr := None; disk := d |}, None)
          | Some c =>
              ({| buf := drop (length d - length (disk w)) (buf w);
                  werr := Some c; disk := d |}, Some c)
          end
      end
  end.

Definition Available (w : writer) : nat :=
  (Z.to_nat writeBufSize - length (buf w))%nat.

(** [bufio.Writer.Write] of a [p] no longer than the buffer (the engine
    writes four bytes at a time): [p] is buffered, after the buffer was
    filled and flushed when [p] does not fit. *)
Definition Write (fault : option (nat * cause)) (w : writer) (p : list byte)
  : writer * option cause :=
  match werr w with
  | Some c => (w, Some c)
  | None =>
      if (length p <=? Available w)%nat
      then ({| buf := buf w ++ p; werr := None; disk := disk w |}, None)
      else
        let n := Available w in
        let '(w1, e) :=
          Flush fault {| buf := buf w ++ take n p; werr := None; disk := disk w |} in
        match e with
        | Some c => (w1, Some c)
        | None =>
            ({| buf := buf w1 ++ drop n p; werr := None; disk := disk w1 |}, None)
        end
  end.

(** The successive results of [r.ReadBytes(newline)]: every one but the
    last ends with the newline and comes with [err == nil]; the last is
    what is left of the input and comes with [io.EOF] or the read
    failure.  [cur] is the line read so far, last byte first. *)
Fixpoint read_all (s cur : list byte) : list (list byte) :=
  match s with
  | [] => [reverse cur]
  | c :: s' =>
      if is_newline c then reverse (c :: cur) :: read_all s' []
      else read_all s' (c :: cur)
  end.

(** The test-and-set of pass 2 (lines 124-131); [None] is the panic of
    [bitset[word]] out of range. *)
Definition test_and_set (bitset : list Z) (suffix : Z) : option (list Z * bool) :=
  let word := Z.shiftr suffix 5 in
  let bit := Z.land suffix 31 in
  let mask := u32 (Z.shiftl 1 bit) in
  match bitset !! Z.to_nat word with
  | None => None
  | Some w =>
      if Z.land w mask =? 0
      then Some (<[Z.to_nat word := Z.lor w mask]> bitset, true)
      else Some (bitset, false)
  end.

(** The read loop of pass 2 over one bucket file: [s] is what the reader
    still delivers and [fail] how the stream ends ([None]: end of file). *)
Fixpoint count_records (i : nat) (fail : option cause) (s : list byte)
    (bitset : list Z) (added : Z) : result Z :=
  match s with
  | b0 :: b1 :: b2 :: b3 :: rest =>
      let suffix := Uint32 b0 b1 b2 b3 in
      match test_and_set bitset suffix with
      | None => Panic
      | Some (bitset', true) => count_records i fail rest bitset' (int64 (added + 1))
      | Some (bitset', false) => count_records i fail rest bitset' added
      end
  | _ =>
      match fail with
      | None => Ok added           (* io.EOF or io.ErrUnexpectedEOF: break *)
      | Some c => Err (ErrReadBucket i c)
      end
  end.

(** Line 83, [top := byte(ip >> 24)]: the partition of an address. *)
Definition top_of (ip : Z) : Z := Z_of_byte (byte_of_Z (Z.shiftr ip 24)).

(** Line 84, [suffix := ip & 0x00FFFFFF]: what is stored of an address. *)
Definition suffix_of (ip : Z) : Z := Z.land ip 0x00FFFFFF.

Section Engine.

Variable TrimSpace : list byte -> list byte.
Variable ParseIPv4 : list byte -> option Z.
Variable W : world.

(** The loop that creates bucket files [i], [i+1], ..., [i+n-1]. *)
Fixpoint create_buckets (i n : nat) : cause + list writer :=
  match n with
  | O => inr []
  | S n' =>
      match create_fail W i with
      | Some c => inl c
      | None =>
          match create_buckets (S i) n' with
          | inl c => inl c
          | inr ws => inr (new_writer :: ws)
          end
      end
  end.

(** [flushClose]: every writer is flushed, the error of [Flush] is
    dropped; what remains is the files on disk. *)
Definition flushClose (ws : list writer) : list (list byte) :=
  imap (fun i w => disk (fst (Flush (write_fault W i) w))) ws.

(** The line of one [ReadBytes] result (lines 75-79). *)
Definition line_of (b : list byte) : list byte :=
  match LastIndexByte b newline with
  | Some idx => TrimSpace (take idx b)
  | None => TrimSpace b
  end.

(** Lines 80-89: a non-empty line the codec accepts is routed to the
    writer of its top byte; the result of [Write] is dropped.  [None] is
    the panic of [writers[top]] out of range. *)
Definition route (ws : list writer) (line : list byte) : option (list writer) :=
  match line with
  | [] => Some ws
  | _ =>
      match ParseIPv4 line with
      | None => Some ws
      | Some ip =>
          let top := Z.to_nat (top_of ip) in
          let suffix := suffix_of ip in
          match ws !! top with
          | None => None
          | Some w =>
              Some (<[top := fst (Write (write_fault W top) w (PutUint32 suffix))]> ws)
          end
      end
  end.

(** The read loop of pass 1 over the results of [ReadBytes]. *)
Fixpoint pass1 (reads : list (list byte)) (ws : list writer) : result (list writer) :=
  match reads with
  | [] => Ok ws
  | [b] =>
      match read_fail W with
      | Some c => Err (ErrRead c)
      | None =>
          match route ws (line_of b) with
          | None => Panic
          | Some ws' => Ok ws'
          end
      end
  | b :: rest =>
      match route ws (line_of b) with
      | None => Panic
      | Some ws' => pass1 rest ws'
      end
  end.

(** What the reader of bucket file [i] delivers, and how it ends. *)
Definition bucket_stream (i : nat) (content : list byte) : list byte * option cause :=
  match bucket_read_fault W i with
  | None => (content, None)
  | Some (k, c) => (take k content, Some c)
  end.

(** Pass 2 over buckets [i], [i+1], ..., [i+n-1]. *)
Fixpoint pass2 (files : list (list byte)) (i n : nat) (total : Z) : result Z :=
  match n with
  | O => Ok total
  | S n' =>
      match bucket_open_fail W i with
      | Some c => Err (ErrOpenBucket i c)
      | None =>
          match files !! i with
          | None => Err (ErrOpenBucket i "no such file or directory"%string)
          | Some content =>
              let '(s, fail) := bucket_stream i content in
              match count_records i fail s (make wordsPerSet) 0 with
              | Ok added => pass2 files (S i) n' (int64 (total + added))
              | Err e => Err e
              | Panic => Panic
              end
          end
      end
  end.

Definition CountUniqueIPs : result Z :=
  match mkdtemp_fail W with
  | Some c => Err (ErrMkdtemp c)
  | None =>
      match create_buckets 0 (Z.to_nat numBuckets) with
      | inl c => Err (ErrCreateBucket c)
      | inr writers =>
          match open_fail W with
          | Some c => Err (ErrOpenInput c)
          | None =>
              match pass1 (read_all (input W) []) writers with
              | Err e => Err e
              | Panic => Panic
              | Ok writers' =>
                  pass2 (flushClose writers') 0 (Z.to_nat numBuckets) 0
              end
          end
      end
  end.

End Engine.

(** *** Pass 2 on one bucket file *)

(** The complete four-byte records of a stream, decoded. *)
Fixpoint records (s : list byte) : list Z :=
  match s with
  | b0 :: b1 :: b2 :: b3 :: rest => Uint32 b0 b1 b2 b3 :: records rest
  | _ => []
  end.

(** What pass 1 appends for a list of suffixes. *)
Definition encode (sufs : list Z) : list byte := flat_map PutUint32 sufs.

Lemma wordsPerSet_val : wordsPerSet = 524288.
Proof. reflexivity. Qed.

Lemma quad_ind (P : list byte -> Prop) :
  (forall s, (length s < 4)%nat -> P s) ->
  (forall b0 b1 b2 b3 rest, P rest -> P (b0 :: b1 :: b2 :: b3 :: rest)) ->
  forall s, P s.
Proof.
  intros Hshort Hstep.
  assert (H : forall n s, (length s <= n)%nat -> P s).
  { induction n as [|n IHn]; intros s Hl.
    - apply Hshort. lia.
    - destruct s as [|b0 [|b1 [|b2 [|b3 rest]]]];
        try (apply Hshort; simpl; lia).
      apply Hstep. apply IHn. simpl in Hl. lia. }
  intros s. apply (H (length s)). lia.
Qed.

Lemma count_records_short i fail s bitset added :
  (length s < 4)%nat ->
  count_records i fail s bitset added =
  match fail with None => Ok added | Some c => Err (ErrReadBucket i c) end.
Proof.
  intros Hl. destruct s as [|b0 [|b1 [|b2 [|b3 rest]]]]; try reflexivity.
  simpl in Hl. lia.
Qed.

Lemma records_short s : (length s < 4)%nat -> records s = [].
Proof.
  intros Hl. destruct s as [|b0 [|b1 [|b2 [|b3 rest]]]]; try reflexivity.
  simpl in Hl. lia.
Qed.

(** The test-and-set on a bit array that covers [s]. *)
Lemma test_and_set_spec bitset s :
  0 <= s < 32 * Z.of_nat (length bitset) ->
  exists bitset',
    test_and_set bitset s = Some (bitset', negb (bit_at bitset s)) /\
    length bitset' = length bitset /\
    (forall j, 0 <= j -> bit_at bitset' j = bit_at bitset j || (j =? s)).
Proof.
  intros Hs. unfold test_and_set.
  rewrite shiftr_5, land_31.
  pose proof (Z.mod_pos_bound s 32 ltac:(lia)) as Hm.
  rewrite mask_u32 by lia.
  assert (Hd : 0 <= s / 32 < Z.of_nat (length bitset)).
  { split; [apply Z.div_pos; lia|]. apply Z.div_lt_upper_bound; lia. }
  destruct (bitset !! Z.to_nat (s / 32)) as [w|] eqn:Hw.
  2:{ apply lookup_ge_None in Hw. lia. }
  rewrite land_pow2_eqb by lia.
  assert (Hb : bit_at bitset s = Z.testbit w (s mod 32)).
  { unfold bit_at. rewrite Hw. reflexivity. }
  rewrite <- Hb. destruct (bit_at bitset s) eqn:E; simpl.
  - exists bitset. split; [reflexivity|]. split; [reflexivity|].
    intros j Hj. destruct (Z.eqb_spec j s) as [->|_].
    + rewrite E. reflexivity.
    + rewrite Bool.orb_false_r. reflexivity.
  - eexists. split; [reflexivity|]. split; [apply length_insert|].
    intros j Hj. apply bit_at_set; [lia|lia|exact Hw].
Qed.

(** Pass 2 on one bucket, from a bit array that holds exactly [done]:
    the count of the bucket is the number of distinct records. *)
Lemma count_records_spec i fail s :
  forall bitset added done,
  length bitset = Z.to_nat wordsPerSet ->
  (forall r, r ∈ records s -> 0 <= r < 2 ^ 24) ->
  (forall x, x ∈ done -> 0 <= x < 2 ^ 24) ->
  (forall j, 0 <= j -> bit_at bitset j = true <-> j ∈ done) ->
  added = distinct done ->
  count_records i fail s bitset added =
  match fail with
  | None => Ok (distinct (done ++ records s))
  | Some c => Err (ErrReadBucket i c)
  end.
Proof.
  induction s as [s Hl|b0 b1 b2 b3 rest IH] using quad_ind;
    intros bitset added done Hlen Hrec Hdone Hbits Hadd.
  - rewrite count_records_short, records_short by exact Hl.
    rewrite app_nil_r. subst added. reflexivity.
  - cbn [count_records records].
    set (r := Uint32 b0 b1 b2 b3) in *.
    assert (Hr : 0 <= r < 2 ^ 24).
    { apply Hrec. cbn [records]. apply list_elem_of_here. }
    destruct (test_and_set_spec bitset r) as (bitset' & -> & Hlen' & Hbits').
    { rewrite Hlen, wordsPerSet_val. lia. }
    assert (Hrest : forall r', r' ∈ records rest -> 0 <= r' < 2 ^ 24).
    { intros r' Hr'. apply Hrec. cbn [records]. apply list_elem_of_further, Hr'. }
    destruct (bit_at bitset r) eqn:E; cbn [negb].
    + assert (Hin : r ∈ done) by (apply Hbits; [lia|exact E]).
      rewrite (IH bitset' added done); try assumption; try congruence.
      * destruct fail; [reflexivity|]. f_equal. apply distinct_equiv.
        intros x. rewrite !elem_of_app, elem_of_cons.
        split; [tauto|]. intros [H|[->|H]]; tauto.
      * intros j Hj. rewrite Hbits' by exact Hj. rewrite <- Hbits by exact Hj.
        destruct (Z.eqb_spec j r) as [->|_].
        -- rewrite E. reflexivity.
        -- rewrite Bool.orb_false_r. reflexivity.
    + assert (Hnin : r ∉ done).
      { intros Hin. apply Hbits in Hin; [congruence|lia]. }
      assert (Hb : distinct done <= 2 ^ 24) by (apply distinct_bound; [lia|exact Hdone]).
      pose proof (distinct_nonneg done) as Hnn.
      rewrite (IH bitset' _ (r :: done)); try assumption; try congruence.
      * destruct fail; [reflexivity|]. f_equal. apply distinct_equiv.
        intros x. rewrite !elem_of_app, !elem_of_cons. tauto.
      * intros x Hx. apply elem_of_cons in Hx as [->|Hx]; auto.
      * intros j Hj. rewrite Hbits' by exact Hj. rewrite elem_of_cons.
        rewrite <- Hbits by exact Hj.
        destruct (Z.eqb_spec j r) as [->|Hne].
        -- rewrite Bool.orb_true_r. tauto.
        -- rewrite Bool.orb_false_r. tauto.
      * rewrite distinct_cons_new by exact Hnin. subst added.
        apply int64_small. lia.
Qed.


Lemma records_encode sufs tail :
  (forall x, x ∈ sufs -> 0 <= x < 2 ^ 32) ->
  (length tail < 4)%nat ->
  records (encode sufs ++ tail) = sufs.
Proof.
  intros Hr Ht. induction sufs as [|a sufs IH].
  - simpl. apply records_short, Ht.
  - unfold encode. cbn [flat_map PutUint32 app records].
    rewrite Uint32_PutUint32 by (apply Hr, list_elem_of_here).
    f_equal. apply IH. intros x Hx. apply Hr, list_elem_of_further, Hx.
Qed.

(** A prefix of what pass 1 wrote is whole records and a short tail. *)
Lemma take_encode m sufs :
  exists k tail,
    take m (encode sufs) = encode (take k sufs) ++ tail /\ (length tail < 4)%nat.
Proof.
  revert m. induction sufs as [|a sufs IH]; intros m.
  - exists 0%nat, []. split; [destruct m; reflexivity|simpl; lia].
  - unfold encode. cbn [flat_map PutUint32 app].
    destruct m as [|[|[|[|m]]]];
      try (exists 0%nat; eexists; split; [reflexivity|simpl; lia]).
    destruct (IH m) as (k & tail & Hk & Ht).
    exists (S k), tail. split; [|exact Ht].
    cbn [take flat_map PutUint32 app]. fold (encode sufs).
    fold (encode (take k sufs)). rewrite Hk. reflexivity.
Qed.

(** *** The buffered writers of pass 1 *)

(** What is on disk of [data] once the fault struck. *)
Definition truncate (fault : option (nat * cause)) (data : list byte) : list byte :=
  match fault with
  | None => data
  | Some (q, _) => take q data
  end.

(** A writer that was handed [data] so far. *)
Definition winv (fault : option (nat * cause)) (w : writer) (data : list byte) : Prop :=
  match werr w with
  | None =>
      disk w ++ buf w = data /\
      match fault with
      | None => True
      | Some (q, _) => (length (disk w) <= q)%nat
      end
  | Some _ =>
      exists q c, fault = Some (q, c) /\ disk w = take q data /\ (q < length data)%nat
  end.

Lemma winv_new fault : winv fault new_writer [].
Proof. unfold winv. simpl. split; [reflexivity|]. destruct fault as [[q c]|]; [lia|exact I]. Qed.

Lemma winv_grow fault w data p :
  werr w <> None -> winv fault w data -> winv fault w (data ++ p).
Proof.
  unfold winv. destruct (werr w) as [c|]; [|congruence].
  intros _ (q & c' & -> & Hd & Hq). exists q, c'.
  split; [reflexivity|]. split.
  - rewrite take_app_le by lia. exact Hd.
  - rewrite length_app. lia.
Qed.

Lemma Flush_spec fault w data :
  winv fault w data ->
  winv fault (fst (Flush fault w)) data /\
  disk (fst (Flush fault w)) = truncate fault data /\
  snd (Flush fault w) = werr (fst (Flush fault w)).
Proof.
  unfold Flush, winv. destruct (werr w) as [c|] eqn:Ew.
  - intros (q & c' & -> & Hd & Hq). simpl. rewrite Ew.
    split; [eauto 6|]. split; [exact Hd|reflexivity].
  - intros [Hdata Hq]. destruct (buf w) as [|b bs] eqn:Eb.
    + simpl. rewrite Ew, Eb. rewrite app_nil_r in Hdata.
      split; [rewrite app_nil_r; auto|]. split; [|reflexivity].
      unfold truncate. destruct fault as [[q c]|]; [|exact Hdata].
      rewrite take_ge by (subst data; lia). exact Hdata.
    + unfold file_write. destruct fault as [[q c]|].
      * destruct (Nat.leb_spec (length (b :: bs)) (q - length (disk w))) as [Hle|Hgt].
        -- simpl. rewrite app_nil_r. split; [split; [exact Hdata|]|].
           ++ rewrite length_app. simpl in *. lia.
           ++ split; [|reflexivity].
              rewrite take_ge; [exact Hdata|].
              subst data. rewrite length_app. simpl in *. lia.
        -- assert (Ht : disk w ++ take (q - length (disk w)) (b :: bs) = take q data).
           { subst data. rewrite take_app. rewrite (take_ge (disk w)) by lia.
             reflexivity. }
           cbn [fst snd werr disk]. split; [|split; [exact Ht|reflexivity]].
           exists q, c. split; [reflexivity|]. split; [exact Ht|].
           subst data. rewrite length_app. lia.
      * simpl. rewrite app_nil_r. split; [split; [exact Hdata|exact I]|].
        split; [exact Hdata|reflexivity].
Qed.

Lemma Write_inv fault w data p :
  winv fault w data -> winv fault (fst (Write fault w p)) (data ++ p).
Proof.
  intros Hw. unfold Write. destruct (werr w) as [c|] eqn:Ew.
  - simpl. apply winv_grow; [congruence|exact Hw].
  - assert (Hw' := Hw). unfold winv in Hw'. rewrite Ew in Hw'.
    destruct Hw' as [Hdata Hq].
    destruct (Nat.leb_spec (length p) (Available w)) as [Hle|Hgt].
    + unfold winv. simpl. rewrite app_assoc, Hdata. auto.
    + set (n := Available w) in *.
      set (w0 := {| buf := buf w ++ take n p; werr := None; disk := disk w |}).
      assert (Hw0 : winv fault w0 (data ++ take n p)).
      { unfold winv, w0. simpl. rewrite app_assoc, Hdata. auto. }
      destruct (Flush_spec fault w0 _ Hw0) as (Hinv & _ & Herr).
      destruct (Flush fault w0) as [w1 e]. simpl in Hinv, Herr. subst e.
      destruct (werr w1) as [c|] eqn:E1.
      * simpl.
        replace (data ++ p) with ((data ++ take n p) ++ drop n p)
          by (rewrite <- app_assoc, take_drop; reflexivity).
        apply winv_grow; [congruence|exact Hinv].
      * unfold winv in Hinv |- *. rewrite E1 in Hinv. simpl.
        destruct Hinv as [Hd1 Hq1]. split; [|exact Hq1].
        rewrite app_assoc, Hd1, <- app_assoc, take_drop. reflexivity.
Qed.

(** A tail of fewer than four bytes after whole records ends the stream
    of pass 2 like the end of the file. *)
Lemma count_records_tail i fail tail s :
  (length tail < 4)%nat ->
  forall bitset added,
  (length s mod 4 = 0)%nat ->
  count_records i fail (s ++ tail) bitset added
  = count_records i fail s bitset added.
Proof.
  intros Ht. induction s as [s Hl|b0 b1 b2 b3 rest IH] using quad_ind;
    intros bitset added Hs.
  - rewrite Nat.mod_small in Hs by exact Hl.
    apply nil_length_inv in Hs. subst s.
    rewrite !count_records_short by (simpl; lia). reflexivity.
  - assert (Hr : (length rest mod 4 = 0)%nat).
    { cbn [length] in Hs.
      replace (S (S (S (S (length rest))))) with (length rest + 1 * 4)%nat in Hs by lia.
      rewrite Nat.Div0.mod_add in Hs. exact Hs. }
    cbn [app count_records].
    destruct (test_and_set bitset (Uint32 b0 b1 b2 b3)) as [[bitset' [|]]|];
      [apply IH, Hr|apply IH, Hr|reflexivity].
Qed.

Lemma encode_length sufs : length (encode sufs) = (4 * length sufs)%nat.
Proof.
  induction sufs as [|a sufs IH]; [reflexivity|].
  unfold encode in *. cbn [flat_map PutUint32 app length]. rewrite IH. lia.
Qed.

(** *** Pass 1 as a whole *)

Lemma top_of_range ip : 0 <= top_of ip < 256.
Proof. apply Z_of_byte_range. Qed.

Lemma suffix_of_mod ip : suffix_of ip = ip mod 2 ^ 24.
Proof.
  unfold suffix_of. change 0x00FFFFFF with (Z.ones 24).
  apply Z.land_ones. lia.
Qed.

Lemma suffix_of_range ip : 0 <= suffix_of ip < 2 ^ 24.
Proof. rewrite suffix_of_mod. apply Z.mod_pos_bound. lia. Qed.

Lemma top_of_div ip : 0 <= ip < 2 ^ 32 -> top_of ip = ip / 2 ^ 24.
Proof.
  intros H. unfold top_of. rewrite Z_of_byte_of_Z, Z.shiftr_div_pow2 by lia.
  apply Z.mod_small. split; [apply Z.div_pos; lia|].
  apply Z.div_lt_upper_bound; lia.
Qed.

(** The suffixes pass 1 hands, in order, to the writer of bucket [i]. *)
Definition bucket_sufs (i : nat) (addrs : list Z) : list Z :=
  suffix_of <$> filter (fun a => Z.to_nat (top_of a) = i) addrs.

Lemma bucket_sufs_range i addrs x : x ∈ bucket_sufs i addrs -> 0 <= x < 2 ^ 24.
Proof.
  unfold bucket_sufs. intros Hx. apply list_elem_of_fmap in Hx as (a & -> & _).
  apply suffix_of_range.
Qed.

Section Facts.

Variable TrimSpace : list byte -> list byte.
Variable ParseIPv4 : list byte -> option Z.
Variable W : world.

(** What [route] does with an accepted address. *)
Definition store (ws : list writer) (ip : Z) : list writer :=
  let top := Z.to_nat (top_of ip) in
  match ws !! top with
  | None => ws
  | Some w => <[top := fst (Write (write_fault W top) w (PutUint32 (suffix_of ip)))]> ws
  end.

Lemma store_length ws ip : length (store ws ip) = length ws.
Proof.
  unfold store. destruct (ws !! _); [apply length_insert|reflexivity].
Qed.

Lemma foldl_store_length addrs ws : length (foldl store ws addrs) = length ws.
Proof.
  revert ws. induction addrs as [|a addrs IH]; intros ws; [reflexivity|].
  simpl. rewrite IH. apply store_length.
Qed.

Lemma route_store ws l :
  length ws = 256%nat ->
  route ParseIPv4 W ws (TrimSpace l) =
  Some (match address_of_line TrimSpace ParseIPv4 l with
        | Some ip => store ws ip
        | None => ws
        end).
Proof.
  intros Hlen. unfold route, address_of_line.
  destruct (TrimSpace l) as [|b t]; [reflexivity|].
  destruct (ParseIPv4 (b :: t)) as [ip|]; [|reflexivity].
  unfold store. destruct (ws !! Z.to_nat (top_of ip)) eqn:E; [reflexivity|].
  apply lookup_ge_None in E. pose proof (top_of_range ip). lia.
Qed.

Lemma line_of_newline l :
  newline ∉ l -> line_of TrimSpace (l ++ [newline]) = TrimSpace l.
Proof.
  intros Hn. unfold line_of. rewrite LastIndexByte_snoc by exact Hn.
  rewrite take_app_length. reflexivity.
Qed.

Lemma line_of_last l : newline ∉ l -> line_of TrimSpace l = TrimSpace l.
Proof.
  intros Hn. unfold line_of. rewrite LastIndexByte_None by exact Hn. reflexivity.
Qed.

Lemma read_all_nonempty s cur : read_all s cur <> [].
Proof.
  revert cur. induction s as [|c s IH]; intros cur; simpl; [discriminate|].
  destruct (is_newline c); [discriminate|apply IH].
Qed.

Lemma pass1_cons b rest ws :
  rest <> [] ->
  pass1 TrimSpace ParseIPv4 W (b :: rest) ws =
  match route ParseIPv4 W ws (line_of TrimSpace b) with
  | None => Panic
  | Some ws' => pass1 TrimSpace ParseIPv4 W rest ws'
  end.
Proof. destruct rest; [congruence|reflexivity]. Qed.

(** Pass 1 stores the valid addresses of the input, in order. *)
Lemma pass1_read_all s :
  forall cur ws,
  length ws = 256%nat -> newline ∉ cur ->
  pass1 TrimSpace ParseIPv4 W (read_all s cur) ws =
  match read_fail W with
  | Some c => Err (ErrRead c)
  | None => Ok (foldl store ws (valid_addresses TrimSpace ParseIPv4 (reverse cur ++ s)))
  end.
Proof.
  induction s as [|c s IH]; intros cur ws Hlen Hcur.
  - assert (Hr : newline ∉ reverse cur) by (rewrite elem_of_reverse; exact Hcur).
    simpl. destruct (read_fail W); [reflexivity|].
    rewrite line_of_last, route_store by assumption.
    rewrite app_nil_r. unfold valid_addresses.
    rewrite split_lines_no_newline by exact Hr. simpl.
    destruct (address_of_line TrimSpace ParseIPv4 (reverse cur)); reflexivity.
  - assert (Hr : newline ∉ reverse cur) by (rewrite elem_of_reverse; exact Hcur).
    cbn [read_all]. destruct (is_newline c) eqn:E.
    + apply is_newline_true in E. subst c.
      rewrite pass1_cons by apply read_all_nonempty.
      rewrite reverse_cons, line_of_newline, route_store by assumption.
      set (ws' := match address_of_line TrimSpace ParseIPv4 (reverse cur) with
                  | Some ip => store ws ip | None => ws end).
      rewrite (IH [] ws').
      2:{ unfold ws'. destruct (address_of_line _ _ _); [rewrite store_length|]; exact Hlen. }
      2:{ apply not_elem_of_nil. }
      destruct (read_fail W); [reflexivity|]. f_equal.
      unfold valid_addresses. rewrite split_lines_app by exact Hr.
      simpl. unfold ws'.
      destruct (address_of_line TrimSpace ParseIPv4 (reverse cur)); reflexivity.
    + apply is_newline_false in E.
      rewrite (IH (c :: cur) ws Hlen).
      2:{ apply not_elem_of_cons. split; [congruence|exact Hcur]. }
      rewrite reverse_cons, <- app_assoc. reflexivity.
Qed.

Lemma encode_app l1 l2 : encode (l1 ++ l2) = encode l1 ++ encode l2.
Proof. unfold encode. apply flat_map_app. Qed.

Lemma bucket_sufs_cons i a addrs :
  bucket_sufs i (a :: addrs) = bucket_sufs i [a] ++ bucket_sufs i addrs.
Proof.
  unfold bucket_sufs. rewrite !filter_cons, filter_nil.
  destruct (decide _); reflexivity.
Qed.

Lemma encode_one x : encode [x] = PutUint32 x.
Proof. unfold encode. cbn [flat_map]. apply app_nil_r. Qed.

Lemma store_inv (D : nat -> list byte) ws ip :
  (forall i w, ws !! i = Some w -> winv (write_fault W i) w (D i)) ->
  forall i w, store ws ip !! i = Some w ->
    winv (write_fault W i) w (D i ++ encode (bucket_sufs i [ip])).
Proof.
  intros Hws i w. unfold store, bucket_sufs.
  rewrite filter_cons, filter_nil.
  destruct (ws !! Z.to_nat (top_of ip)) as [w0|] eqn:E.
  - destruct (decide (Z.to_nat (top_of ip) = i)) as [<-|Hne].
    + rewrite list_lookup_insert_eq by (eapply lookup_lt_Some; eauto).
      intros [= <-]. rewrite list_fmap_singleton, encode_one.
      apply Write_inv, Hws, E.
    + rewrite list_lookup_insert_ne by exact Hne.
      intros Hw. change (encode (suffix_of <$> [])) with (@nil byte).
      rewrite app_nil_r. apply Hws, Hw.
  - intros Hw. destruct (decide (Z.to_nat (top_of ip) = i)) as [<-|Hne];
      [congruence|].
    change (encode (suffix_of <$> [])) with (@nil byte).
    rewrite app_nil_r. apply Hws, Hw.
Qed.

Lemma foldl_store_inv addrs :
  forall (D : nat -> list byte) ws,
  (forall i w, ws !! i = Some w -> winv (write_fault W i) w (D i)) ->
  forall i w, foldl store ws addrs !! i = Some w ->
    winv (write_fault W i) w (D i ++ encode (bucket_sufs i addrs)).
Proof.
  induction addrs as [|a addrs IH]; intros D ws Hws i w Hw.
  - simpl in Hw. change (encode (bucket_sufs i [])) with (@nil byte).
    rewrite app_nil_r. apply Hws, Hw.
  - simpl in Hw. rewrite bucket_sufs_cons, encode_app, app_assoc.
    apply (IH (fun i => D i ++ encode (bucket_sufs i [a])) (store ws a));
      [|exact Hw].
    apply store_inv, Hws.
Qed.

Lemma flushClose_lookup ws i w data :
  ws !! i = Some w -> winv (write_fault W i) w data ->
  flushClose W ws !! i = Some (truncate (write_fault W i) data).
Proof.
  intros Hw Hinv. unfold flushClose. rewrite list_lookup_imap, Hw. simpl.
  f_equal. apply Flush_spec, Hinv.
Qed.

Lemma create_buckets_inr i n ws :
  create_buckets W i n = inr ws -> ws = replicate n new_writer.
Proof.
  revert i ws. induction n as [|n IH]; intros i ws; simpl.
  - intros [= <-]. reflexivity.
  - destruct (create_fail W i); [discriminate|].
    destruct (create_buckets W (S i) n) as [c|ws'] eqn:E; [discriminate|].
    intros [= <-]. f_equal. eapply IH, E.
Qed.

Lemma create_buckets_ok i n :
  (forall j, create_fail W j = None) ->
  create_buckets W i n = inr (replicate n new_writer).
Proof.
  intros H. revert i. induction n as [|n IH]; intros i; simpl; [reflexivity|].
  rewrite H, IH. reflexivity.
Qed.

(** The bucket files after pass 1, for the addresses [addrs] stored. *)
Lemma files_after_pass1 addrs i :
  (i < 256)%nat ->
  flushClose W (foldl store (replicate 256 new_writer) addrs) !! i =
  Some (truncate (write_fault W i) (encode (bucket_sufs i addrs))).
Proof.
  intros Hi.
  destruct (foldl store (replicate 256 new_writer) addrs !! i) as [w|] eqn:E.
  2:{ apply lookup_ge_None in E.
      rewrite foldl_store_length, length_replicate in E. lia. }
  apply (flushClose_lookup _ _ w); [exact E|].
  apply (foldl_store_inv addrs (fun _ => []) (replicate 256 new_writer)); [|exact E].
  intros j w' Hw'. apply lookup_replicate in Hw' as [-> _]. apply winv_new.
Qed.

(** What the reader of pass 2 is given of a bucket is whole records of
    pass 1 and a short tail. *)
Lemma bucket_stream_records i sufs :
  exists k tail,
    fst (bucket_stream W i (truncate (write_fault W i) (encode sufs)))
    = encode (take k sufs) ++ tail /\ (length tail < 4)%nat.
Proof.
  unfold bucket_stream, truncate.
  destruct (bucket_read_fault W i) as [[k c]|], (write_fault W i) as [[q c']|];
    cbn [fst].
  - rewrite take_take. apply take_encode.
  - apply take_encode.
  - apply take_encode.
  - exists (length sufs), []. rewrite firstn_all, app_nil_r.
    split; [reflexivity|simpl; lia].
Qed.

Lemma bucket_stream_range i addrs r :
  r ∈ records (fst (bucket_stream W i
         (truncate (write_fault W i) (encode (bucket_sufs i addrs))))) ->
  0 <= r < 2 ^ 24.
Proof.
  destruct (bucket_stream_records i (bucket_sufs i addrs)) as (k & tail & -> & Ht).
  assert (Hr : forall x, x ∈ take k (bucket_sufs i addrs) -> 0 <= x < 2 ^ 24).
  { intros x Hx. apply (bucket_sufs_range i addrs).
    rewrite <- (take_drop k (bucket_sufs i addrs)).
    apply elem_of_app. left. exact Hx. }
  rewrite records_encode; [apply Hr| |exact Ht].
  intros x Hx. specialize (Hr x Hx). lia.
Qed.

(** The count of one bucket in pass 2. *)
Lemma count_records_fresh i fail s :
  (forall r, r ∈ records s -> 0 <= r < 2 ^ 24) ->
  count_records i fail s (make wordsPerSet) 0 =
  match fail with
  | None => Ok (distinct (records s))
  | Some c => Err (ErrReadBucket i c)
  end.
Proof.
  intros Hr.
  apply (count_records_spec i fail s (make wordsPerSet) 0 []).
  - apply length_make.
  - exact Hr.
  - intros x Hx. apply elem_of_nil in Hx. contradiction.
  - intros j Hj. rewrite bit_at_make. split; [discriminate|].
    intros Hx. apply elem_of_nil in Hx. contradiction.
  - reflexivity.
Qed.

(** Pass 2 never indexes a bit array out of range. *)
Lemma pass2_no_panic files n :
  forall i total,
  (forall j content r, files !! j = Some content ->
     r ∈ records (fst (bucket_stream W j content)) -> 0 <= r < 2 ^ 24) ->
  pass2 W files i n total <> Panic.
Proof.
  induction n as [|n IH]; intros i total Hr; simpl; [discriminate|].
  destruct (bucket_open_fail W i); [discriminate|].
  destruct (files !! i) as [content|] eqn:E; [|discriminate].
  pose proof (Hr i content) as Hri.
  destruct (bucket_stream W i content) as [s fail].
  rewrite count_records_fresh by (intros r; apply Hri; exact E).
  destruct fail; [discriminate|]. apply IH, Hr.
Qed.

Lemma numBuckets_nat : Z.to_nat numBuckets = 256%nat.
Proof. reflexivity. Qed.

Lemma flushClose_length ws : length (flushClose W ws) = length ws.
Proof. unfold flushClose. apply length_imap. Qed.

(** The call as a whole, once the temporary directory, the bucket files
    and the input are open: pass 1 stores the valid addresses, pass 2
    reads the bucket files back. *)
Lemma CountUniqueIPs_passes :
  mkdtemp_fail W = None ->
  (forall j, create_fail W j = None) ->
  open_fail W = None ->
  read_fail W = None ->
  CountUniqueIPs TrimSpace ParseIPv4 W =
  pass2 W (flushClose W (foldl store (replicate 256 new_writer)
                           (valid_addresses TrimSpace ParseIPv4 (input W))))
        0 256 0.
Proof.
  intros Hm Hc Ho Hr. unfold CountUniqueIPs.
  rewrite Hm, numBuckets_nat, create_buckets_ok, Ho by exact Hc.
  rewrite pass1_read_all, Hr.
  - reflexivity.
  - apply length_replicate.
  - apply not_elem_of_nil.
Qed.

(** No index of the call is out of range, whatever fails. *)
Lemma CountUniqueIPs_no_panic : CountUniqueIPs TrimSpace ParseIPv4 W <> Panic.
Proof.
  unfold CountUniqueIPs.
  destruct (mkdtemp_fail W); [discriminate|].
  rewrite numBuckets_nat.
  destruct (create_buckets W 0 256) as [c|ws] eqn:Ec; [discriminate|].
  apply create_buckets_inr in Ec. subst ws.
  destruct (open_fail W); [discriminate|].
  rewrite pass1_read_all;
    [|apply length_replicate|apply not_elem_of_nil].
  destruct (read_fail W); [discriminate|].
  apply pass2_no_panic. intros j content r Hj.
  assert (Hlt : (j < 256)%nat).
  { apply lookup_lt_Some in Hj.
    rewrite flushClose_length, foldl_store_length, length_replicate in Hj.
    exact Hj. }
  rewrite files_after_pass1 in Hj by exact Hlt. injection Hj as <-.
  apply bucket_stream_range.
Qed.

(** Pass 2 when no bucket file fails to open or to read: the counts of
    the buckets, added up. *)
Lemma pass2_sum files (cnt : nat -> Z) n :
  (forall j, bucket_open_fail W j = None) ->
  (forall j, bucket_read_fault W j = None) ->
  forall i total,
  (forall j, (i <= j < i + n)%nat -> exists content,
      files !! j = Some content /\
      (forall r, r ∈ records content -> 0 <= r < 2 ^ 24) /\
      cnt j = distinct (records content)) ->
  0 <= total -> total + Z.of_nat n * 2 ^ 24 < 2 ^ 63 ->
  pass2 W files i n total = Ok (total + sum_from cnt i n).
Proof.
  intros Ho Hf. induction n as [|n IH]; intros i total Hfiles H0 Hb; simpl.
  - f_equal. lia.
  - rewrite Ho. destruct (Hfiles i ltac:(lia)) as (content & -> & Hr & Hc).
    unfold bucket_stream. rewrite Hf.
    rewrite count_records_fresh by exact Hr.
    pose proof (distinct_nonneg (records content)) as Hnn.
    pose proof (distinct_bound (records content) (2 ^ 24) ltac:(lia) Hr) as Hle.
    rewrite int64_small by lia.
    rewrite IH; [f_equal; lia| |lia|lia].
    intros j Hj. apply Hfiles. lia.
Qed.

End Facts.

(** *** The count of the call *)

Lemma split_address ip :
  0 <= ip < 2 ^ 32 -> ip = top_of ip * 2 ^ 24 + suffix_of ip.
Proof.
  intros H. rewrite top_of_div, suffix_of_mod by exact H.
  pose proof (Z.div_mod ip (2 ^ 24) ltac:(lia)). lia.
Qed.

Section Counting.

Variable TrimSpace : list byte -> list byte.
Variable ParseIPv4 : list byte -> option Z.

(** The codec returns a [uint32]. *)
Hypothesis ParseIPv4_u32 : forall l a, ParseIPv4 l = Some a -> 0 <= a < 2 ^ 32.

(** With write faults only, the call returns the number of distinct
    records left on disk, bucket by bucket; a failed write is not
    reported. *)
Lemma CountUniqueIPs_write_faults file faults :
  CountUniqueIPs TrimSpace ParseIPv4 (with_write_faults file faults) =
  Ok (sum_from
        (fun i => distinct (records (truncate (faults i)
           (encode (bucket_sufs i (valid_addresses TrimSpace ParseIPv4 file))))))
        0 256).
Proof.
  rewrite CountUniqueIPs_passes by reflexivity.
  set (W := with_write_faults file faults).
  set (addrs := valid_addresses TrimSpace ParseIPv4 (input W)).
  rewrite (pass2_sum W _
    (fun i => distinct (records (truncate (faults i) (encode (bucket_sufs i addrs))))));
    try reflexivity.
  intros j Hj. eexists. split; [apply files_after_pass1; lia|].
  split; [|reflexivity].
  intros r Hr. apply (bucket_stream_range W j addrs). exact Hr.
Qed.

Lemma bucket_count_healthy addrs i :
  (forall a, a ∈ addrs -> 0 <= a < 2 ^ 32) ->
  distinct (records (encode (bucket_sufs i addrs))) =
  distinct (filter (fun a => Z.to_nat (top_of a) = i) addrs).
Proof.
  intros Hr. rewrite <- (app_nil_r (encode _)).
  rewrite records_encode; [| |simpl; lia].
  2:{ intros x Hx. apply bucket_sufs_range in Hx. lia. }
  unfold bucket_sufs. apply distinct_fmap_inj.
  intros x y Hx Hy Hs.
  apply list_elem_of_filter in Hx as [Hx1 Hx2], Hy as [Hy1 Hy2].
  rewrite (split_address x), (split_address y) by auto.
  pose proof (top_of_range x). pose proof (top_of_range y).
  rewrite Hs. f_equal. f_equal. lia.
Qed.

(** When nothing fails and the addresses are 32-bit values, the call
    returns the number of distinct valid addresses of the input. *)
Lemma CountUniqueIPs_healthy_range file :
  (forall a, a ∈ valid_addresses TrimSpace ParseIPv4 file -> 0 <= a < 2 ^ 32) ->
  CountUniqueIPs TrimSpace ParseIPv4 (healthy file) =
  Ok (distinct (valid_addresses TrimSpace ParseIPv4 file)).
Proof.
  intros Hr.
  change (healthy file) with (with_write_faults file (fun _ => None)).
  rewrite CountUniqueIPs_write_faults. f_equal.
  set (addrs := valid_addresses TrimSpace ParseIPv4 file) in *.
  rewrite (sum_from_ext _
    (fun i => distinct (filter (fun a => Z.to_nat (top_of a) = i) addrs))).
  - apply (distinct_classes (fun a => Z.to_nat (top_of a))).
    intros x _. pose proof (top_of_range x). lia.
  - intros j _. cbn [truncate]. apply bucket_count_healthy. exact Hr.
Qed.

Lemma CountUniqueIPs_healthy file :
  CountUniqueIPs TrimSpace ParseIPv4 (healthy file) =
  Ok (distinct (valid_addresses TrimSpace ParseIPv4 file)).
Proof.
  apply CountUniqueIPs_healthy_range. intros a.
  apply valid_addresses_range, ParseIPv4_u32.
Qed.

End Counting.

(** The partition index and the stored suffix give the address back. *)
Lemma join_address a :
  0 <= a < 2 ^ 32 -> Z.lor (Z.shiftl (top_of a) 24) (suffix_of a) = a.
Proof.
  intros Ha. rewrite top_of_div, suffix_of_mod by exact Ha.
  rewrite <- Z.shiftr_div_pow2 by lia.
  apply Z.bits_inj'. intros n Hn.
  rewrite Z.lor_spec, Z.shiftl_spec, Z.testbit_mod_pow2 by lia.
  destruct (Z.ltb_spec n 24).
  - rewrite (Z.testbit_neg_r _ (n - 24)) by lia. reflexivity.
  - rewrite Z.shiftr_spec by lia. rewrite Bool.orb_false_r. f_equal. lia.
Qed.

Lemma records_PutUint32 v : 0 <= v < 2 ^ 32 -> records (PutUint32 v) = [v].
Proof.
  intros Hv. unfold PutUint32. cbn [records].
  rewrite Uint32_PutUint32 by exact Hv. reflexivity.
Qed.

(** Two addresses with different top bytes are routed apart. *)
Lemma bucket_sufs_apart a b :
  top_of a <> top_of b ->
  bucket_sufs (Z.to_nat (top_of a)) [a; b] = [suffix_of a] /\
  bucket_sufs (Z.to_nat (top_of b)) [a; b] = [suffix_of b].
Proof.
  intros Hne. pose proof (top_of_range a). pose proof (top_of_range b).
  unfold bucket_sufs. rewrite !filter_cons, !filter_nil.
  destruct (decide (Z.to_nat (top_of a) = Z.to_nat (top_of a))); [|congruence].
  destruct (decide (Z.to_nat (top_of b) = Z.to_nat (top_of b))); [|congruence].
  destruct (decide (Z.to_nat (top_of b) = Z.to_nat (top_of a))); [lia|].
  destruct (decide (Z.to_nat (top_of a) = Z.to_nat (top_of b))); [lia|].
  split; reflexivity.
Qed.

(** Two occurrences of an address are routed to the same partition. *)
Lemma bucket_sufs_same a :
  bucket_sufs (Z.to_nat (top_of a)) [a; a] = [suffix_of a; suffix_of a].
Proof.
  unfold bucket_sufs. rewrite !filter_cons, !filter_nil.
  destruct (decide (Z.to_nat (top_of a) = Z.to_nat (top_of a))); [|congruence].
  reflexivity.
Qed.

Lemma distinct_two (a b : Z) : a <> b -> distinct [a; b] = 2.
Proof.
  intros Hne. rewrite distinct_cons_new; [reflexivity|].
  intros H. apply list_elem_of_singleton in H. contradiction.
Qed.

Lemma distinct_twice (a : Z) : distinct [a; a] = 1.
Proof. rewrite distinct_cons_old; [reflexivity|apply list_elem_of_here]. Qed.

End Bucket.

(** ** The concurrent sharded-bitset engine (src/concurrent/concurrent.go)

    The producer is sequential and is a function from what the reader
    returns to the chunks it sends.  The workers and the aggregator run
    concurrently: they are a transition system whose steps are the
    atomic operations of the source (a channel send or receive,
    [once.Do], [atomic.LoadUint32], [atomic.CompareAndSwapUint32]), each
    with the local computation that follows it, interleaved in any
    order. *)

Module Concurrent.

Import Bits Go Lines.

Definition maxIPv4 : Z := Z.shiftl 1 32.
Definition numShards : Z := 16384.
Definition bitsPerShard : Z := (maxIPv4 + numShards - 1) / numShards.
Definition wordsPerShard : Z := (bitsPerShard + 31) / 32.
Definition bytesPerChunk : Z := 2 * 1024 * 1024.

Inductive error : Type :=
| ErrOpen (c : cause)          (* failed to open file *)
| ErrReadError (c : cause).    (* read error *)

Abbreviation result := (Go.result error).

(** A shard: its [words], [None] until [ensure] has run. *)
Abbreviation shard := (option (list Z)).

(** [ensure]: [once.Do] allocates the words the first time. *)
Definition ensure (s : shard) : shard :=
  match s with
  | None => Some (make wordsPerShard)
  | Some ws => Some ws
  end.

(** [New]: the shards of a fresh counter. *)
Definition New : list shard := replicate (Z.to_nat numShards) None.

(** [atomic.LoadUint32] of word [widx] of shard [si]. *)
Definition load (m : list shard) (si widx : nat) : option Z :=
  match m !! si with
  | Some (Some ws) => ws !! widx
  | _ => None
  end.

(** The write of a successful compare-and-swap. *)
Definition store (m : list shard) (si widx : nat) (v : Z) : list shard :=
  match m !! si with
  | Some (Some ws) => <[si := Some (<[widx := v]> ws)]> m
  | _ => m
  end.

(** The bit that stands for address [a] in the shards. *)
Definition mem_bit (m : list shard) (a : Z) : bool :=
  match m !! Z.to_nat (a mod numShards) with
  | Some (Some ws) => bit_at ws (a / numShards)
  | _ => false
  end.

(** The bit at offset [off] of shard [si]. *)
Definition shard_bit (m : list shard) (si : nat) (off : Z) : bool :=
  match m !! si with
  | Some (Some ws) => bit_at ws off
  | _ => false
  end.

(** [setBit(b.shards[si], offset)] (lines 53-69) when no other worker
    writes between its atomic operations: the shards afterwards and the
    result.  The loop then ends in its first round, since the
    compare-and-swap finds the word as it was loaded.  [None] is the
    panic of an index out of range. *)
Definition setBit (m : list shard) (si : nat) (offset : Z)
  : option (list shard * bool) :=
  match m !! si with
  | None => None
  | Some s =>
      match ensure s with
      | None => None
      | Some ws =>
          let wordIdx := Z.to_nat (offset / 32) in
          let bitIdx := offset mod 32 in
          let mask := u32 (Z.shiftl 1 bitIdx) in
          if (wordIdx <? length ws)%nat then
            let m1 := <[si := Some ws]> m in
            match load m1 si wordIdx with
            | None => None
            | Some old =>
                if Z.land old mask =? 0
                then Some (store m1 si wordIdx (Z.lor old mask), true)
                else Some (m1, false)
            end
          else None
      end
  end.

(** *** The producer (lines 115-167) *)

(** What one [reader.Read(buf)] returned besides the bytes. *)
Inductive read_status : Type :=
| RNil
| REOF
| RFail (c : cause).

(** Lines 163-167: the tail with no newline is sent as a last chunk. *)
Definition flush (carry : list byte) : list (list byte) :=
  match carry with
  | [] => []
  | _ => [carry]
  end.

Definition send (chunk : list byte) (r : cause + list (list byte))
  : cause + list (list byte) :=
  match r with
  | inl c => inl c
  | inr chunks => inr (chunk :: chunks)
  end.

(** The chunks sent on [chunkChan], for the successive results
    [(buf[:n], readErr)] of [reader.Read]; a reader with no result left
    is at the end of the file.  [inl c] is the return on a read error. *)
Fixpoint producer (reads : list (list byte * read_status)) (carry : list byte)
  : cause + list (list byte) :=
  match reads with
  | [] => inr (flush carry)
  | (data, readErr) :: rest =>
      match data, readErr with
      | [], REOF => inr (flush carry)
      | [], RFail c => inl c
      | _, _ =>
          match LastIndexByte data newline with
          | None =>
              let carry' := carry ++ data in
              match readErr with
              | REOF => inr (flush carry')
              | _ => producer rest carry'
              end
          | Some cut =>
              let chunk := carry ++ take (cut + 1) data in
              let carry' := drop (cut + 1) data in
              match readErr with
              | REOF => send chunk (inr (flush carry'))
              | _ => send chunk (producer rest carry')
              end
          end
      end
  end.

(** A reader that hands the file over block by block and never fails. *)
Definition blocks_reader (blocks : list (list byte)) : list (list byte * read_status) :=
  (fun b => (b, RNil)) <$> blocks.

(** *** [processChunk] (lines 179-212) *)

(** The lines [processChunk] cuts a chunk into: one per newline, and the
    rest of the chunk when it is not empty.  [cur] is the line scanned so
    far, last byte first. *)
Fixpoint chunk_lines (chunk cur : list byte) : list (list byte) :=
  match chunk with
  | [] =>
      match cur with
      | [] => []
      | _ => [reverse cur]
      end
  | c :: rest =>
      if is_newline c then reverse cur :: chunk_lines rest []
      else chunk_lines rest (c :: cur)
  end.

(** The program point of a worker inside [setBit]: [ptr] is word [widx]
    of shard [si]. *)
Inductive pc : Type :=
| AtLoad (si widx : nat) (mask : Z)
| AtCAS (si widx : nat) (mask old : Z).

(** A worker: waiting for a chunk; in [processChunk] between two lines,
    with the addresses [todo] of the lines still to come and its
    [count]; or in [setBit] for [ip]. *)
Inductive worker : Type :=
| Idle
| Running (todo : list Z) (count : Z)
| InSetBit (ip : Z) (p : pc) (todo : list Z) (count : Z).

Record state : Type := {
  shards : list shard;
  unsent : list (list byte);      (* chunks the producer has still to send *)
  chunkChan : list (list byte);
  workers : list worker;
  resultChan : list Z;
  total : Z;
}.

Inductive actor : Type :=
| Producer
| Worker (i : nat)
| Aggregator.

Inductive outcome : Type :=
| Next (st : state)
| Blocked
| Crash.

Definition set_worker (i : nat) (w : worker) (st : state) : state :=
  {| shards := shards st; unsent := unsent st; chunkChan := chunkChan st;
     workers := <[i := w]> (workers st);
     resultChan := resultChan st; total := total st |}.

Definition set_shards (m : list shard) (st : state) : state :=
  {| shards := m; unsent := unsent st; chunkChan := chunkChan st;
     workers := workers st;
     resultChan := resultChan st; total := total st |}.

(** The capacity of both channels, [numWorkers*2]. *)
Definition capacity (st : state) : nat := (length (workers st) * 2)%nat.

Section Engine.

Variable TrimSpace : list byte -> list byte.
Variable ParseIPv4 : list byte -> option Z.

(** The addresses [processChunk] hands to [setBit], in order. *)
Definition chunk_addrs (chunk : list byte) : list Z :=
  omap (address_of_line TrimSpace ParseIPv4) (chunk_lines chunk []).

(** One atomic step of worker [i], in state [w]. *)
Definition worker_step (i : nat) (w : worker) (st : state) : outcome :=
  match w with
  | Idle =>
      (* for chunk := range chunkChan *)
      match chunkChan st with
      | [] => Blocked
      | chunk :: rest =>
          Next (set_worker i (Running (chunk_addrs chunk) 0)
            {| shards := shards st; unsent := unsent st; chunkChan := rest;
               workers := workers st;
               resultChan := resultChan st; total := total st |})
      end
  | Running [] count =>
      (* resultChan <- processChunk(chunk, b) *)
      if (length (resultChan st) <? capacity st)%nat
      then Next (set_worker i Idle
            {| shards := shards st; unsent := unsent st; chunkChan := chunkChan st;
               workers := workers st;
               resultChan := resultChan st ++ [count]; total := total st |})
      else Blocked
  | Running (ip :: todo) count =>
      (* setBit(b.shards[ip % numShards], ip / numShards), up to [ptr] *)
      let shardIdx := Z.to_nat (ip mod numShards) in
      let offset := ip / numShards in
      match shards st !! shardIdx with
      | None => Crash
      | Some s =>
          let wordIdx := Z.to_nat (offset / 32) in
          let bitIdx := offset mod 32 in
          let mask := u32 (Z.shiftl 1 bitIdx) in
          match ensure s with
          | None => Crash
          | Some ws =>
              if (wordIdx <? length ws)%nat
              then Next (set_worker i (InSetBit ip (AtLoad shardIdx wordIdx mask) todo count)
                         (set_shards (<[shardIdx := Some ws]> (shards st)) st))
              else Crash
          end
      end
  | InSetBit ip (AtLoad si widx mask) todo count =>
      (* old := atomic.LoadUint32(ptr); if old&mask != 0 { return false } *)
      match load (shards st) si widx with
      | None => Crash
      | Some old =>
          if Z.land old mask =? 0
          then Next (set_worker i (InSetBit ip (AtCAS si widx mask old) todo count) st)
          else Next (set_worker i (Running todo count) st)
      end
  | InSetBit ip (AtCAS si widx mask old) todo count =>
      (* if atomic.CompareAndSwapUint32(ptr, old, old|mask) { return true } *)
      match load (shards st) si widx with
      | None => Crash
      | Some cur =>
          if cur =? old
          then Next (set_worker i (Running todo (int64 (count + 1)))
                     (set_shards (store (shards st) si widx (Z.lor old mask)) st))
          else Next (set_worker i (InSetBit ip (AtLoad si widx mask) todo count) st)
      end
  end.

(** One atomic step of an actor. *)
Definition step_at (who : actor) (st : state) : outcome :=
  match who with
  | Producer =>
      (* chunkChan <- chunk *)
      match unsent st with
      | [] => Blocked
      | chunk :: rest =>
          if (length (chunkChan st) <? capacity st)%nat
          then Next {| shards := shards st; unsent := rest;
                       chunkChan := chunkChan st ++ [chunk];
                       workers := workers st;
                       resultChan := resultChan st; total := total st |}
          else Blocked
      end
  | Worker i =>
      match workers st !! i with
      | None => Blocked
      | Some w => worker_step i w st
      end
  | Aggregator =>
      (* for c := range resultChan { total += c } *)
      match resultChan st with
      | [] => Blocked
      | c :: rest =>
          Next {| shards := shards st; unsent := unsent st;
                  chunkChan := chunkChan st; workers := workers st;
                  resultChan := rest; total := int64 (total st + c) |}
      end
  end.

Definition step (st st' : state) : Prop := exists who, step_at who st = Next st'.

Definition crashes (st : state) : Prop := exists who, step_at who st = Crash.

(** The state after the workers and the aggregator were started, on a
    counter with shards [b], [numWorkers] workers and the chunks of the
    producer. *)
Definition init (b : list shard) (numWorkers : nat) (chunks : list (list byte)) : state :=
  {| shards := b; unsent := chunks; chunkChan := [];
     workers := replicate numWorkers Idle; resultChan := []; total := 0 |}.

(** Everything was sent, received, processed and added up: [wg.Wait()]
    and [resultWg.Wait()] return. *)
Definition final (st : state) : Prop :=
  unsent st = [] /\ chunkChan st = [] /\
  Forall (fun w => w = Idle) (workers st) /\ resultChan st = [].

(** [CountUniqueIPs] on a counter with shards [b], with [numWorkers]
    CPUs, when opening the file gives [open_fail] and the reader returns
    [reads]: the results the call can have. *)
Definition CountUniqueIPs (b : list shard) (numWorkers : nat)
    (open_fail : option cause) (reads : list (list byte * read_status))
    (r : result Z) : Prop :=
  match open_fail with
  | Some c => r = Err (ErrOpen c)
  | None =>
      match producer reads [] with
      | inl c => r = Err (ErrReadError c)
      | inr chunks =>
          exists st, rtc step (init b numWorkers chunks) st /\
            ((final st /\ r = Ok (total st)) \/ (crashes st /\ r = Panic))
      end
  end.

End Engine.

(** *** The chunks of the producer *)

Lemma flush_concat carry : concat (flush carry) = carry.
Proof. destruct carry; [reflexivity|]. cbn [flush concat]. apply app_nil_r. Qed.

(** From a carry with no newline, the producer sends chunks that end
    with a newline, and then what follows the last newline. *)
Lemma producer_spec blocks :
  forall carry, newline ∉ carry ->
  exists complete,
    producer (blocks_reader blocks) carry
      = inr (complete ++ flush (tail_line (carry ++ concat blocks))) /\
    concat complete ++ tail_line (carry ++ concat blocks) = carry ++ concat blocks /\
    Forall (fun chunk => last chunk = Some newline) complete.
Proof.
  induction blocks as [|data blocks IH]; intros carry Hc.
  - exists []. simpl. rewrite app_nil_r, tail_line_no_newline by exact Hc.
    auto.
  - assert (Hstep :
      producer (blocks_reader (data :: blocks)) carry =
      match LastIndexByte data newline with
      | None => producer (blocks_reader blocks) (carry ++ data)
      | Some cut => send (carry ++ take (cut + 1) data)
                      (producer (blocks_reader blocks) (drop (cut + 1) data))
      end).
    { destruct data; reflexivity. }
    rewrite Hstep. clear Hstep. cbn [concat].
    destruct (LastIndexByte data newline) as [cut|] eqn:E.
    + apply LastIndexByte_cut in E as [Ht Hd].
      destruct (IH (drop (cut + 1) data) Hd) as (complete & -> & Hcat & Hall).
      assert (Hsplit : carry ++ data ++ concat blocks =
                (carry ++ take cut data) ++ newline :: (drop (cut + 1) data ++ concat blocks)).
      { rewrite <- (take_drop (cut + 1) data) at 1. rewrite Ht.
        rewrite <- !app_assoc. reflexivity. }
      exists ((carry ++ take (cut + 1) data) :: complete).
      rewrite Hsplit, tail_line_app. split; [reflexivity|]. split.
      * cbn [concat]. rewrite <- app_assoc, Hcat, Ht, <- !app_assoc. reflexivity.
      * constructor; [|exact Hall]. rewrite Ht, app_assoc. apply last_snoc.
    + apply LastIndexByte_None_inv in E.
      destruct (IH (carry ++ data)) as (complete & -> & Hcat & Hall).
      { rewrite elem_of_app. tauto. }
      exists complete. rewrite <- !app_assoc in *. auto.
Qed.

Lemma chunk_lines_app x y :
  forall cur, last x = Some newline ->
  chunk_lines (x ++ y) cur = chunk_lines x cur ++ chunk_lines y [].
Proof.
  induction x as [|c x IH]; intros cur Hl; [discriminate|].
  destruct x as [|c' x].
  - simpl in Hl. injection Hl as ->. reflexivity.
  - assert (Hl' : last (c' :: x) = Some newline) by exact Hl.
    change ((c :: c' :: x) ++ y) with (c :: ((c' :: x) ++ y)).
    cbn [chunk_lines]. destruct (is_newline c).
    + rewrite IH by exact Hl'. reflexivity.
    + apply IH, Hl'.
Qed.

Lemma chunk_lines_chunks complete tail :
  Forall (fun chunk => last chunk = Some newline) complete ->
  flat_map (fun chunk => chunk_lines chunk []) (complete ++ flush tail)
  = chunk_lines (concat complete ++ tail) [].
Proof.
  induction 1 as [|chunk complete Hc _ IH].
  - simpl. destruct tail; [reflexivity|]. simpl. apply app_nil_r.
  - cbn [app flat_map concat]. rewrite IH, <- app_assoc.
    symmetry. apply chunk_lines_app, Hc.
Qed.

(** *** The shards as a set of addresses *)

Lemma numShards_val : numShards = 16384.
Proof. reflexivity. Qed.

Lemma wordsPerShard_val : wordsPerShard = 8192.
Proof. reflexivity. Qed.

(** The shards are all there and every allocated one has all its words. *)
Definition wf_mem (m : list shard) : Prop :=
  length m = Z.to_nat numShards /\
  forall si ws, m !! si = Some (Some ws) -> length ws = Z.to_nat wordsPerShard.

Lemma wf_mem_New : wf_mem New.
Proof.
  split; [apply length_replicate|].
  intros si ws H. apply lookup_replicate in H as [H _]. discriminate.
Qed.

Lemma shard_index_range a :
  0 <= a -> (Z.to_nat (a mod numShards) < Z.to_nat numShards)%nat.
Proof.
  intros Ha. rewrite numShards_val.
  pose proof (Z.mod_pos_bound a 16384 ltac:(lia)). lia.
Qed.

Lemma word_index_range a :
  0 <= a < 2 ^ 32 -> 0 <= a / numShards / 32 < wordsPerShard.
Proof.
  intros Ha. rewrite numShards_val, wordsPerShard_val.
  assert (0 <= a / 16384 < 262144).
  { split; [apply Z.div_pos; lia|apply Z.div_lt_upper_bound; lia]. }
  split; [apply Z.div_pos; lia|apply Z.div_lt_upper_bound; lia].
Qed.

Lemma same_address a a' :
  0 <= a -> 0 <= a' ->
  Z.to_nat (a' mod numShards) = Z.to_nat (a mod numShards) ->
  (a' / numShards =? a / numShards) = (a' =? a).
Proof.
  intros Ha Ha' Hm. rewrite numShards_val in *.
  pose proof (Z.mod_pos_bound a 16384 ltac:(lia)).
  pose proof (Z.mod_pos_bound a' 16384 ltac:(lia)).
  pose proof (Z.div_mod a 16384 ltac:(lia)).
  pose proof (Z.div_mod a' 16384 ltac:(lia)).
  destruct (Z.eqb_spec (a' / 16384) (a / 16384)), (Z.eqb_spec a' a);
    try reflexivity; exfalso; [lia|].
  subst. contradiction.
Qed.

Lemma mem_bit_load m a w :
  load m (Z.to_nat (a mod numShards)) (Z.to_nat (a / numShards / 32)) = Some w ->
  mem_bit m a = Z.testbit w (a / numShards mod 32).
Proof.
  unfold load, mem_bit, bit_at.
  destruct (m !! Z.to_nat (a mod numShards)) as [[ws|]|]; try discriminate.
  intros ->. reflexivity.
Qed.

(** A successful compare-and-swap sets the bit of its address and
    changes no other bit. *)
Lemma mem_bit_store m a a' w :
  0 <= a -> 0 <= a' ->
  load m (Z.to_nat (a mod numShards)) (Z.to_nat (a / numShards / 32)) = Some w ->
  mem_bit (store m (Z.to_nat (a mod numShards)) (Z.to_nat (a / numShards / 32))
             (Z.lor w (2 ^ (a / numShards mod 32)))) a'
  = mem_bit m a' || (a' =? a).
Proof.
  intros Ha Ha'. unfold load, store.
  destruct (m !! Z.to_nat (a mod numShards)) as [[ws|]|] eqn:E; try discriminate.
  intros Hw. unfold mem_bit.
  assert (0 <= a / numShards) by (apply Z.div_pos; [lia|reflexivity]).
  assert (0 <= a' / numShards) by (apply Z.div_pos; [lia|reflexivity]).
  destruct (decide (Z.to_nat (a' mod numShards) = Z.to_nat (a mod numShards)))
    as [Es|Es].
  - rewrite Es, list_lookup_insert_eq by (eapply lookup_lt_Some; eauto).
    rewrite E, bit_at_set by assumption.
    rewrite same_address by assumption. reflexivity.
  - rewrite list_lookup_insert_ne by congruence.
    destruct (Z.eqb_spec a' a) as [->|_]; [contradiction|].
    rewrite Bool.orb_false_r. reflexivity.
Qed.

(** [ensure] changes no bit. *)
Lemma mem_bit_ensure m si s ws a :
  m !! si = Some s -> ensure s = Some ws ->
  mem_bit (<[si := Some ws]> m) a = mem_bit m a.
Proof.
  intros Hs He. destruct s as [ws0|]; simpl in He.
  - injection He as ->. rewrite list_insert_id by exact Hs. reflexivity.
  - injection He as <-. unfold mem_bit.
    destruct (decide (Z.to_nat (a mod numShards) = si)) as [<-|Hne].
    + rewrite list_lookup_insert_eq by (eapply lookup_lt_Some; eauto).
      rewrite Hs. apply bit_at_make.
    + rewrite list_lookup_insert_ne by congruence. reflexivity.
Qed.

Lemma load_ensure m si s ws sj wj v :
  m !! si = Some s -> ensure s = Some ws ->
  load m sj wj = Some v -> load (<[si := Some ws]> m) sj wj = Some v.
Proof.
  intros Hs He. destruct s as [ws0|]; simpl in He.
  - injection He as ->. rewrite list_insert_id by exact Hs. auto.
  - unfold load. destruct (decide (sj = si)) as [->|Hne].
    + rewrite Hs. discriminate.
    + rewrite list_lookup_insert_ne by congruence. auto.
Qed.

Lemma load_store m si widx v w :
  load m si widx = Some w -> load (store m si widx v) si widx = Some v.
Proof.
  unfold load, store. destruct (m !! si) as [[ws|]|] eqn:E; try discriminate.
  intros Hw. rewrite list_lookup_insert_eq by (eapply lookup_lt_Some; eauto).
  apply list_lookup_insert_eq. eapply lookup_lt_Some; eauto.
Qed.

Lemma load_store_is_Some m si widx v sj wj :
  is_Some (load m sj wj) -> is_Some (load (store m si widx v) sj wj).
Proof.
  unfold load, store. destruct (m !! si) as [[ws|]|] eqn:E; auto.
  destruct (decide (sj = si)) as [->|Hne].
  - rewrite E, list_lookup_insert_eq by (eapply lookup_lt_Some; eauto).
    intros [x Hx]. destruct (decide (wj = widx)) as [->|Hw].
    + rewrite list_lookup_insert_eq by (eapply lookup_lt_Some; eauto). eauto.
    + rewrite list_lookup_insert_ne by congruence. eauto.
  - rewrite list_lookup_insert_ne by congruence. auto.
Qed.

Lemma wf_mem_ensure m si s ws :
  wf_mem m -> m !! si = Some s -> ensure s = Some ws ->
  wf_mem (<[si := Some ws]> m).
Proof.
  intros [Hl Hw] Hs He. split; [rewrite length_insert; exact Hl|].
  intros sj ws' Hj. destruct (decide (sj = si)) as [->|Hne].
  - rewrite list_lookup_insert_eq in Hj by (eapply lookup_lt_Some; eauto).
    injection Hj as <-. destruct s as [ws0|]; simpl in He; injection He as <-.
    + eapply Hw, Hs.
    + apply length_make.
  - rewrite list_lookup_insert_ne in Hj by congruence. eapply Hw, Hj.
Qed.

Lemma wf_mem_store m si widx v : wf_mem m -> wf_mem (store m si widx v).
Proof.
  intros [Hl Hw]. unfold store.
  destruct (m !! si) as [[ws|]|] eqn:E; try (split; assumption).
  split; [rewrite length_insert; exact Hl|].
  intros sj ws' Hj. destruct (decide (sj = si)) as [->|Hne].
  - rewrite list_lookup_insert_eq in Hj by (eapply lookup_lt_Some; eauto).
    injection Hj as <-. rewrite length_insert. eapply Hw, E.
  - rewrite list_lookup_insert_ne in Hj by congruence. eapply Hw, Hj.
Qed.

(** Line 58: with every word there, [ptr] is within the array. *)
Lemma ensure_in_bounds m a s :
  wf_mem m -> 0 <= a < 2 ^ 32 ->
  m !! Z.to_nat (a mod numShards) = Some s ->
  exists ws, ensure s = Some ws /\
    (Z.to_nat (a / numShards / 32) < length ws)%nat.
Proof.
  intros [Hl Hw] Ha Hs. pose proof (word_index_range a Ha) as Hr.
  destruct s as [ws|]; simpl.
  - exists ws. split; [reflexivity|]. rewrite (Hw _ _ Hs). lia.
  - eexists. split; [reflexivity|]. rewrite length_make. lia.
Qed.

(** *** [setBit] on its own *)

Lemma mem_bit_shard_bit m a :
  mem_bit m a = shard_bit m (Z.to_nat (a mod numShards)) (a / numShards).
Proof. reflexivity. Qed.

Lemma shard_bit_ensure m si s ws sj off :
  m !! si = Some s -> ensure s = Some ws ->
  shard_bit (<[si := Some ws]> m) sj off = shard_bit m sj off.
Proof.
  intros Hs He. destruct s as [ws0|]; simpl in He.
  - injection He as ->. rewrite list_insert_id by exact Hs. reflexivity.
  - injection He as <-. unfold shard_bit.
    destruct (decide (sj = si)) as [->|Hne].
    + rewrite list_lookup_insert_eq by (eapply lookup_lt_Some; eauto).
      rewrite Hs. apply bit_at_make.
    + rewrite list_lookup_insert_ne by congruence. reflexivity.
Qed.

Lemma shard_bit_load m si off w :
  load m si (Z.to_nat (off / 32)) = Some w ->
  shard_bit m si off = Z.testbit w (off mod 32).
Proof.
  unfold load, shard_bit, bit_at.
  destruct (m !! si) as [[ws|]|]; try discriminate.
  intros ->. reflexivity.
Qed.

(** The write of a compare-and-swap that sets the bit of [off]. *)
Lemma shard_bit_store m si off w sj off' :
  0 <= off -> 0 <= off' ->
  load m si (Z.to_nat (off / 32)) = Some w ->
  shard_bit (store m si (Z.to_nat (off / 32)) (Z.lor w (2 ^ (off mod 32)))) sj off'
  = shard_bit m sj off' || (bool_decide (sj = si) && (off' =? off)).
Proof.
  intros Ho Ho'. unfold load, store.
  destruct (m !! si) as [[ws|]|] eqn:E; try discriminate.
  intros Hw. unfold shard_bit.
  destruct (decide (sj = si)) as [->|Hne].
  - rewrite list_lookup_insert_eq by (eapply lookup_lt_Some; eauto).
    rewrite E, bit_at_set by assumption.
    rewrite bool_decide_eq_true_2 by reflexivity. reflexivity.
  - rewrite list_lookup_insert_ne by congruence.
    rewrite bool_decide_eq_false_2 by exact Hne.
    rewrite Bool.orb_false_r. reflexivity.
Qed.

(** Whatever word a compare-and-swap of [setBit] writes, it clears no
    bit. *)
Lemma shard_bit_store_mono m si widx old mask sj off :
  load m si widx = Some old ->
  shard_bit m sj off = true ->
  shard_bit (store m si widx (Z.lor old mask)) sj off = true.
Proof.
  unfold load, store.
  destruct (m !! si) as [[ws|]|] eqn:E; try discriminate.
  intros Hw. unfold shard_bit.
  destruct (decide (sj = si)) as [->|Hne].
  - rewrite list_lookup_insert_eq by (eapply lookup_lt_Some; eauto).
    rewrite E. unfold bit_at.
    destruct (decide (Z.to_nat (off / 32) = widx)) as [<-|Hw'].
    + rewrite list_lookup_insert_eq by (eapply lookup_lt_Some; eauto).
      rewrite Hw, Z.lor_spec. intros ->. reflexivity.
    + rewrite list_lookup_insert_ne by congruence. auto.
  - rewrite list_lookup_insert_ne by congruence. auto.
Qed.

(** [setBit] on a shard and an offset within it: it returns whether the
    bit was clear, the bit is set afterwards, and no other bit of any
    shard has changed. *)
Lemma setBit_spec m si off :
  wf_mem m -> (si < Z.to_nat numShards)%nat ->
  0 <= off < 32 * wordsPerShard ->
  exists m',
    setBit m si off = Some (m', negb (shard_bit m si off)) /\
    wf_mem m' /\
    shard_bit m' si off = true /\
    (forall sj off', 0 <= off' -> sj <> si \/ off' <> off ->
       shard_bit m' sj off' = shard_bit m sj off').
Proof.
  intros Hwf Hsi Hoff. unfold setBit.
  destruct (m !! si) as [s|] eqn:Es.
  2:{ apply lookup_ge_None in Es. destruct Hwf as [Hl _]. lia. }
  assert (He : exists ws, ensure s = Some ws /\ length ws = Z.to_nat wordsPerShard).
  { destruct s as [ws|]; simpl.
    - exists ws. split; [reflexivity|]. eapply Hwf, Es.
    - eexists. split; [reflexivity|]. apply length_make. }
  destruct He as (ws & He & Hlen). rewrite He.
  assert (Hd : 0 <= off / 32 < wordsPerShard).
  { split; [apply Z.div_pos; lia|apply Z.div_lt_upper_bound; lia]. }
  destruct (Nat.ltb_spec (Z.to_nat (off / 32)) (length ws)); [|lia].
  pose proof (Z.mod_pos_bound off 32 ltac:(lia)) as Hm.
  rewrite mask_u32 by lia.
  set (m1 := <[si := Some ws]> m).
  assert (Hm1 : forall sj off', shard_bit m1 sj off' = shard_bit m sj off').
  { intros sj off'. eapply shard_bit_ensure; eauto. }
  destruct (load m1 si (Z.to_nat (off / 32))) as [old|] eqn:El.
  2:{ exfalso. unfold load, m1 in El.
      rewrite list_lookup_insert_eq in El by (eapply lookup_lt_Some; eauto).
      apply lookup_ge_None in El. lia. }
  pose proof (shard_bit_load _ _ _ _ El) as Hbit. rewrite Hm1 in Hbit.
  rewrite land_pow2_eqb, <- Hbit by lia.
  destruct (shard_bit m si off) eqn:Eb; cbn [negb].
  - exists m1. split; [reflexivity|]. split; [|split].
    + eapply wf_mem_ensure; eauto.
    + rewrite Hm1. exact Eb.
    + intros sj off' _ _. apply Hm1.
  - eexists. split; [reflexivity|]. split; [|split].
    + apply wf_mem_store. eapply wf_mem_ensure; eauto.
    + rewrite shard_bit_store by (try exact El; lia).
      rewrite bool_decide_eq_true_2, Z.eqb_refl by reflexivity.
      apply Bool.orb_true_r.
    + intros sj off' Ho' Hne. rewrite shard_bit_store by (try exact El; lia).
      rewrite Hm1. destruct Hne as [Hne|Hne].
      * rewrite bool_decide_eq_false_2 by exact Hne.
        apply Bool.orb_false_r.
      * destruct (Z.eqb_spec off' off); [contradiction|].
        rewrite Bool.andb_false_r. apply Bool.orb_false_r.
Qed.

(** *** What every reachable state satisfies *)

Definition sumZ (l : list Z) : Z := foldr Z.add 0 l.

(** The count a worker holds. *)
Definition wcount (w : worker) : Z :=
  match w with
  | Idle => 0
  | Running _ count => count
  | InSetBit _ _ _ count => count
  end.

(** The addresses a worker has still to hand to [setBit], or is in
    [setBit] for. *)
Definition wtodo (w : worker) : list Z :=
  match w with
  | Idle => []
  | Running todo _ => todo
  | InSetBit ip _ todo _ => ip :: todo
  end.

(** A worker in [setBit] for [ip] points to the word of [ip], which is
    allocated; at the compare-and-swap, the bit was clear in [old]. *)
Definition pc_ok (m : list shard) (ip : Z) (p : pc) : Prop :=
  match p with
  | AtLoad si widx mask =>
      si = Z.to_nat (ip mod numShards) /\
      widx = Z.to_nat (ip / numShards / 32) /\
      mask = 2 ^ (ip / numShards mod 32) /\
      is_Some (load m si widx)
  | AtCAS si widx mask old =>
      si = Z.to_nat (ip mod numShards) /\
      widx = Z.to_nat (ip / numShards / 32) /\
      mask = 2 ^ (ip / numShards mod 32) /\
      is_Some (load m si widx) /\
      Z.testbit old (ip / numShards mod 32) = false
  end.

Definition worker_ok (m : list shard) (w : worker) : Prop :=
  match w with
  | InSetBit ip p _ _ => pc_ok m ip p
  | _ => True
  end.

(** The addresses are covered after a step of one worker if they were
    before, and what the step touches covers the same. *)
Lemma cover_frame (A D C T D' C' T' L1 L2 : Prop) :
  (A <-> D \/ C \/ L1 \/ T \/ L2) ->
  (D' \/ C' \/ T' <-> D \/ C \/ T) ->
  (A <-> D' \/ C' \/ L1 \/ T' \/ L2).
Proof. tauto. Qed.

Lemma elem_of_wtodo_middle a l1 w l2 :
  a ∈ flat_map wtodo (l1 ++ w :: l2) <->
  a ∈ flat_map wtodo l1 \/ a ∈ wtodo w \/ a ∈ flat_map wtodo l2.
Proof.
  rewrite flat_map_app. cbn [flat_map]. rewrite !elem_of_app. reflexivity.
Qed.

Lemma sumZ_cons x l : sumZ (x :: l) = x + sumZ l.
Proof. reflexivity. Qed.

Lemma sumZ_app l1 l2 : sumZ (l1 ++ l2) = sumZ l1 + sumZ l2.
Proof. induction l1 as [|x l1 IH]; simpl; [|rewrite IH]; lia. Qed.

Lemma sumZ_nonneg l : Forall (fun c => 0 <= c) l -> 0 <= sumZ l.
Proof. induction 1; simpl; lia. Qed.

Lemma elem_of_flat_map {A B} (f : A -> list B) (l : list A) (x : B) :
  x ∈ flat_map f l <-> exists y, y ∈ l /\ x ∈ f y.
Proof.
  rewrite list_elem_of_In, in_flat_map. split; intros (y & H1 & H2); exists y.
  - rewrite !list_elem_of_In. auto.
  - rewrite !list_elem_of_In in *. auto.
Qed.

Lemma list_split_insert {A} (l : list A) i x :
  l !! i = Some x ->
  exists l1 l2, l = l1 ++ x :: l2 /\ forall y, <[i := y]> l = l1 ++ y :: l2.
Proof.
  intros H. exists (take i l), (drop (S i) l). split.
  - symmetry. apply take_drop_middle, H.
  - intros y. apply insert_take_drop. eapply lookup_lt_Some, H.
Qed.

Lemma pc_ok_mono m m' ip p :
  (forall si widx, is_Some (load m si widx) -> is_Some (load m' si widx)) ->
  pc_ok m ip p -> pc_ok m' ip p.
Proof.
  intros Hm. destruct p; simpl; intuition auto.
Qed.

Lemma worker_ok_mono m m' ws :
  (forall si widx, is_Some (load m si widx) -> is_Some (load m' si widx)) ->
  Forall (worker_ok m) ws -> Forall (worker_ok m') ws.
Proof.
  intros Hm H. eapply Forall_impl; [exact H|].
  intros [| |ip p todo count]; simpl; auto.
  apply pc_ok_mono, Hm.
Qed.

Section Facts.

Variable TrimSpace : list byte -> list byte.
Variable ParseIPv4 : list byte -> option Z.

(** The addresses not yet through [setBit]. *)
Definition pending (st : state) : list Z :=
  flat_map (chunk_addrs TrimSpace ParseIPv4) (unsent st ++ chunkChan st)
  ++ flat_map wtodo (workers st).

(** The invariant of a run over the addresses [all], with [done] the
    addresses whose bit a compare-and-swap has set so far. *)
Record inv (all done : list Z) (st : state) : Prop := {
  inv_mem : wf_mem (shards st);
  inv_bits : forall a, 0 <= a < 2 ^ 32 -> mem_bit (shards st) a = true <-> a ∈ done;
  inv_nodup : NoDup done;
  inv_range : forall a, a ∈ done -> 0 <= a < 2 ^ 32;
  inv_counts :
    total st + sumZ (resultChan st) + sumZ (wcount <$> workers st)
    = Z.of_nat (length done);
  inv_total : 0 <= total st;
  inv_results : Forall (fun c => 0 <= c) (resultChan st);
  inv_wcounts : Forall (fun w => 0 <= wcount w) (workers st);
  inv_cover : forall a, a ∈ all <-> a ∈ done \/ a ∈ pending st;
  inv_workers : Forall (worker_ok (shards st)) (workers st);
}.

Lemma done_bound all done st : inv all done st -> Z.of_nat (length done) <= 2 ^ 32.
Proof.
  intros I. rewrite <- distinct_NoDup by apply I.
  apply distinct_bound; [lia|apply I].
Qed.

(** A step of worker [i], from [w] to [w'], that may change the shards,
    a channel and the addresses done. *)
Lemma inv_update all done done' st i w w' m' cc' rc' :
  inv all done st -> workers st !! i = Some w ->
  wf_mem m' ->
  (forall si widx, is_Some (load (shards st) si widx) -> is_Some (load m' si widx)) ->
  (forall a, 0 <= a < 2 ^ 32 -> mem_bit m' a = true <-> a ∈ done') ->
  NoDup done' ->
  (forall a, a ∈ done' -> 0 <= a < 2 ^ 32) ->
  sumZ rc' + wcount w' - Z.of_nat (length done')
    = sumZ (resultChan st) + wcount w - Z.of_nat (length done) ->
  Forall (fun c => 0 <= c) rc' ->
  0 <= wcount w' ->
  (forall a,
     a ∈ done' \/
       a ∈ flat_map (chunk_addrs TrimSpace ParseIPv4) (unsent st ++ cc') \/
       a ∈ wtodo w'
     <->
     a ∈ done \/
       a ∈ flat_map (chunk_addrs TrimSpace ParseIPv4) (unsent st ++ chunkChan st) \/
       a ∈ wtodo w) ->
  worker_ok m' w' ->
  inv all done'
    {| shards := m'; unsent := unsent st; chunkChan := cc';
       workers := <[i := w']> (workers st); resultChan := rc';
       total := total st |}.
Proof.
  intros I Hw Hwf Hmono Hbits Hnd Hrange Hcnt Hrc Hwc Hcov Hok.
  destruct (list_split_insert _ _ _ Hw) as (l1 & l2 & Hl & Hins).
  pose proof (inv_counts _ _ _ I) as Hc.
  pose proof (inv_wcounts _ _ _ I) as Hn.
  pose proof (inv_workers _ _ _ I) as Hk.
  pose proof (inv_cover _ _ _ I) as Hv.
  unfold pending in Hv. rewrite Hl in Hc, Hn, Hk, Hv.
  rewrite fmap_app, fmap_cons, sumZ_app in Hc. cbn [sumZ foldr] in Hc.
  apply Forall_app in Hn as [Hn1 Hn2]. apply Forall_cons in Hn2 as [_ Hn2].
  apply Forall_app in Hk as [Hk1 Hk2]. apply Forall_cons in Hk2 as [_ Hk2].
  split; cbn [shards unsent chunkChan workers resultChan total];
    rewrite ?Hins.
  - exact Hwf.
  - exact Hbits.
  - exact Hnd.
  - exact Hrange.
  - rewrite fmap_app, fmap_cons, sumZ_app. cbn [sumZ foldr].
    fold (sumZ (wcount <$> l2)) in *. lia.
  - apply (inv_total _ _ _ I).
  - exact Hrc.
  - apply Forall_app. split; [exact Hn1|]. apply Forall_cons. auto.
  - intros a. unfold pending. cbn [unsent chunkChan workers].
    specialize (Hv a). specialize (Hcov a).
    rewrite elem_of_app, elem_of_wtodo_middle in Hv.
    rewrite elem_of_app, elem_of_wtodo_middle.
    exact (cover_frame _ _ _ _ _ _ _ _ _ Hv Hcov).
  - apply Forall_app. split; [eapply worker_ok_mono; eauto|].
    apply Forall_cons. split; [exact Hok|eapply worker_ok_mono; eauto].
Qed.

Lemma wtodo_all all done st i w a :
  inv all done st -> workers st !! i = Some w -> a ∈ wtodo w -> a ∈ all.
Proof.
  intros I Hw Ha. apply (inv_cover _ _ _ I). right. unfold pending.
  apply elem_of_app. right. apply elem_of_flat_map. exists w.
  split; [eapply list_elem_of_lookup_2, Hw|exact Ha].
Qed.

Lemma wcount_nonneg all done st i w :
  inv all done st -> workers st !! i = Some w -> 0 <= wcount w.
Proof.
  intros I Hw. pose proof (inv_wcounts _ _ _ I) as H.
  rewrite Forall_lookup in H. eapply H, Hw.
Qed.

Lemma wcount_bound all done st i w :
  inv all done st -> workers st !! i = Some w ->
  wcount w <= Z.of_nat (length done).
Proof.
  intros I Hw. destruct (list_split_insert _ _ _ Hw) as (l1 & l2 & Hl & _).
  pose proof (inv_counts _ _ _ I) as Hc.
  pose proof (inv_wcounts _ _ _ I) as Hn.
  rewrite Hl in Hc, Hn. rewrite fmap_app, fmap_cons, sumZ_app in Hc.
  cbn [sumZ foldr] in Hc. fold (sumZ (wcount <$> l2)) in Hc.
  apply Forall_app in Hn as [Hn1 Hn2]. apply Forall_cons in Hn2 as [_ Hn2].
  pose proof (sumZ_nonneg (wcount <$> l1)) as H1.
  pose proof (sumZ_nonneg (wcount <$> l2)) as H2.
  rewrite Forall_fmap in H1, H2.
  pose proof (inv_total _ _ _ I).
  pose proof (sumZ_nonneg _ (inv_results _ _ _ I)).
  specialize (H1 Hn1). specialize (H2 Hn2). lia.
Qed.

Lemma worker_pc_ok all done st i ip p todo count :
  inv all done st -> workers st !! i = Some (InSetBit ip p todo count) ->
  pc_ok (shards st) ip p.
Proof.
  intros I Hw. pose proof (inv_workers _ _ _ I) as H.
  rewrite Forall_lookup in H. exact (H _ _ Hw).
Qed.

Section Step.

Variable all : list Z.
Hypothesis all_u32 : forall a, a ∈ all -> 0 <= a < 2 ^ 32.

(** A step of worker [i] that changes neither the shards nor the
    addresses done. *)
Lemma inv_local done st i w w' cc' rc' :
  inv all done st -> workers st !! i = Some w ->
  sumZ rc' + wcount w' = sumZ (resultChan st) + wcount w ->
  Forall (fun c => 0 <= c) rc' ->
  0 <= wcount w' ->
  (forall a,
     a ∈ done \/
       a ∈ flat_map (chunk_addrs TrimSpace ParseIPv4) (unsent st ++ cc') \/
       a ∈ wtodo w'
     <->
     a ∈ done \/
       a ∈ flat_map (chunk_addrs TrimSpace ParseIPv4) (unsent st ++ chunkChan st) \/
       a ∈ wtodo w) ->
  worker_ok (shards st) w' ->
  inv all done
    {| shards := shards st; unsent := unsent st; chunkChan := cc';
       workers := <[i := w']> (workers st); resultChan := rc';
       total := total st |}.
Proof.
  intros I Hw Hcnt Hrc Hwc Hcov Hok.
  apply (inv_update all done done st i w w' (shards st) cc' rc' I Hw).
  - exact (inv_mem _ _ _ I).
  - auto.
  - exact (inv_bits _ _ _ I).
  - exact (inv_nodup _ _ _ I).
  - exact (inv_range _ _ _ I).
  - lia.
  - exact Hrc.
  - exact Hwc.
  - exact Hcov.
  - exact Hok.
Qed.

Lemma or_absorb (D C T X : Prop) :
  (X -> D) -> (D \/ C \/ T <-> D \/ C \/ (X \/ T)).
Proof. tauto. Qed.

Lemma or_move (D C T X : Prop) :
  ((X \/ D) \/ C \/ T <-> D \/ C \/ (X \/ T)).
Proof. tauto. Qed.

(** Every step of a worker keeps the invariant. *)
Lemma inv_worker_step done st i w st' :
  inv all done st -> workers st !! i = Some w ->
  worker_step TrimSpace ParseIPv4 i w st = Next st' ->
  exists done', inv all done' st'.
Proof.
  intros I Hw Hstep.
  pose proof (wcount_nonneg _ _ _ _ _ I Hw) as Hc0.
  pose proof (wcount_bound _ _ _ _ _ I Hw) as Hcb.
  pose proof (done_bound _ _ _ I) as Hdb.
  destruct w as [|[|ip todo] count|ip [si widx mask|si widx mask old] todo count];
    cbn [worker_step wcount] in *.
  - (* a chunk is received *)
    destruct (chunkChan st) as [|chunk rest] eqn:Ecc; [discriminate|].
    injection Hstep as <-. exists done.
    apply (inv_local done st i Idle _ rest (resultChan st) I Hw).
    + reflexivity.
    + exact (inv_results _ _ _ I).
    + cbn [wcount]. lia.
    + intros a. rewrite Ecc, !flat_map_app. cbn [flat_map wtodo].
      rewrite !elem_of_app, elem_of_nil. clear. tauto.
    + exact Logic.I.
  - (* the count of a chunk is sent *)
    destruct (length (resultChan st) <? capacity st)%nat; [|discriminate].
    injection Hstep as <-. exists done.
    apply (inv_local done st i (Running [] count) _ (chunkChan st)
             (resultChan st ++ [count]) I Hw).
    + rewrite sumZ_app. cbn [sumZ foldr wcount]. lia.
    + apply Forall_app. split; [exact (inv_results _ _ _ I)|].
      apply Forall_singleton. exact Hc0.
    + cbn [wcount]. lia.
    + intros a. cbn [wtodo]. reflexivity.
    + exact Logic.I.
  - (* setBit is entered: ensure, and the pointer to the word *)
    assert (Hip : 0 <= ip < 2 ^ 32).
    { apply all_u32. eapply wtodo_all; eauto. apply list_elem_of_here. }
    destruct (shards st !! Z.to_nat (ip mod numShards)) as [s|] eqn:Es;
      [|discriminate].
    destruct (ensure_in_bounds _ _ _ (inv_mem _ _ _ I) Hip Es) as (ws & He & Hlt).
    rewrite He in Hstep.
    destruct (Nat.ltb_spec (Z.to_nat (ip / numShards / 32)) (length ws));
      [|lia].
    injection Hstep as <-. exists done.
    apply (inv_update all done done st i (Running (ip :: todo) count) _
             (<[Z.to_nat (ip mod numShards) := Some ws]> (shards st))
             (chunkChan st) (resultChan st) I Hw).
    + eapply wf_mem_ensure; eauto. exact (inv_mem _ _ _ I).
    + intros sj wj [v Hv]. exists v. eapply load_ensure; eauto.
    + intros a Ha. rewrite (mem_bit_ensure _ _ s ws) by assumption.
      apply (inv_bits _ _ _ I), Ha.
    + exact (inv_nodup _ _ _ I).
    + exact (inv_range _ _ _ I).
    + reflexivity.
    + exact (inv_results _ _ _ I).
    + exact Hc0.
    + intros a. reflexivity.
    + cbn [worker_ok pc_ok]. repeat split.
      * apply mask_u32. apply Z.mod_pos_bound. lia.
      * unfold load.
        rewrite list_lookup_insert_eq by (eapply lookup_lt_Some; eauto).
        apply lookup_lt_is_Some. lia.
  - (* the word is loaded *)
    pose proof (worker_pc_ok _ _ _ _ _ _ _ _ I Hw) as (-> & -> & -> & Hsome).
    assert (Hip : 0 <= ip < 2 ^ 32).
    { apply all_u32. eapply wtodo_all; eauto. apply list_elem_of_here. }
    destruct (load (shards st) _ _) as [old|] eqn:El; [|discriminate].
    pose proof (mem_bit_load _ _ _ El) as Hbit.
    assert (Hb : 0 <= ip / numShards mod 32) by (apply Z.mod_pos_bound; lia).
    rewrite land_pow2_eqb in Hstep by exact Hb.
    destruct (Z.testbit old (ip / numShards mod 32)) eqn:Et;
      cbn [negb] in Hstep; injection Hstep as <-; exists done.
    + (* the bit is set: setBit returns false *)
      assert (Hin : ip ∈ done) by (apply (inv_bits _ _ _ I); [exact Hip|congruence]).
      apply (inv_local done st i _ (Running todo count)
               (chunkChan st) (resultChan st) I Hw).
      * reflexivity.
      * exact (inv_results _ _ _ I).
      * exact Hc0.
      * intros a. cbn [wtodo]. rewrite elem_of_cons.
        apply or_absorb. intros ->. exact Hin.
      * exact Logic.I.
    + (* the bit is clear: on to the compare-and-swap *)
      apply (inv_local done st i _ (InSetBit ip (AtCAS _ _ _ old) todo count)
               (chunkChan st) (resultChan st) I Hw).
      * reflexivity.
      * exact (inv_results _ _ _ I).
      * exact Hc0.
      * intros a. reflexivity.
      * cbn [worker_ok pc_ok]. rewrite El. repeat split; eauto.
  - (* the compare-and-swap *)
    pose proof (worker_pc_ok _ _ _ _ _ _ _ _ I Hw) as (-> & -> & -> & Hsome & Hold).
    assert (Hip : 0 <= ip < 2 ^ 32).
    { apply all_u32. eapply wtodo_all; eauto. apply list_elem_of_here. }
    destruct (load (shards st) _ _) as [cur|] eqn:El; [|discriminate].
    destruct (Z.eqb_spec cur old) as [->|Hne]; injection Hstep as <-.
    + (* it succeeds: the bit is set, setBit returns true *)
      pose proof (mem_bit_load _ _ _ El) as Hbit.
      assert (Hnin : ip ∉ done).
      { intros Hin. apply (inv_bits _ _ _ I) in Hin; [congruence|exact Hip]. }
      exists (ip :: done).
      apply (inv_update all done (ip :: done) st i _ (Running todo (int64 (count + 1)))
               (store (shards st) (Z.to_nat (ip mod numShards))
                  (Z.to_nat (ip / numShards / 32))
                  (Z.lor old (2 ^ (ip / numShards mod 32))))
               (chunkChan st) (resultChan st) I Hw);
        cbn [wcount length]; rewrite ?int64_small by lia.
      * apply wf_mem_store. exact (inv_mem _ _ _ I).
      * intros sj wj. apply load_store_is_Some.
      * intros a Ha. rewrite mem_bit_store by (try exact El; lia).
        rewrite elem_of_cons, <- (inv_bits _ _ _ I) by exact Ha.
        destruct (Z.eqb_spec a ip) as [->|Hne].
        -- rewrite Bool.orb_true_r. clear. tauto.
        -- rewrite Bool.orb_false_r. clear -Hne. tauto.
      * apply NoDup_cons. split; [exact Hnin|exact (inv_nodup _ _ _ I)].
      * intros a Ha. apply elem_of_cons in Ha as [->|Ha]; [exact Hip|].
        exact (inv_range _ _ _ I a Ha).
      * lia.
      * exact (inv_results _ _ _ I).
      * lia.
      * intros a. cbn [wtodo]. rewrite !elem_of_cons. apply or_move.
      * exact Logic.I.
    + (* it fails: back to the load *)
      exists done.
      apply (inv_local done st i _ (InSetBit ip (AtLoad _ _ _) todo count)
               (chunkChan st) (resultChan st) I Hw).
      * reflexivity.
      * exact (inv_results _ _ _ I).
      * exact Hc0.
      * intros a. reflexivity.
      * cbn [worker_ok pc_ok]. auto.
Qed.

End Step.


Section Run.

Variable all : list Z.
Hypothesis all_u32 : forall a, a ∈ all -> 0 <= a < 2 ^ 32.

Lemma or_shift (D U X C W : Prop) :
  (D \/ (U \/ C \/ X \/ False) \/ W) <-> (D \/ ((X \/ U) \/ C) \/ W).
Proof. tauto. Qed.

(** Every step keeps the invariant. *)
Lemma inv_step done st st' :
  inv all done st -> step TrimSpace ParseIPv4 st st' ->
  exists done', inv all done' st'.
Proof.
  intros I [[|i|] Hstep]; cbn [step_at] in Hstep.
  - (* the producer sends a chunk *)
    destruct (unsent st) as [|chunk rest] eqn:Eu; [discriminate|].
    destruct (length (chunkChan st) <? capacity st)%nat; [|discriminate].
    injection Hstep as <-. exists done.
    split; cbn [shards unsent chunkChan workers resultChan total].
    + exact (inv_mem _ _ _ I).
    + exact (inv_bits _ _ _ I).
    + exact (inv_nodup _ _ _ I).
    + exact (inv_range _ _ _ I).
    + exact (inv_counts _ _ _ I).
    + exact (inv_total _ _ _ I).
    + exact (inv_results _ _ _ I).
    + exact (inv_wcounts _ _ _ I).
    + intros a. rewrite (inv_cover _ _ _ I a). unfold pending.
      cbn [unsent chunkChan workers]. rewrite Eu.
      rewrite !flat_map_app. cbn [flat_map].
      rewrite !elem_of_app, elem_of_nil. symmetry. apply or_shift.
    + exact (inv_workers _ _ _ I).
  - destruct (workers st !! i) as [w|] eqn:Hw; [|discriminate].
    eapply inv_worker_step; eauto.
  - (* the aggregator adds a count *)
    destruct (resultChan st) as [|c rest] eqn:Er; [discriminate|].
    injection Hstep as <-. exists done.
    pose proof (inv_counts _ _ _ I) as Hc.
    pose proof (inv_results _ _ _ I) as Hr.
    pose proof (inv_total _ _ _ I) as Ht.
    pose proof (done_bound _ _ _ I) as Hdb.
    rewrite Er in Hc, Hr. cbn [sumZ foldr] in Hc. fold (sumZ rest) in Hc.
    apply Forall_cons in Hr as [Hc0 Hr].
    pose proof (sumZ_nonneg _ Hr) as Hrn.
    pose proof (sumZ_nonneg (wcount <$> workers st)) as Hwn.
    rewrite Forall_fmap in Hwn. specialize (Hwn (inv_wcounts _ _ _ I)).
    split; cbn [shards unsent chunkChan workers resultChan total];
      rewrite ?int64_small by lia.
    + exact (inv_mem _ _ _ I).
    + exact (inv_bits _ _ _ I).
    + exact (inv_nodup _ _ _ I).
    + exact (inv_range _ _ _ I).
    + lia.
    + lia.
    + exact Hr.
    + exact (inv_wcounts _ _ _ I).
    + exact (inv_cover _ _ _ I).
    + exact (inv_workers _ _ _ I).
Qed.

Lemma inv_steps done st st' :
  inv all done st -> rtc (step TrimSpace ParseIPv4) st st' ->
  exists done', inv all done' st'.
Proof.
  intros I Hsteps. revert done I.
  induction Hsteps as [st|st st1 st2 H1 _ IH]; intros done I; [eauto|].
  destruct (inv_step _ _ _ I H1) as [done1 I1]. eapply IH, I1.
Qed.

End Run.

Lemma wtodo_all_Idle ws :
  Forall (fun w => w = Idle) ws -> flat_map wtodo ws = [].
Proof. induction 1 as [|w ws -> _ IH]; [reflexivity|]. simpl. exact IH. Qed.

Lemma wcount_all_Idle ws :
  Forall (fun w => w = Idle) ws -> sumZ (wcount <$> ws) = 0.
Proof.
  induction 1 as [|w ws -> _ IH]; [reflexivity|].
  rewrite fmap_cons. cbn [sumZ foldr wcount]. fold (sumZ (wcount <$> ws)).
  rewrite IH. reflexivity.
Qed.

Lemma mem_bit_New a : mem_bit New a = false.
Proof.
  unfold mem_bit, New.
  destruct (replicate _ _ !! _) as [s|] eqn:E; [|reflexivity].
  apply lookup_replicate in E as [-> _]. reflexivity.
Qed.

(** The invariant holds when the workers are started on a fresh counter. *)
Lemma inv_init numWorkers chunks :
  inv (flat_map (chunk_addrs TrimSpace ParseIPv4) chunks) []
      (init New numWorkers chunks).
Proof.
  assert (HI : Forall (fun w => w = Idle) (replicate numWorkers Idle)).
  { apply Forall_replicate. reflexivity. }
  split; cbn [init shards unsent chunkChan workers resultChan total].
  - apply wf_mem_New.
  - intros a _. rewrite mem_bit_New, elem_of_nil. split; [discriminate|tauto].
  - apply NoDup_nil_2.
  - intros a Ha. apply elem_of_nil in Ha. contradiction.
  - rewrite wcount_all_Idle by exact HI. reflexivity.
  - lia.
  - apply Forall_nil_2.
  - eapply Forall_impl; [exact HI|]. intros w ->. simpl. lia.
  - intros a. unfold pending. cbn [unsent chunkChan workers].
    rewrite wtodo_all_Idle by exact HI. rewrite !app_nil_r, elem_of_nil. tauto.
  - eapply Forall_impl; [exact HI|]. intros w ->. exact I.
Qed.

(** When everything is done, the total is the number of distinct
    addresses. *)
Lemma inv_final all done st :
  inv all done st -> final st -> total st = distinct all.
Proof.
  intros I (Hu & Hc & Hw & Hr).
  pose proof (inv_counts _ _ _ I) as Hcnt.
  rewrite Hr, wcount_all_Idle in Hcnt by exact Hw. cbn [sumZ foldr] in Hcnt.
  rewrite (distinct_equiv all done).
  - rewrite distinct_NoDup by apply I. lia.
  - intros a. rewrite (inv_cover _ _ _ I a). unfold pending.
    rewrite Hu, Hc, wtodo_all_Idle by exact Hw. simpl.
    rewrite elem_of_nil. tauto.
Qed.

Section Progress.

Variable all : list Z.
Hypothesis all_u32 : forall a, a ∈ all -> 0 <= a < 2 ^ 32.

(** A worker that is not waiting for a chunk can take its step, unless
    it has a count to send and the channel is full; it never panics. *)
Lemma worker_step_next done st i w :
  inv all done st -> workers st !! i = Some w ->
  (exists st', worker_step TrimSpace ParseIPv4 i w st = Next st') \/
  worker_step TrimSpace ParseIPv4 i w st = Blocked.
Proof.
  intros I Hw.
  destruct w as [|[|ip todo] count|ip [si widx mask|si widx mask old] todo count];
    cbn [worker_step].
  - destruct (chunkChan st); eauto.
  - destruct (_ <? _)%nat; eauto.
  - assert (Hip : 0 <= ip < 2 ^ 32).
    { apply all_u32. eapply wtodo_all; eauto. apply list_elem_of_here. }
    destruct (shards st !! Z.to_nat (ip mod numShards)) as [s|] eqn:Es.
    2:{ apply lookup_ge_None in Es. pose proof (shard_index_range ip ltac:(lia)).
        destruct (inv_mem _ _ _ I) as [Hl _]. lia. }
    destruct (ensure_in_bounds _ _ _ (inv_mem _ _ _ I) Hip Es) as (ws & -> & Hlt).
    destruct (Nat.ltb_spec (Z.to_nat (ip / numShards / 32)) (length ws)); [|lia].
    eauto.
  - pose proof (worker_pc_ok _ _ _ _ _ _ _ _ I Hw) as (_ & _ & _ & [old ->]).
    destruct (_ =? _); eauto.
  - pose proof (worker_pc_ok _ _ _ _ _ _ _ _ I Hw) as (_ & _ & _ & [cur ->] & _).
    destruct (_ =? _); eauto.
Qed.

(** No reachable state panics: every index is within its array. *)
Lemma inv_no_crash done st :
  inv all done st -> ~ crashes TrimSpace ParseIPv4 st.
Proof.
  intros I [[|i|] Hc]; cbn [step_at] in Hc.
  - destruct (unsent st); [discriminate|]. destruct (_ <? _)%nat; discriminate.
  - destruct (workers st !! i) as [w|] eqn:Hw; [|discriminate].
    destruct (worker_step_next _ _ _ _ I Hw) as [[st' H]|H]; congruence.
  - destruct (resultChan st); discriminate.
Qed.

Lemma not_all_Idle ws :
  ~ Forall (fun w => w = Idle) ws ->
  exists i w, ws !! i = Some w /\ w <> Idle.
Proof.
  induction ws as [|w ws IH]; intros H.
  - exfalso. apply H. constructor.
  - destruct w as [|todo count|ip p todo count].
    + destruct IH as (i & w & Hi & Hw).
      { intros HF. apply H. constructor; [reflexivity|exact HF]. }
      exists (S i), w. auto.
    + exists 0%nat. eexists. split; [reflexivity|discriminate].
    + exists 0%nat. eexists. split; [reflexivity|discriminate].
Qed.

Lemma all_Idle_dec ws :
  Forall (fun w => w = Idle) ws \/ ~ Forall (fun w => w = Idle) ws.
Proof.
  induction ws as [|w ws [IH|IH]].
  - left. constructor.
  - destruct w; [left; constructor; auto| |];
      right; intros H; apply Forall_cons in H as [H _]; discriminate.
  - right. intros H. apply Forall_cons in H as [_ H]. contradiction.
Qed.

(** A state that is not final can take a step: the call does not hang. *)
Lemma inv_progress done st :
  inv all done st -> (0 < length (workers st))%nat ->
  final st \/ exists st', step TrimSpace ParseIPv4 st st'.
Proof.
  intros I Hnw.
  destruct (resultChan st) as [|c rest] eqn:Er.
  2:{ right. eexists. exists Aggregator. cbn [step_at]. rewrite Er. reflexivity. }
  destruct (all_Idle_dec (workers st)) as [Hidle|Hbusy].
  - destruct (chunkChan st) as [|chunk cc] eqn:Ec.
    + destruct (unsent st) as [|chunk rest] eqn:Eu.
      * left. repeat split; assumption.
      * right. eexists. exists Producer. cbn [step_at]. rewrite Eu, Ec.
        unfold capacity.
        destruct (Nat.ltb_spec (length (@nil (list byte))) (length (workers st) * 2));
          [reflexivity|simpl in *; lia].
    + right. destruct (workers st) as [|w ws] eqn:Ew; [simpl in Hnw; lia|].
      apply Forall_cons in Hidle as [-> _].
      eexists. exists (Worker 0). cbn [step_at]. rewrite Ew. cbn [lookup list_lookup].
      cbn [worker_step]. rewrite Ec. reflexivity.
  - right. destruct (not_all_Idle _ Hbusy) as (i & w & Hw & Hne).
    destruct (worker_step_next _ _ _ _ I Hw) as [[st' H]|H].
    + exists st', (Worker i). cbn [step_at]. rewrite Hw. exact H.
    + exfalso.
      destruct w as [|[|ip todo] count|ip [si widx mask|si widx mask old] todo count];
        cbn [worker_step] in H; try congruence.
      * rewrite Er in H. unfold capacity in H.
        destruct (Nat.ltb_spec (length (@nil Z)) (length (workers st) * 2));
          [discriminate|simpl in *; lia].
      * destruct (shards st !! _); [|discriminate].
        destruct (ensure _); [|discriminate].
        destruct (_ <? _)%nat; discriminate.
      * destruct (load _ _ _); [|discriminate]. destruct (_ =? _); discriminate.
      * destruct (load _ _ _); [|discriminate]. destruct (_ =? _); discriminate.
Qed.

End Progress.

(** *** Every run is finite

    A compare-and-swap fails only after another worker's succeeded, so
    the retry loop of [setBit] cannot go on for ever: the measure below
    decreases at every step. *)

Definition weight (m : list shard) (w : worker) : Z :=
  match w with
  | Idle => 0
  | Running _ _ => 4
  | InSetBit _ (AtLoad _ _ _) _ _ => 2
  | InSetBit _ (AtCAS si widx _ old) _ _ =>
      if decide (load m si widx = Some old) then 1 else 3
  end.

Definition measure (st : state) : Z :=
  (2 * Z.of_nat (length (workers st)) + 4) * Z.of_nat (length (pending st))
  + sumZ (weight (shards st) <$> workers st)
  + 5 * Z.of_nat (length (chunkChan st))
  + 6 * Z.of_nat (length (unsent st))
  + Z.of_nat (length (resultChan st)).

Lemma weight_range m w : 0 <= weight m w <= 4.
Proof.
  destruct w as [| |ip [si widx mask|si widx mask old] todo count]; simpl;
    try destruct (decide _); lia.
Qed.

Lemma sumZ_weight_range m ws :
  0 <= sumZ (weight m <$> ws) <= 4 * Z.of_nat (length ws).
Proof.
  induction ws as [|w ws IH]; [simpl; lia|].
  rewrite fmap_cons, sumZ_cons, length_cons.
  pose proof (weight_range m w). lia.
Qed.

Lemma sumZ_weight_change m m' ws :
  sumZ (weight m' <$> ws) <= sumZ (weight m <$> ws) + 2 * Z.of_nat (length ws).
Proof.
  induction ws as [|w ws IH]; [simpl; lia|].
  rewrite !fmap_cons, !sumZ_cons, length_cons.
  assert (weight m' w <= weight m w + 2).
  { destruct w as [| |ip [si widx mask|si widx mask old] todo count]; simpl;
      repeat destruct (decide _); lia. }
  lia.
Qed.

Lemma sumZ_weight_mono m m' ws :
  (forall si widx v, load m si widx = Some v -> load m' si widx = Some v) ->
  sumZ (weight m' <$> ws) <= sumZ (weight m <$> ws).
Proof.
  intros Hm. induction ws as [|w ws IH]; [simpl; lia|].
  rewrite !fmap_cons, !sumZ_cons.
  assert (weight m' w <= weight m w).
  { destruct w as [| |ip [si widx mask|si widx mask old] todo count]; simpl;
      try lia.
    destruct (decide (load m si widx = Some old)) as [E|E].
    - rewrite (Hm _ _ _ E). destruct (decide _); [lia|congruence].
    - destruct (decide _); lia. }
  lia.
Qed.

Lemma measure_nonneg st : 0 <= measure st.
Proof.
  unfold measure. pose proof (sumZ_weight_range (shards st) (workers st)). nia.
Qed.

Lemma flat_map_length_app {A B} (f : A -> list B) l1 l2 :
  length (flat_map f (l1 ++ l2)) = (length (flat_map f l1) + length (flat_map f l2))%nat.
Proof. rewrite flat_map_app. apply length_app. Qed.

(** The measure after a step of worker [i], from [w] to [w'], that
    leaves the other workers' weights as they are or lower. *)
Lemma measure_update st i w w' m' cc' rc' :
  workers st !! i = Some w ->
  (forall ws, sumZ (weight m' <$> ws) <= sumZ (weight (shards st) <$> ws)) ->
  (2 * Z.of_nat (length (workers st)) + 4) *
    (Z.of_nat (length (flat_map (chunk_addrs TrimSpace ParseIPv4) (unsent st ++ cc')))
     + Z.of_nat (length (wtodo w')))
  + weight m' w' + 5 * Z.of_nat (length cc') + Z.of_nat (length rc')
  < (2 * Z.of_nat (length (workers st)) + 4) *
    (Z.of_nat (length (flat_map (chunk_addrs TrimSpace ParseIPv4)
                         (unsent st ++ chunkChan st)))
     + Z.of_nat (length (wtodo w)))
  + weight (shards st) w
  + 5 * Z.of_nat (length (chunkChan st)) + Z.of_nat (length (resultChan st)) ->
  measure {| shards := m'; unsent := unsent st; chunkChan := cc';
             workers := <[i := w']> (workers st); resultChan := rc';
             total := total st |}
  < measure st.
Proof.
  intros Hw Hm Hlt.
  destruct (list_split_insert _ _ _ Hw) as (l1 & l2 & Hl & Hins).
  unfold measure, pending.
  cbn [shards unsent chunkChan workers resultChan total].
  rewrite length_insert, Hins. rewrite Hl in *.
  rewrite !length_app, !fmap_app, !sumZ_app.
  rewrite !(flat_map_length_app wtodo).
  cbn [flat_map fmap list_fmap sumZ foldr length].
  rewrite !length_app.
  fold (sumZ (weight m' <$> l2)) (sumZ (weight (shards st) <$> l2)).
  pose proof (Hm l1) as H1. pose proof (Hm l2) as H2.
  rewrite !length_app in Hlt. cbn [length] in Hlt.
  nia.
Qed.

(** The measure after a successful compare-and-swap of worker [i]: the
    other workers at their compare-and-swap may now have to retry, and
    one address less is pending. *)
Lemma measure_cas st i ip si widx mask old todo count m' count' :
  workers st !! i = Some (InSetBit ip (AtCAS si widx mask old) todo count) ->
  measure {| shards := m'; unsent := unsent st; chunkChan := chunkChan st;
             workers := <[i := Running todo count']> (workers st);
             resultChan := resultChan st; total := total st |}
  < measure st.
Proof.
  intros Hw.
  destruct (list_split_insert _ _ _ Hw) as (l1 & l2 & Hl & Hins).
  unfold measure, pending.
  cbn [shards unsent chunkChan workers resultChan total].
  rewrite length_insert, Hins. rewrite Hl in *.
  rewrite !length_app, !fmap_app, !sumZ_app.
  rewrite !(flat_map_length_app wtodo).
  cbn [flat_map fmap list_fmap sumZ foldr length wtodo weight].
  rewrite !length_app. cbn [length].
  fold (sumZ (weight m' <$> l2)) (sumZ (weight (shards st) <$> l2)).
  pose proof (sumZ_weight_change (shards st) m' l1) as H1.
  pose proof (sumZ_weight_change (shards st) m' l2) as H2.
  assert (1 <= (if decide (load (shards st) si widx = Some old) then 1 else 3))
    by (destruct (decide _); lia).
  nia.
Qed.

Lemma measure_worker_step st i w st' :
  workers st !! i = Some w ->
  worker_step TrimSpace ParseIPv4 i w st = Next st' ->
  measure st' < measure st.
Proof.
  intros Hw Hstep.
  assert (Hnw : (0 < length (workers st))%nat)
    by (apply lookup_lt_Some in Hw; lia).
  destruct w as [|[|ip todo] count|ip [si widx mask|si widx mask old] todo count];
    cbn [worker_step] in Hstep.
  - destruct (chunkChan st) as [|chunk rest] eqn:Ecc; [discriminate|].
    injection Hstep as <-.
    apply (measure_update st i Idle _ (shards st) rest (resultChan st) Hw);
      [intros; lia|].
    rewrite Ecc, !flat_map_length_app. cbn [flat_map length wtodo weight].
    rewrite !length_app. lia.
  - destruct (_ <? _)%nat; [|discriminate]. injection Hstep as <-.
    apply (measure_update st i _ Idle (shards st) (chunkChan st)
             (resultChan st ++ [count]) Hw); [intros; lia|].
    rewrite length_app. cbn [length wtodo weight]. lia.
  - destruct (shards st !! _) as [s|] eqn:Es; [|discriminate].
    destruct (ensure s) as [ws|] eqn:He; [|discriminate].
    destruct (_ <? _)%nat; [|discriminate]. injection Hstep as <-.
    apply (measure_update st i _ (InSetBit _ _ _ _) _ (chunkChan st)
             (resultChan st) Hw).
    + intros l. apply sumZ_weight_mono. intros sj wj v.
      eapply load_ensure; eauto.
    + cbn [length wtodo weight]. lia.
  - destruct (load _ _ _) as [cur|] eqn:El; [|discriminate].
    destruct (_ =? _); injection Hstep as <-.
    + apply (measure_update st i _ (InSetBit _ (AtCAS _ _ _ cur) _ _) (shards st)
               (chunkChan st) (resultChan st) Hw); [intros; lia|].
      cbn [length wtodo weight]. rewrite El.
      destruct (decide _); [lia|congruence].
    + apply (measure_update st i _ (Running _ _) (shards st)
               (chunkChan st) (resultChan st) Hw); [intros; lia|].
      cbn [length wtodo weight]. lia.
  - destruct (load _ _ _) as [cur|] eqn:El; [|discriminate].
    destruct (Z.eqb_spec cur old) as [->|Hne]; injection Hstep as <-.
    + exact (measure_cas st i _ _ _ _ _ _ _
               (store (shards st) si widx (Z.lor old mask)) _ Hw).
    + apply (measure_update st i _ (InSetBit _ (AtLoad _ _ _) _ _) (shards st)
               (chunkChan st) (resultChan st) Hw); [intros; lia|].
      cbn [length wtodo weight]. rewrite El.
      destruct (decide _); [congruence|lia].
Qed.

(** Every step makes the measure smaller. *)
Lemma measure_step st st' :
  step TrimSpace ParseIPv4 st st' -> measure st' < measure st.
Proof.
  intros [[|i|] Hstep]; cbn [step_at] in Hstep.
  - destruct (unsent st) as [|chunk rest] eqn:Eu; [discriminate|].
    destruct (_ <? _)%nat; [|discriminate]. injection Hstep as <-.
    unfold measure, pending.
    cbn [shards unsent chunkChan workers resultChan total].
    rewrite Eu, !length_app, !flat_map_length_app.
    cbn [flat_map length]. rewrite ?length_app, ?flat_map_length_app.
    cbn [flat_map length]. rewrite ?length_app. cbn [length]. lia.
  - destruct (workers st !! i) as [w|] eqn:Hw; [|discriminate].
    eapply measure_worker_step; eauto.
  - destruct (resultChan st) as [|c rest] eqn:Er; [discriminate|].
    injection Hstep as <-. unfold measure, pending.
    cbn [shards unsent chunkChan workers resultChan total]. rewrite Er.
    cbn [length]. lia.
Qed.

(** A run of [n] steps from [st] has [n] at most the measure of [st]. *)
Lemma nsteps_bound n st st' :
  nsteps (step TrimSpace ParseIPv4) n st st' ->
  Z.of_nat n <= measure st - measure st'.
Proof.
  induction 1 as [st|n st st1 st2 H1 _ IH]; [lia|].
  apply measure_step in H1. lia.
Qed.

Lemma step_workers_length st st' :
  step TrimSpace ParseIPv4 st st' -> length (workers st') = length (workers st).
Proof.
  intros [[|i|] Hstep]; cbn [step_at] in Hstep.
  - destruct (unsent st); [discriminate|].
    destruct (_ <? _)%nat; [|discriminate]. injection Hstep as <-. reflexivity.
  - destruct (workers st !! i) as [w|] eqn:Hw; [|discriminate].
    destruct w as [|[|ip todo] count|ip [si widx mask|si widx mask old] todo count];
      cbn [worker_step] in Hstep;
      repeat match type of Hstep with
        | context [match ?x with _ => _ end] => destruct x; try discriminate
        end;
      injection Hstep as <-; apply length_insert.
  - destruct (resultChan st); [discriminate|]. injection Hstep as <-. reflexivity.
Qed.

(** From any state of a run, some interleaving leads to a final state. *)
Lemma run_completes all :
  (forall a, a ∈ all -> 0 <= a < 2 ^ 32) ->
  forall n done st,
  measure st < Z.of_nat n ->
  inv all done st -> (0 < length (workers st))%nat ->
  exists st', rtc (step TrimSpace ParseIPv4) st st' /\ final st'.
Proof.
  intros Hall. induction n as [|n IH]; intros done st Hm I Hnw.
  - pose proof (measure_nonneg st). lia.
  - destruct (inv_progress all Hall done st I Hnw) as [Hf|[st1 H1]].
    + exists st. split; [apply rtc_refl|exact Hf].
    + destruct (inv_step all Hall done st st1 I H1) as [done1 I1].
      pose proof (measure_step _ _ H1) as Hlt.
      destruct (IH done1 st1) as (st' & Hrun & Hf); [lia|exact I1| |].
      * rewrite (step_workers_length _ _ H1). exact Hnw.
      * exists st'. split; [|exact Hf]. eapply rtc_l; eauto.
Qed.

(** *** What the steps do to the bits *)

(** No step clears a bit. *)
Lemma step_shard_bit st st' sj off :
  step TrimSpace ParseIPv4 st st' ->
  shard_bit (shards st) sj off = true -> shard_bit (shards st') sj off = true.
Proof.
  intros [[|i|] Hstep]; cbn [step_at] in Hstep.
  - destruct (unsent st); [discriminate|].
    destruct (_ <? _)%nat; [|discriminate]. injection Hstep as <-. auto.
  - destruct (workers st !! i) as [w|] eqn:Hw; [|discriminate].
    destruct w as [|[|ip todo] count|ip [si widx mask|si widx mask old] todo count];
      cbn [worker_step] in Hstep.
    + destruct (chunkChan st); [discriminate|]. injection Hstep as <-. auto.
    + destruct (_ <? _)%nat; [|discriminate]. injection Hstep as <-. auto.
    + destruct (shards st !! _) as [s|] eqn:Es; [|discriminate].
      destruct (ensure s) as [ws|] eqn:He; [|discriminate].
      destruct (_ <? _)%nat; [|discriminate]. injection Hstep as <-.
      cbn [set_worker set_shards shards].
      rewrite (shard_bit_ensure _ _ s ws) by assumption. auto.
    + destruct (load _ _ _); [|discriminate].
      destruct (_ =? _); injection Hstep as <-; auto.
    + destruct (load _ _ _) as [cur|] eqn:El; [|discriminate].
      destruct (Z.eqb_spec cur old) as [->|Hne]; injection Hstep as <-; auto.
      cbn [set_worker set_shards shards]. apply shard_bit_store_mono, El.
  - destruct (resultChan st); [discriminate|]. injection Hstep as <-. auto.
Qed.

Lemma steps_shard_bit st st' sj off :
  rtc (step TrimSpace ParseIPv4) st st' ->
  shard_bit (shards st) sj off = true -> shard_bit (shards st') sj off = true.
Proof.
  induction 1 as [st|st st1 st2 H1 _ IH]; [auto|].
  intros Hb. apply IH. eapply step_shard_bit; eauto.
Qed.

Lemma set_worker_twice i w1 w2 st :
  set_worker i w2 (set_worker i w1 st) = set_worker i w2 st.
Proof.
  unfold set_worker. cbn [shards unsent chunkChan workers resultChan total].
  rewrite list_insert_insert_eq. reflexivity.
Qed.

(** The steps of a worker realise [setBit]: left alone, a worker that
    enters [setBit] leaves it with the shards and the result [setBit]
    gives. *)
Lemma setBit_steps st i ip todo count m' b :
  workers st !! i = Some (Running (ip :: todo) count) ->
  setBit (shards st) (Z.to_nat (ip mod numShards)) (ip / numShards) = Some (m', b) ->
  rtc (step TrimSpace ParseIPv4) st
    (set_worker i (Running todo (if b then int64 (count + 1) else count))
       (set_shards m' st)).
Proof.
  intros Hw Hs. unfold setBit in Hs.
  assert (Hi : (i < length (workers st))%nat) by (eapply lookup_lt_Some; eauto).
  destruct (shards st !! Z.to_nat (ip mod numShards)) as [s|] eqn:Es;
    [|discriminate].
  destruct (ensure s) as [ws|] eqn:He; [|discriminate].
  destruct (Z.to_nat (ip / numShards / 32) <? length ws)%nat eqn:Elt;
    [|discriminate].
  set (si := Z.to_nat (ip mod numShards)) in *.
  set (widx := Z.to_nat (ip / numShards / 32)) in *.
  set (mask := u32 (Z.shiftl 1 (ip / numShards mod 32))) in *.
  set (m1 := <[si := Some ws]> (shards st)) in *.
  set (st1 := set_worker i (InSetBit ip (AtLoad si widx mask) todo count)
                (set_shards m1 st)).
  assert (H1 : step TrimSpace ParseIPv4 st st1).
  { exists (Worker i). cbn [step_at]. rewrite Hw. cbn [worker_step].
    fold si. rewrite Es, He. fold widx. rewrite Elt. reflexivity. }
  assert (Hw1 : workers st1 !! i = Some (InSetBit ip (AtLoad si widx mask) todo count)).
  { unfold st1, set_worker, set_shards. cbn [workers].
    apply list_lookup_insert_eq. exact Hi. }
  destruct (load m1 si widx) as [old|] eqn:El; [|discriminate].
  destruct (Z.land old mask =? 0) eqn:Eb; injection Hs as <- <-.
  - set (st2 := set_worker i (InSetBit ip (AtCAS si widx mask old) todo count) st1).
    assert (H2 : step TrimSpace ParseIPv4 st1 st2).
    { exists (Worker i). cbn [step_at]. rewrite Hw1. cbn [worker_step].
      change (shards st1) with m1. rewrite El, Eb. reflexivity. }
    assert (Hw2 : workers st2 !! i = Some (InSetBit ip (AtCAS si widx mask old) todo count)).
    { unfold st2, st1, set_worker, set_shards. cbn [workers].
      apply list_lookup_insert_eq. rewrite length_insert. exact Hi. }
    eapply rtc_l; [exact H1|]. eapply rtc_l; [exact H2|].
    apply rtc_once. exists (Worker i). cbn [step_at]. rewrite Hw2.
    cbn [worker_step]. change (shards st2) with m1. rewrite El, Z.eqb_refl.
    f_equal. unfold st2, st1.
    unfold set_shards, set_worker.
    cbn [shards unsent chunkChan workers resultChan total].
    rewrite !list_insert_insert_eq. reflexivity.
  - eapply rtc_l; [exact H1|].
    apply rtc_once. exists (Worker i). cbn [step_at]. rewrite Hw1.
    cbn [worker_step]. change (shards st1) with m1. rewrite El, Eb.
    f_equal. unfold st1. apply set_worker_twice.
Qed.

Lemma chunk_addrs_u32 chunks a :
  (forall l x, ParseIPv4 l = Some x -> 0 <= x < 2 ^ 32) ->
  a ∈ flat_map (chunk_addrs TrimSpace ParseIPv4) chunks -> 0 <= a < 2 ^ 32.
Proof.
  intros Hp Ha. apply elem_of_flat_map in Ha as (chunk & _ & Ha).
  unfold chunk_addrs in Ha. apply list_elem_of_omap in Ha as (l & _ & Hl).
  unfold address_of_line in Hl.
  destruct (TrimSpace l) as [|b t]; [discriminate|]. eapply Hp, Hl.
Qed.

(** No run on a fresh counter panics: every index is within its array. *)
Lemma run_no_crash numWorkers chunks st :
  (forall l x, ParseIPv4 l = Some x -> 0 <= x < 2 ^ 32) ->
  rtc (step TrimSpace ParseIPv4) (init New numWorkers chunks) st ->
  ~ crashes TrimSpace ParseIPv4 st.
Proof.
  intros Hp Hrun.
  set (all := flat_map (chunk_addrs TrimSpace ParseIPv4) chunks).
  assert (Hall : forall a, a ∈ all -> 0 <= a < 2 ^ 32).
  { intros a. apply chunk_addrs_u32, Hp. }
  destruct (inv_steps all Hall _ _ _ (inv_init numWorkers chunks) Hrun) as [done I].
  exact (inv_no_crash all Hall done st I).
Qed.

(** When a worker leaves [setBit], among the steps of the others: it
    saw the bit set, changed nothing and does not count the address; or
    its compare-and-swap set the bit, which was clear, changed no other
    bit, and it counts the address. *)
Lemma setBit_return st i ip p todo count st' :
  pc_ok (shards st) ip p -> 0 <= ip ->
  workers st !! i = Some (InSetBit ip p todo count) ->
  worker_step TrimSpace ParseIPv4 i (InSetBit ip p todo count) st = Next st' ->
  forall todo' count',
  workers st' !! i = Some (Running todo' count') ->
  let si := Z.to_nat (ip mod numShards) in
  let off := ip / numShards in
  (count' = count /\ shards st' = shards st /\
   shard_bit (shards st) si off = true) \/
  (count' = int64 (count + 1) /\
   shard_bit (shards st) si off = false /\
   shard_bit (shards st') si off = true /\
   forall sj off', 0 <= off' -> sj <> si \/ off' <> off ->
     shard_bit (shards st') sj off' = shard_bit (shards st) sj off').
Proof.
  intros Hok Hip Hw Hstep todo' count' Hw'. cbv zeta.
  assert (Hi : (i < length (workers st))%nat) by (eapply lookup_lt_Some; eauto).
  assert (Hoff : 0 <= ip / numShards) by (apply Z.div_pos; [lia|reflexivity]).
  pose proof (Z.mod_pos_bound (ip / numShards) 32 ltac:(lia)) as Hm.
  destruct p as [sj widx mask|sj widx mask old]; cbn [worker_step] in Hstep.
  - destruct Hok as (-> & -> & -> & _).
    destruct (load (shards st) _ _) as [old|] eqn:El; [|discriminate].
    pose proof (shard_bit_load _ _ _ _ El) as Hbit.
    rewrite land_pow2_eqb in Hstep by lia.
    destruct (Z.testbit old (ip / numShards mod 32)) eqn:Et;
      cbn [negb] in Hstep; injection Hstep as <-;
      cbn [set_worker workers shards] in *;
      rewrite list_lookup_insert_eq in Hw' by exact Hi.
    + injection Hw' as <- <-. left. auto.
    + discriminate.
  - destruct Hok as (-> & -> & -> & _ & Hold).
    destruct (load (shards st) _ _) as [cur|] eqn:El; [|discriminate].
    pose proof (shard_bit_load _ _ _ _ El) as Hbit.
    destruct (Z.eqb_spec cur old) as [->|Hne]; injection Hstep as <-;
      cbn [set_worker set_shards workers shards] in *;
      rewrite list_lookup_insert_eq in Hw' by exact Hi.
    + injection Hw' as <- <-. right. split; [reflexivity|].
      split; [congruence|]. split.
      * rewrite shard_bit_store by (try exact El; lia).
        rewrite bool_decide_eq_true_2, Z.eqb_refl by reflexivity.
        apply Bool.orb_true_r.
      * intros sj off' Ho' Hne.
        rewrite shard_bit_store by (try exact El; lia).
        destruct Hne as [Hne|Hne].
        -- rewrite bool_decide_eq_false_2 by exact Hne. apply Bool.orb_false_r.
        -- destruct (Z.eqb_spec off' (ip / numShards)); [contradiction|].
           rewrite Bool.andb_false_r. apply Bool.orb_false_r.
    + discriminate.
Qed.

End Facts.

(** *** The count of the call *)

Section Counting.

Variable TrimSpace : list byte -> list byte.
Variable ParseIPv4 : list byte -> option Z.

(** Trimming an empty line leaves it empty. *)
Hypothesis TrimSpace_nil : TrimSpace [] = [].

(** The codec returns a [uint32]. *)
Hypothesis ParseIPv4_u32 : forall l a, ParseIPv4 l = Some a -> 0 <= a < 2 ^ 32.

Lemma address_of_line_nil : address_of_line TrimSpace ParseIPv4 [] = None.
Proof. unfold address_of_line. rewrite TrimSpace_nil. reflexivity. Qed.

(** [processChunk] hands to [setBit] the valid addresses of its chunk. *)
Lemma chunk_lines_addresses s :
  forall cur, newline ∉ cur ->
  omap (address_of_line TrimSpace ParseIPv4) (chunk_lines s cur)
  = valid_addresses TrimSpace ParseIPv4 (reverse cur ++ s).
Proof.
  unfold valid_addresses.
  induction s as [|c s IH]; intros cur Hc.
  - assert (Hr : newline ∉ reverse cur) by (rewrite elem_of_reverse; exact Hc).
    rewrite app_nil_r, split_lines_no_newline by exact Hr.
    destruct cur as [|b cur]; cbn [chunk_lines].
    + cbn. rewrite address_of_line_nil. reflexivity.
    + reflexivity.
  - assert (Hr : newline ∉ reverse cur) by (rewrite elem_of_reverse; exact Hc).
    cbn [chunk_lines]. destruct (is_newline c) eqn:E.
    + apply is_newline_true in E. subst c.
      rewrite split_lines_app by exact Hr. cbn [omap list_omap].
      rewrite (IH []) by apply not_elem_of_nil. reflexivity.
    + apply is_newline_false in E.
      rewrite (IH (c :: cur)).
      * rewrite reverse_cons, <- app_assoc. reflexivity.
      * apply not_elem_of_cons. split; [congruence|exact Hc].
Qed.

Lemma chunk_addrs_valid s :
  chunk_addrs TrimSpace ParseIPv4 s = valid_addresses TrimSpace ParseIPv4 s.
Proof.
  unfold chunk_addrs. rewrite chunk_lines_addresses by apply not_elem_of_nil.
  reflexivity.
Qed.

Lemma omap_flat_map {A B C} (f : B -> option C) (g : A -> list B) (l : list A) :
  flat_map (fun x => omap f (g x)) l = omap f (flat_map g l).
Proof.
  induction l as [|x l IH]; [reflexivity|].
  cbn [flat_map]. rewrite omap_app, IH. reflexivity.
Qed.

(** The addresses of the chunks the producer sends are the valid
    addresses of the file, in order. *)
Lemma producer_addresses blocks chunks :
  producer (blocks_reader blocks) [] = inr chunks ->
  flat_map (chunk_addrs TrimSpace ParseIPv4) chunks
  = valid_addresses TrimSpace ParseIPv4 (concat blocks).
Proof.
  intros Hp.
  destruct (producer_spec blocks [] (not_elem_of_nil _))
    as (complete & Hc & Hcat & Hall).
  rewrite Hp in Hc. injection Hc as ->. cbn [app] in *.
  unfold chunk_addrs at 1.
  rewrite (omap_flat_map _ (fun chunk => chunk_lines chunk [])).
  rewrite chunk_lines_chunks by exact Hall. rewrite Hcat.
  apply (chunk_lines_addresses _ []). apply not_elem_of_nil.
Qed.

(** On a fresh counter, whatever the blocks the reader hands the file
    over in, the number of workers and the interleaving: the call
    returns, and returns the number of distinct valid addresses. *)
Lemma CountUniqueIPs_count blocks numWorkers :
  (0 < numWorkers)%nat ->
  (exists r, CountUniqueIPs TrimSpace ParseIPv4 New numWorkers None
               (blocks_reader blocks) r) /\
  (forall r, CountUniqueIPs TrimSpace ParseIPv4 New numWorkers None
               (blocks_reader blocks) r ->
             r = Ok (distinct (valid_addresses TrimSpace ParseIPv4 (concat blocks)))).
Proof.
  intros Hnw. unfold CountUniqueIPs.
  destruct (producer_spec blocks [] (not_elem_of_nil _))
    as (complete & Hp & _ & _).
  rewrite Hp.
  set (chunks := complete ++ flush (tail_line ([] ++ concat blocks))) in *.
  set (all := flat_map (chunk_addrs TrimSpace ParseIPv4) chunks).
  assert (Hall : forall a, a ∈ all -> 0 <= a < 2 ^ 32).
  { intros a. unfold all. rewrite (producer_addresses blocks chunks Hp).
    apply valid_addresses_range, ParseIPv4_u32. }
  pose proof (inv_init TrimSpace ParseIPv4 numWorkers chunks) as I0.
  fold all in I0. split.
  - destruct (run_completes TrimSpace ParseIPv4 all Hall
                (S (Z.to_nat (measure TrimSpace ParseIPv4 (init New numWorkers chunks))))
                [] (init New numWorkers chunks)) as (st & Hrun & Hf).
    + pose proof (measure_nonneg TrimSpace ParseIPv4 (init New numWorkers chunks)).
      lia.
    + exact I0.
    + cbn [init workers]. rewrite length_replicate. exact Hnw.
    + exists (Ok (total st)), st. split; [exact Hrun|]. left. auto.
  - intros r (st & Hrun & Hres).
    destruct (inv_steps TrimSpace ParseIPv4 all Hall _ _ _ I0 Hrun) as [done I].
    destruct Hres as [[Hf ->]|[Hc _]].
    + f_equal. rewrite (inv_final TrimSpace ParseIPv4 all done st I Hf).
      unfold all. rewrite (producer_addresses blocks chunks Hp). reflexivity.
    + exfalso. exact (inv_no_crash TrimSpace ParseIPv4 all Hall done st I Hc).
Qed.

End Counting.

End Concurrent.

(** * The properties of the specification

    Each theorem below is stated for every [bytes.TrimSpace] and
    [utils.ParseIPv4]; where it depends on them, it assumes only that
    trimming an empty line leaves it empty and that the codec returns a
    32-bit value.  The examples instantiate them with [Codec]. *)

Import Bits Go Lines.

(** The scenario of the specification: two equal addresses, a third,
    a line that is no address and an empty line. *)
Definition scenario : list byte :=
  Codec.bytes "1.2.3.4" ++ [newline] ++ Codec.bytes "1.2.3.4" ++ [newline] ++
  Codec.bytes "5.6.7.8" ++ [newline] ++ Codec.bytes "not-an-ip" ++ [newline] ++
  [newline].

(** The scenario as a reader may hand it over: the blocks end in the
    middle of lines. *)
Definition scenario_blocks : list (list byte) :=
  [Codec.bytes "1.2.3";
   Codec.bytes ".4" ++ [newline] ++ Codec.bytes "1.2.3.4" ++ [newline] ++ Codec.bytes "5.6";
   Codec.bytes ".7.8" ++ [newline] ++ Codec.bytes "not-an-ip" ++ [newline] ++ [newline]].

(** C1. For every input file, the disk-partitioned engine, when nothing
    fails, and the concurrent engine, on a fresh counter, whatever the
    blocks the file is read in, the number of workers and their
    interleaving, each return exactly the number [d] of distinct
    addresses among the trimmed lines the codec accepts: duplicates and
    the order of the lines do not matter. *)
Theorem count_is_number_of_distinct_addresses
    (TrimSpace : list byte -> list byte) (ParseIPv4 : list byte -> option Z)
    (TrimSpace_nil : TrimSpace [] = [])
    (ParseIPv4_u32 : forall l a, ParseIPv4 l = Some a -> 0 <= a < 2 ^ 32)
    (file : list byte) (blocks : list (list byte)) (numWorkers : nat) :
  concat blocks = file -> (0 < numWorkers)%nat ->
  let d := distinct (valid_addresses TrimSpace ParseIPv4 file) in
  Bucket.CountUniqueIPs TrimSpace ParseIPv4 (Bucket.healthy file) = Ok d /\
  (exists r, Concurrent.CountUniqueIPs TrimSpace ParseIPv4 Concurrent.New
               numWorkers None (Concurrent.blocks_reader blocks) r) /\
  (forall r, Concurrent.CountUniqueIPs TrimSpace ParseIPv4 Concurrent.New
               numWorkers None (Concurrent.blocks_reader blocks) r -> r = Ok d).
Proof.
  intros <- Hnw d. split.
  - apply Bucket.CountUniqueIPs_healthy, ParseIPv4_u32.
  - apply Concurrent.CountUniqueIPs_count; assumption.
Qed.

Lemma count_is_number_of_distinct_addresses_example :
  Bucket.CountUniqueIPs Codec.TrimSpace Codec.ParseIPv4 (Bucket.healthy scenario)
    = Ok 2 /\
  (exists r, Concurrent.CountUniqueIPs Codec.TrimSpace Codec.ParseIPv4 Concurrent.New
               3 None (Concurrent.blocks_reader scenario_blocks) r) /\
  (forall r, Concurrent.CountUniqueIPs Codec.TrimSpace Codec.ParseIPv4 Concurrent.New
               3 None (Concurrent.blocks_reader scenario_blocks) r -> r = Ok 2).
Proof.
  exact (count_is_number_of_distinct_addresses Codec.TrimSpace Codec.ParseIPv4
           Codec.TrimSpace_nil Codec.ParseIPv4_u32 scenario scenario_blocks 3
           eq_refl (Nat.lt_0_succ 2)).
Defined.

(** C2. For every input file, the concurrent engine (on a fresh counter,
    whatever the blocks, the workers and their interleaving) and the
    disk-partitioned engine (when nothing fails) return the same count. *)
Theorem engines_agree
    (TrimSpace : list byte -> list byte) (ParseIPv4 : list byte -> option Z)
    (TrimSpace_nil : TrimSpace [] = [])
    (ParseIPv4_u32 : forall l a, ParseIPv4 l = Some a -> 0 <= a < 2 ^ 32)
    (file : list byte) (blocks : list (list byte)) (numWorkers : nat) :
  concat blocks = file -> (0 < numWorkers)%nat ->
  exists n,
    Bucket.CountUniqueIPs TrimSpace ParseIPv4 (Bucket.healthy file) = Ok n /\
    (exists r, Concurrent.CountUniqueIPs TrimSpace ParseIPv4 Concurrent.New
                 numWorkers None (Concurrent.blocks_reader blocks) r) /\
    (forall r, Concurrent.CountUniqueIPs TrimSpace ParseIPv4 Concurrent.New
                 numWorkers None (Concurrent.blocks_reader blocks) r -> r = Ok n).
Proof.
  intros <- Hnw.
  exists (distinct (valid_addresses TrimSpace ParseIPv4 (concat blocks))).
  split.
  - apply Bucket.CountUniqueIPs_healthy, ParseIPv4_u32.
  - apply Concurrent.CountUniqueIPs_count; assumption.
Qed.

Lemma engines_agree_example :
  exists n,
    Bucket.CountUniqueIPs Codec.TrimSpace Codec.ParseIPv4 (Bucket.healthy scenario)
      = Ok n /\
    (exists r, Concurrent.CountUniqueIPs Codec.TrimSpace Codec.ParseIPv4 Concurrent.New
                 1 None (Concurrent.blocks_reader scenario_blocks) r) /\
    (forall r, Concurrent.CountUniqueIPs Codec.TrimSpace Codec.ParseIPv4 Concurrent.New
                 1 None (Concurrent.blocks_reader scenario_blocks) r -> r = Ok n).
Proof.
  exact (engines_agree Codec.TrimSpace Codec.ParseIPv4
           Codec.TrimSpace_nil Codec.ParseIPv4_u32 scenario scenario_blocks 1
           eq_refl (Nat.lt_0_succ 0)).
Defined.

(** Two addresses with the same low-order 24 bits and different top
    bytes, 1.2.3.4 and 9.2.3.4. *)
Definition same_suffix_file : list byte :=
  Codec.bytes "1.2.3.4" ++ [newline] ++ Codec.bytes "9.2.3.4".

Definition repeated_file : list byte :=
  Codec.bytes "1.2.3.4" ++ [newline] ++ Codec.bytes "1.2.3.4".

(** C3. In the disk engine, for every 32-bit address [a], the four
    big-endian bytes written in pass 1 decode in pass 2 to the suffix of
    [a], and the partition index with the suffix gives [a] back:
    [(top << 24) | suffix = a].  So two addresses with the same
    low-order 24 bits and different top bytes go to different
    partitions and both count, and two occurrences of one address go to
    the same partition and count once. *)
Theorem partition_and_suffix_reconstruct_address
    (TrimSpace : list byte -> list byte) (ParseIPv4 : list byte -> option Z)
    (a b : Z) (file : list byte) :
  0 <= a < 2 ^ 32 -> 0 <= b < 2 ^ 32 ->
  Bucket.records (PutUint32 (Bucket.suffix_of a)) = [Bucket.suffix_of a] /\
  Z.lor (Z.shiftl (Bucket.top_of a) 24) (Bucket.suffix_of a) = a /\
  (Bucket.suffix_of a = Bucket.suffix_of b ->
   Bucket.top_of a <> Bucket.top_of b ->
     Bucket.bucket_sufs (Z.to_nat (Bucket.top_of a)) [a; b] = [Bucket.suffix_of a] /\
     Bucket.bucket_sufs (Z.to_nat (Bucket.top_of b)) [a; b] = [Bucket.suffix_of b] /\
     (valid_addresses TrimSpace ParseIPv4 file = [a; b] ->
      Bucket.CountUniqueIPs TrimSpace ParseIPv4 (Bucket.healthy file) = Ok 2)) /\
  Bucket.bucket_sufs (Z.to_nat (Bucket.top_of a)) [a; a]
    = [Bucket.suffix_of a; Bucket.suffix_of a] /\
  (valid_addresses TrimSpace ParseIPv4 file = [a; a] ->
   Bucket.CountUniqueIPs TrimSpace ParseIPv4 (Bucket.healthy file) = Ok 1).
Proof.
  intros Ha Hb.
  pose proof (Bucket.suffix_of_range a) as Hs.
  split; [apply Bucket.records_PutUint32; lia|].
  split; [apply Bucket.join_address, Ha|].
  split; [|split].
  - intros _ Hne.
    destruct (Bucket.bucket_sufs_apart a b Hne) as [H1 H2].
    split; [exact H1|]. split; [exact H2|].
    intros Hf. rewrite Bucket.CountUniqueIPs_healthy_range; rewrite Hf.
    + rewrite Bucket.distinct_two; [reflexivity|]. congruence.
    + intros x Hx. apply elem_of_cons in Hx as [->|Hx]; [exact Ha|].
      apply list_elem_of_singleton in Hx as ->. exact Hb.
  - apply Bucket.bucket_sufs_same.
  - intros Hf. rewrite Bucket.CountUniqueIPs_healthy_range; rewrite Hf.
    + rewrite Bucket.distinct_twice. reflexivity.
    + intros x Hx. apply elem_of_cons in Hx as [->|Hx]; [exact Ha|].
      apply list_elem_of_singleton in Hx as ->. exact Ha.
Qed.

Lemma partition_and_suffix_reconstruct_address_example :
  Z.lor (Z.shiftl (Bucket.top_of 16909060) 24) (Bucket.suffix_of 16909060) = 16909060 /\
  Bucket.CountUniqueIPs Codec.TrimSpace Codec.ParseIPv4 (Bucket.healthy same_suffix_file)
    = Ok 2 /\
  Bucket.CountUniqueIPs Codec.TrimSpace Codec.ParseIPv4 (Bucket.healthy repeated_file)
    = Ok 1.
Proof.
  assert (Ha : 0 <= 16909060 < 2 ^ 32) by (split; [discriminate|reflexivity]).
  assert (Hb : 0 <= 151126788 < 2 ^ 32) by (split; [discriminate|reflexivity]).
  destruct (partition_and_suffix_reconstruct_address Codec.TrimSpace Codec.ParseIPv4
              16909060 151126788 same_suffix_file Ha Hb)
    as (_ & H2 & H3 & _ & _).
  destruct (partition_and_suffix_reconstruct_address Codec.TrimSpace Codec.ParseIPv4
              16909060 151126788 repeated_file Ha Hb)
    as (_ & _ & _ & _ & H5).
  split; [exact H2|]. split.
  - apply H3; [reflexivity|discriminate|reflexivity].
  - apply H5. reflexivity.
Defined.

(** C4. In the concurrent engine's producer, for every input and every
    way the reader hands it over in blocks, the chunks sent to the work
    queue concatenate, in order, to the input; every chunk but the last
    ends with a newline, so that no line is split across two chunks and
    the lines of the chunks are the lines of the input; and the final
    partial line, if the input does not end with a newline, is sent as
    the last chunk. *)
Theorem producer_chunks_are_line_aligned (blocks : list (list byte)) :
  exists complete,
    let file := concat blocks in
    let chunks := complete ++ Concurrent.flush (tail_line file) in
    (Concurrent.producer (Concurrent.blocks_reader blocks) [] = inr chunks /\
     concat chunks = file /\
     Forall (fun chunk => last chunk = Some newline) complete /\
     (newline ∉ tail_line file) /\
     flat_map (fun chunk => Concurrent.chunk_lines chunk []) chunks
       = Concurrent.chunk_lines file []).
Proof.
  destruct (Concurrent.producer_spec blocks [] (not_elem_of_nil _))
    as (complete & Hp & Hcat & Hall).
  cbn [app] in Hp, Hcat.
  exists complete. cbv zeta. split; [exact Hp|]. split; [|split; [exact Hall|split]].
  - rewrite concat_app, Concurrent.flush_concat. exact Hcat.
  - apply tail_line_newline.
  - rewrite Concurrent.chunk_lines_chunks by exact Hall. rewrite Hcat. reflexivity.
Qed.

(** C5. The test-and-set [setBit], on every shard and every offset
    within it, returns false exactly when the bit was set before the
    call, and otherwise sets it and returns true; afterwards the bit is
    set and no other bit has changed.  The same holds of a worker that
    leaves [setBit] among the steps of other workers, at the step that
    decides its result, and of the test-and-set of the disk engine.  No
    step of a run clears a bit. *)
Theorem setBit_is_a_test_and_set :
  (forall m si off,
     Concurrent.wf_mem m -> (si < Z.to_nat Concurrent.numShards)%nat ->
     0 <= off < 32 * Concurrent.wordsPerShard ->
     exists m',
       Concurrent.setBit m si off = Some (m', negb (Concurrent.shard_bit m si off)) /\
       Concurrent.shard_bit m' si off = true /\
       (forall sj off', 0 <= off' -> sj <> si \/ off' <> off ->
          Concurrent.shard_bit m' sj off' = Concurrent.shard_bit m sj off')) /\
  (forall TrimSpace ParseIPv4 st i ip p todo count st' todo' count',
     Concurrent.pc_ok (Concurrent.shards st) ip p -> 0 <= ip ->
     Concurrent.workers st !! i = Some (Concurrent.InSetBit ip p todo count) ->
     Concurrent.worker_step TrimSpace ParseIPv4 i (Concurrent.InSetBit ip p todo count) st
       = Concurrent.Next st' ->
     Concurrent.workers st' !! i = Some (Concurrent.Running todo' count') ->
     let si := Z.to_nat (ip mod Concurrent.numShards) in
     let off := ip / Concurrent.numShards in
     (count' = count /\ Concurrent.shards st' = Concurrent.shards st /\
      Concurrent.shard_bit (Concurrent.shards st) si off = true) \/
     (count' = int64 (count + 1) /\
      Concurrent.shard_bit (Concurrent.shards st) si off = false /\
      Concurrent.shard_bit (Concurrent.shards st') si off = true /\
      forall sj off', 0 <= off' -> sj <> si \/ off' <> off ->
        Concurrent.shard_bit (Concurrent.shards st') sj off'
        = Concurrent.shard_bit (Concurrent.shards st) sj off')) /\
  (forall TrimSpace ParseIPv4 st st' sj off,
     rtc (Concurrent.step TrimSpace ParseIPv4) st st' ->
     Concurrent.shard_bit (Concurrent.shards st) sj off = true ->
     Concurrent.shard_bit (Concurrent.shards st') sj off = true) /\
  (forall bitset s,
     0 <= s < 32 * Z.of_nat (length bitset) ->
     exists bitset',
       Bucket.test_and_set bitset s = Some (bitset', negb (bit_at bitset s)) /\
       bit_at bitset' s = true /\
       (forall j, 0 <= j -> j <> s -> bit_at bitset' j = bit_at bitset j) /\
       (forall j, 0 <= j -> bit_at bitset j = true -> bit_at bitset' j = true)).
Proof.
  split; [|split; [|split]].
  - intros m si off Hwf Hsi Hoff.
    destruct (Concurrent.setBit_spec m si off Hwf Hsi Hoff)
      as (m' & H1 & _ & H2 & H3).
    exists m'. auto.
  - intros TrimSpace ParseIPv4 st i ip p todo count st' todo' count' Hok Hip Hw Hs Hw'.
    exact (Concurrent.setBit_return TrimSpace ParseIPv4 st i ip p todo count st'
             Hok Hip Hw Hs todo' count' Hw').
  - intros TrimSpace ParseIPv4 st st' sj off.
    apply Concurrent.steps_shard_bit.
  - intros bitset s Hs.
    destruct (Bucket.test_and_set_spec bitset s Hs) as (bitset' & H1 & _ & H2).
    exists bitset'. split; [exact H1|]. split; [|split].
    + rewrite H2 by lia. rewrite Z.eqb_refl. apply Bool.orb_true_r.
    + intros j Hj Hne. rewrite H2 by exact Hj.
      destruct (Z.eqb_spec j s); [contradiction|]. apply Bool.orb_false_r.
    + intros j Hj Hb. rewrite H2 by exact Hj. rewrite Hb. reflexivity.
Qed.

Lemma setBit_is_a_test_and_set_example :
  (exists m',
     Concurrent.setBit Concurrent.New 5 3 = Some (m', true) /\
     Concurrent.shard_bit m' 5 3 = true /\
     (forall sj off', 0 <= off' -> sj <> 5%nat \/ off' <> 3 ->
        Concurrent.shard_bit m' sj off' = Concurrent.shard_bit Concurrent.New sj off')) /\
  (exists bitset',
     Bucket.test_and_set [0; 0] 33 = Some (bitset', true) /\
     bit_at bitset' 33 = true /\
     (forall j, 0 <= j -> j <> 33 -> bit_at bitset' j = bit_at [0; 0] j) /\
     (forall j, 0 <= j -> bit_at [0; 0] j = true -> bit_at bitset' j = true)).
Proof.
  destruct setBit_is_a_test_and_set as (H1 & _ & _ & H4).
  split.
  - apply (H1 Concurrent.New 5%nat 3 Concurrent.wf_mem_New).
    + apply Nat.ltb_lt. reflexivity.
    + split; [discriminate|reflexivity].
  - apply (H4 [0; 0] 33). split; [discriminate|reflexivity].
Defined.

(** C6. For every 32-bit address [a], with shard [a mod numShards] and
    offset [a / numShards], the word index [offset / 32] is less than
    [wordsPerShard], which is [ceil(ceil(2^32 / numShards) / 32)]: the
    access [s.words[wordIdx]] of [setBit] is within the array, [setBit]
    does not panic, and no run of the engine on a fresh counter reaches
    a step out of bounds. *)
Theorem shard_word_index_in_bounds
    (TrimSpace : list byte -> list byte) (ParseIPv4 : list byte -> option Z)
    (ParseIPv4_u32 : forall l x, ParseIPv4 l = Some x -> 0 <= x < 2 ^ 32)
    (a : Z) :
  0 <= a < 2 ^ 32 ->
  Concurrent.wordsPerShard
    = ((2 ^ 32 + Concurrent.numShards - 1) / Concurrent.numShards + 31) / 32 /\
  (Z.to_nat (a mod Concurrent.numShards) < Z.to_nat Concurrent.numShards)%nat /\
  0 <= a / Concurrent.numShards / 32 < Concurrent.wordsPerShard /\
  (forall m, Concurrent.wf_mem m ->
     exists m' b,
       Concurrent.setBit m (Z.to_nat (a mod Concurrent.numShards))
         (a / Concurrent.numShards) = Some (m', b)) /\
  (forall numWorkers chunks st,
     rtc (Concurrent.step TrimSpace ParseIPv4)
         (Concurrent.init Concurrent.New numWorkers chunks) st ->
     ~ Concurrent.crashes TrimSpace ParseIPv4 st).
Proof.
  intros Ha. split; [reflexivity|].
  split; [apply Concurrent.shard_index_range; lia|].
  pose proof (Concurrent.word_index_range a Ha) as Hw.
  split; [exact Hw|]. split.
  - intros m Hwf.
    destruct (Concurrent.setBit_spec m (Z.to_nat (a mod Concurrent.numShards))
                (a / Concurrent.numShards) Hwf) as (m' & Hs & _).
    + apply Concurrent.shard_index_range. lia.
    + rewrite Concurrent.numShards_val, Concurrent.wordsPerShard_val in *.
      split; [apply Z.div_pos; lia|].
      apply Z.div_lt_upper_bound; lia.
    + eauto.
  - intros numWorkers chunks st.
    apply Concurrent.run_no_crash, ParseIPv4_u32.
Qed.

Lemma shard_word_index_in_bounds_example :
  0 <= 4294967295 / Concurrent.numShards / 32 < Concurrent.wordsPerShard /\
  (forall m, Concurrent.wf_mem m ->
     exists m' b,
       Concurrent.setBit m (Z.to_nat (4294967295 mod Concurrent.numShards))
         (4294967295 / Concurrent.numShards) = Some (m', b)).
Proof.
  assert (Ha : 0 <= 4294967295 < 2 ^ 32) by (split; [discriminate|reflexivity]).
  destruct (shard_word_index_in_bounds Codec.TrimSpace Codec.ParseIPv4
              Codec.ParseIPv4_u32 4294967295 Ha) as (_ & _ & H3 & H4 & _).
  split; [exact H3|exact H4].
Defined.

(** A file with the addresses 1.2.3.4 and 5.6.7.8. *)
Definition two_addresses_file : list byte :=
  Codec.bytes "1.2.3.4" ++ [newline] ++ Codec.bytes "5.6.7.8" ++ [newline].

(** The file system refuses every write to the file of bucket 1. *)
Definition bucket1_full (i : nat) : option (nat * cause) :=
  if Nat.eqb i 1 then Some (0%nat, "no space left on device"%string) else None.

(** C7. (The code differs.)  In the disk engine a failed write to a
    bucket file, in pass 1 or at the flush that ends it, is not
    reported: whatever writes fail, the call returns a count and no
    error.  On the file with 1.2.3.4 and 5.6.7.8, when the writes to the
    file of bucket 1 fail, it returns 1, and 2 when nothing fails. *)
Theorem write_failure_is_not_reported
    (TrimSpace : list byte -> list byte) (ParseIPv4 : list byte -> option Z)
    (file : list byte) (faults : nat -> option (nat * cause)) :
  (exists n, Bucket.CountUniqueIPs TrimSpace ParseIPv4
               (Bucket.with_write_faults file faults) = Ok n) /\
  Bucket.CountUniqueIPs Codec.TrimSpace Codec.ParseIPv4
    (Bucket.with_write_faults two_addresses_file bucket1_full) = Ok 1 /\
  Bucket.CountUniqueIPs Codec.TrimSpace Codec.ParseIPv4
    (Bucket.healthy two_addresses_file) = Ok 2.
Proof.
  split; [|split].
  - rewrite Bucket.CountUniqueIPs_write_faults. eauto.
  - rewrite Bucket.CountUniqueIPs_write_faults. reflexivity.
  - rewrite Bucket.CountUniqueIPs_healthy by apply Codec.ParseIPv4_u32.
    reflexivity.
Qed.

(** C8. In pass 2 of the disk engine, fewer than four bytes left at the
    end of a bucket file end the stream like the end of the file: no
    error is returned, and the count of the bucket and its bit array
    are those of the whole records read before. *)
Theorem short_record_ends_the_stream
    (i : nat) (s tail : list byte) (sufs : list Z) (bitset : list Z) (added : Z) :
  (length tail < 4)%nat -> (length s mod 4 = 0)%nat ->
  Forall (fun r => 0 <= r < 2 ^ 24) sufs ->
  Bucket.count_records i None (s ++ tail) bitset added
    = Bucket.count_records i None s bitset added /\
  Bucket.count_records i None tail bitset added = Ok added /\
  Bucket.count_records i None (Bucket.encode sufs ++ tail)
    (make Bucket.wordsPerSet) 0 = Ok (distinct sufs).
Proof.
  intros Ht Hs Hsufs. split; [|split].
  - apply Bucket.count_records_tail; assumption.
  - apply Bucket.count_records_short, Ht.
  - rewrite Forall_forall in Hsufs.
    rewrite Bucket.count_records_fresh.
    + rewrite Bucket.records_encode; [reflexivity| |exact Ht].
      intros x Hx. specialize (Hsufs x Hx). lia.
    + rewrite Bucket.records_encode; [exact Hsufs| |exact Ht].
      intros x Hx. specialize (Hsufs x Hx). lia.
Qed.

Lemma short_record_ends_the_stream_example :
  Bucket.count_records 1 None (Bucket.encode [131844; 131844; 7] ++ [x00; x02])
    (make Bucket.wordsPerSet) 0 = Ok 2.
Proof.
  refine (proj2 (proj2 (short_record_ends_the_stream 1 [] [x00; x02]
            [131844; 131844; 7] [] 0 _ _ _))).
  - apply Nat.ltb_lt. reflexivity.
  - reflexivity.
  - repeat constructor; discriminate.
Defined.

(** The scenario without the lines that are skipped. *)
Definition scenario_clean : list byte :=
  Codec.bytes "1.2.3.4" ++ [newline] ++ Codec.bytes "1.2.3.4" ++ [newline] ++
  Codec.bytes "5.6.7.8".

(** A file of lines that are no addresses and of blank lines. *)
Definition junk_file : list byte :=
  Codec.bytes "999.999.999.999" ++ [newline] ++ Codec.bytes "1.2.3" ++ [newline] ++
  Codec.bytes "abc" ++ [newline] ++ Codec.bytes "   " ++ [newline] ++ [newline].

(** C9. In both engines a line that is blank after trimming, or that
    the codec rejects, is skipped: the call returns a count and never
    an error, the count depends only on the lines that stand for an
    address, and a file of skipped lines only yields the count 0. *)
Theorem skipped_lines_do_not_count
    (TrimSpace : list byte -> list byte) (ParseIPv4 : list byte -> option Z)
    (TrimSpace_nil : TrimSpace [] = [])
    (ParseIPv4_u32 : forall l a, ParseIPv4 l = Some a -> 0 <= a < 2 ^ 32)
    (file file' : list byte) (blocks blocks' : list (list byte))
    (numWorkers : nat) :
  concat blocks = file -> concat blocks' = file' -> (0 < numWorkers)%nat ->
  (exists n,
     Bucket.CountUniqueIPs TrimSpace ParseIPv4 (Bucket.healthy file) = Ok n /\
     (exists r, Concurrent.CountUniqueIPs TrimSpace ParseIPv4 Concurrent.New
                  numWorkers None (Concurrent.blocks_reader blocks) r) /\
     (forall r, Concurrent.CountUniqueIPs TrimSpace ParseIPv4 Concurrent.New
                  numWorkers None (Concurrent.blocks_reader blocks) r -> r = Ok n)) /\
  (counted_lines TrimSpace ParseIPv4 file = counted_lines TrimSpace ParseIPv4 file' ->
     Bucket.CountUniqueIPs TrimSpace ParseIPv4 (Bucket.healthy file)
       = Bucket.CountUniqueIPs TrimSpace ParseIPv4 (Bucket.healthy file') /\
     (forall r r',
        Concurrent.CountUniqueIPs TrimSpace ParseIPv4 Concurrent.New
          numWorkers None (Concurrent.blocks_reader blocks) r ->
        Concurrent.CountUniqueIPs TrimSpace ParseIPv4 Concurrent.New
          numWorkers None (Concurrent.blocks_reader blocks') r' -> r = r')) /\
  (Forall (skipped_line TrimSpace ParseIPv4) (split_lines file) ->
     Bucket.CountUniqueIPs TrimSpace ParseIPv4 (Bucket.healthy file) = Ok 0 /\
     (forall r, Concurrent.CountUniqueIPs TrimSpace ParseIPv4 Concurrent.New
                  numWorkers None (Concurrent.blocks_reader blocks) r -> r = Ok 0)).
Proof.
  intros <- <- Hnw.
  pose proof (Bucket.CountUniqueIPs_healthy TrimSpace ParseIPv4 ParseIPv4_u32) as HB.
  destruct (Concurrent.CountUniqueIPs_count TrimSpace ParseIPv4 TrimSpace_nil
              ParseIPv4_u32 blocks numWorkers Hnw) as [HC1 HC2].
  destruct (Concurrent.CountUniqueIPs_count TrimSpace ParseIPv4 TrimSpace_nil
              ParseIPv4_u32 blocks' numWorkers Hnw) as [_ HC2'].
  split; [|split].
  - eexists. split; [apply HB|]. split; [exact HC1|exact HC2].
  - intros Hl.
    assert (Hv : valid_addresses TrimSpace ParseIPv4 (concat blocks)
                 = valid_addresses TrimSpace ParseIPv4 (concat blocks')).
    { rewrite !valid_addresses_counted, Hl. reflexivity. }
    split.
    + rewrite !HB, Hv. reflexivity.
    + intros r r' Hr Hr'. rewrite (HC2 r Hr), (HC2' r' Hr'), Hv. reflexivity.
  - intros Hs. apply valid_addresses_skipped in Hs.
    split.
    + rewrite HB, Hs. reflexivity.
    + intros r Hr. rewrite (HC2 r Hr), Hs. reflexivity.
Qed.

Lemma skipped_lines_do_not_count_example :
  Bucket.CountUniqueIPs Codec.TrimSpace Codec.ParseIPv4 (Bucket.healthy junk_file)
    = Ok 0 /\
  (forall r, Concurrent.CountUniqueIPs Codec.TrimSpace Codec.ParseIPv4 Concurrent.New
               2 None (Concurrent.blocks_reader [junk_file]) r -> r = Ok 0) /\
  Bucket.CountUniqueIPs Codec.TrimSpace Codec.ParseIPv4 (Bucket.healthy scenario)
    = Bucket.CountUniqueIPs Codec.TrimSpace Codec.ParseIPv4
        (Bucket.healthy scenario_clean).
Proof.
  destruct (skipped_lines_do_not_count Codec.TrimSpace Codec.ParseIPv4
              Codec.TrimSpace_nil Codec.ParseIPv4_u32 junk_file junk_file
              [junk_file] [junk_file] 2 (app_nil_r _) (app_nil_r _)
              (Nat.lt_0_succ 1))
    as (_ & _ & H3).
  destruct (skipped_lines_do_not_count Codec.TrimSpace Codec.ParseIPv4
              Codec.TrimSpace_nil Codec.ParseIPv4_u32 scenario scenario_clean
              [scenario] [scenario_clean] 2 (app_nil_r _) (app_nil_r _)
              (Nat.lt_0_succ 1))
    as (_ & H2 & _).
  assert (Hj : Forall (skipped_line Codec.TrimSpace Codec.ParseIPv4)
                 (split_lines junk_file)).
  { repeat constructor; solve [left; reflexivity | right; reflexivity]. }
  split; [apply H3, Hj|]. split; [apply H3, Hj|].
  apply H2. reflexivity.
Defined.

(** C10. In the disk engine every index of a call is within its
    array: the index of the writer is a byte, less than [numBuckets];
    pass 1 writes only values [ip & 0x00FFFFFF], less than 2^24; so
    every record pass 2 decodes from a bucket file, whatever failed
    while it was written or read, is less than 2^24 and its word index
    [suffix >> 5] is less than [wordsPerSet]; and the call never panics
    on an index out of range. *)
Theorem bucket_indexes_in_bounds
    (TrimSpace : list byte -> list byte) (ParseIPv4 : list byte -> option Z)
    (W : Bucket.world) (ip : Z) (i : nat) (addrs : list Z) :
  0 <= Bucket.top_of ip < Bucket.numBuckets /\
  0 <= Bucket.suffix_of ip < 2 ^ 24 /\
  0 <= Z.shiftr (Bucket.suffix_of ip) 5 < Bucket.wordsPerSet /\
  Forall (fun r => 0 <= r < 2 ^ 24 /\ 0 <= Z.shiftr r 5 < Bucket.wordsPerSet)
    (Bucket.records (fst (Bucket.bucket_stream W i
       (Bucket.truncate (Bucket.write_fault W i)
          (Bucket.encode (Bucket.bucket_sufs i addrs)))))) /\
  Bucket.CountUniqueIPs TrimSpace ParseIPv4 W <> Panic.
Proof.
  assert (Hw : forall r, 0 <= r < 2 ^ 24 -> 0 <= Z.shiftr r 5 < Bucket.wordsPerSet).
  { intros r Hr. rewrite shiftr_5, Bucket.wordsPerSet_val.
    split; [apply Z.div_pos; lia|apply Z.div_lt_upper_bound; lia]. }
  pose proof (Bucket.suffix_of_range ip) as Hs.
  split; [apply Bucket.top_of_range|]. split; [exact Hs|].
  split; [apply Hw, Hs|]. split.
  - apply Forall_forall. intros r Hr.
    apply Bucket.bucket_stream_range in Hr. auto.
  - apply Bucket.CountUniqueIPs_no_panic.
Qed.
(** * Further properties of the code

    What follows covers the paths of the two engines the properties
    above leave out: the errors of the calls, the reader of the
    producer, the temporary files, and the runs of the workers. *)

(** ** The producer and its reader (concurrent.go, lines 115-167) *)

Module Reader.

Import Concurrent.

(** A read after which the loop goes on: it is not at the end of the
    file, and it does not return an error with no bytes. *)
Definition continues (x : list byte * read_status) : Prop :=
  match snd x with
  | RNil => True
  | REOF => False
  | RFail _ => fst x <> []
  end.

(** The data of the reads up to the first that reports the end of the
    file. *)
Fixpoint consumed (reads : list (list byte * read_status)) : list (list byte) :=
  match reads with
  | [] => []
  | (data, REOF) :: _ => [data]
  | (data, _) :: rest => data :: consumed rest
  end.

(** One round of the loop on a read that is not the last. *)
Lemma producer_continues data st rest carry :
  continues (data, st) ->
  producer ((data, st) :: rest) carry =
  match LastIndexByte data newline with
  | None => producer rest (carry ++ data)
  | Some cut => send (carry ++ take (cut + 1) data) (producer rest (drop (cut + 1) data))
  end.
Proof.
  destruct st as [| |c]; [|contradiction|].
  - intros _. destruct data; reflexivity.
  - destruct data as [|b data]; [intros []; reflexivity|]. intros _. reflexivity.
Qed.

(** The round of the loop on the read that reports the end of the file. *)
Lemma producer_eof data rest carry :
  producer ((data, REOF) :: rest) carry =
  match LastIndexByte data newline with
  | None => inr (flush (carry ++ data))
  | Some cut => inr ((carry ++ take (cut + 1) data) :: flush (drop (cut + 1) data))
  end.
Proof.
  destruct data as [|b data].
  - cbn [producer LastIndexByte]. rewrite app_nil_r. reflexivity.
  - reflexivity.
Qed.

Lemma send_inl chunk r c : send chunk r = inl c <-> r = inl c.
Proof. destruct r; simpl; split; congruence. Qed.

Lemma producer_error_after pre c rest :
  Forall continues pre ->
  forall carry, producer (pre ++ ([], RFail c) :: rest) carry = inl c.
Proof.
  induction 1 as [|[data st] pre Hx _ IH]; intros carry; [reflexivity|].
  cbn [app]. rewrite producer_continues by exact Hx.
  destruct (LastIndexByte data newline); [|apply IH].
  apply send_inl, IH.
Qed.

Lemma producer_error_inv reads :
  forall carry c, producer reads carry = inl c ->
  exists pre rest, reads = pre ++ ([], RFail c) :: rest /\ Forall continues pre.
Proof.
  induction reads as [|[data st] reads IH]; intros carry c H; [discriminate|].
  destruct st as [| |c'].
  - rewrite producer_continues in H by exact I.
    assert (Hr : exists carry', producer reads carry' = inl c).
    { destruct (LastIndexByte data newline); [apply send_inl in H|]; eauto. }
    destruct Hr as (carry' & Hr).
    destruct (IH _ _ Hr) as (pre & rest & -> & Hpre).
    exists ((data, RNil) :: pre), rest. split; [reflexivity|].
    constructor; [exact I|exact Hpre].
  - rewrite producer_eof in H. destruct (LastIndexByte data newline); discriminate.
  - destruct data as [|b data].
    + injection H as ->. exists [], reads. split; [reflexivity|constructor].
    + rewrite producer_continues in H by discriminate.
      assert (Hr : exists carry', producer reads carry' = inl c).
      { destruct (LastIndexByte (b :: data) newline); [apply send_inl in H|]; eauto. }
      destruct Hr as (carry' & Hr).
      destruct (IH _ _ Hr) as (pre & rest & -> & Hpre).
      exists ((b :: data, RFail c') :: pre), rest. split; [reflexivity|].
      constructor; [discriminate|exact Hpre].
Qed.

(** When no read error is returned, the chunks are those of a reader
    that hands over the same data and never fails. *)
Lemma producer_consumed reads :
  forall carry,
  (forall c, producer reads carry <> inl c) ->
  producer reads carry = producer (blocks_reader (consumed reads)) carry.
Proof.
  induction reads as [|[data st] reads IH]; intros carry Hok; [reflexivity|].
  assert (Hgo : continues (data, st) ->
    producer ((data, st) :: reads) carry
    = producer (blocks_reader (data :: consumed reads)) carry).
  { intros Hx. rewrite producer_continues in Hok |- * by exact Hx.
    change (blocks_reader (data :: consumed reads))
      with ((data, RNil) :: blocks_reader (consumed reads)).
    rewrite (producer_continues data RNil) by exact I.
    destruct (LastIndexByte data newline) as [cut|].
    - rewrite IH; [reflexivity|].
      intros c Hc. apply (Hok c), send_inl, Hc.
    - apply IH, Hok. }
  destruct st as [| |c'].
  - apply Hgo, I.
  - rewrite producer_eof. cbn [consumed].
    change (blocks_reader [data]) with [(data, RNil)].
    rewrite (producer_continues data RNil) by exact I.
    destruct (LastIndexByte data newline); reflexivity.
  - destruct data as [|b data].
    + exfalso. apply (Hok c'). reflexivity.
    + apply Hgo. discriminate.
Qed.

End Reader.

(** X1. The concurrent engine returns a read error exactly when a read
    gives no bytes and an error that is not the end of the file, before
    any read has reported the end of the file.  The error of a read that
    also gave bytes is not looked at: its bytes are processed and the
    loop goes on.  The call then returns that error whatever the counter
    and the workers, and the error of [os.Open] when the file cannot be
    opened. *)
Theorem read_error_is_returned
    (TrimSpace : list byte -> list byte) (ParseIPv4 : list byte -> option Z)
    (b : list Concurrent.shard) (numWorkers : nat)
    (reads : list (list byte * Concurrent.read_status)) (c : cause) :
  (Concurrent.producer reads [] = inl c <->
   exists pre rest,
     reads = pre ++ ([], Concurrent.RFail c) :: rest /\
     Forall Reader.continues pre) /\
  (Concurrent.producer reads [] = inl c ->
   forall r, Concurrent.CountUniqueIPs TrimSpace ParseIPv4 b numWorkers None reads r
             <-> r = Err (Concurrent.ErrReadError c)) /\
  (forall r, Concurrent.CountUniqueIPs TrimSpace ParseIPv4 b numWorkers (Some c) reads r
             <-> r = Err (Concurrent.ErrOpen c)).
Proof.
  split; [|split].
  - split.
    + apply Reader.producer_error_inv.
    + intros (pre & rest & -> & Hpre). apply Reader.producer_error_after, Hpre.
  - intros Hp r. unfold Concurrent.CountUniqueIPs. rewrite Hp. reflexivity.
  - intros r. reflexivity.
Qed.

(** A reader that gives a line and a half, and then fails. *)
Definition failing_reads : list (list byte * Concurrent.read_status) :=
  [(Codec.bytes "1.2.3.4" ++ [newline] ++ Codec.bytes "5.6",
    Concurrent.RFail "input/output error"%string);
   ([], Concurrent.RFail "input/output error"%string)].

Lemma read_error_is_returned_example :
  Concurrent.producer failing_reads [] = inl "input/output error"%string /\
  (forall r, Concurrent.CountUniqueIPs Codec.TrimSpace Codec.ParseIPv4 Concurrent.New 4
               None failing_reads r
             <-> r = Err (Concurrent.ErrReadError "input/output error"%string)).
Proof.
  destruct (read_error_is_returned Codec.TrimSpace Codec.ParseIPv4 Concurrent.New 4
              failing_reads "input/output error"%string) as (H1 & H2 & _).
  assert (Hp : Concurrent.producer failing_reads [] = inl "input/output error"%string).
  { apply H1. eexists [_], []. split; [reflexivity|].
    constructor; [discriminate|constructor]. }
  split; [exact Hp|exact (H2 Hp)].
Defined.

(** X2. The chunks of the producer depend only on the bytes read up to
    the first read that reports the end of the file: no read is made
    after it, and the status of a read that gave bytes matters only when
    it is the end of the file.  So with every reader that does not make
    the call return a read error, the call on a fresh counter returns
    the number of distinct addresses among the bytes read. *)
Theorem count_for_any_reader
    (TrimSpace : list byte -> list byte) (ParseIPv4 : list byte -> option Z)
    (TrimSpace_nil : TrimSpace [] = [])
    (ParseIPv4_u32 : forall l a, ParseIPv4 l = Some a -> 0 <= a < 2 ^ 32)
    (reads : list (list byte * Concurrent.read_status)) (numWorkers : nat) :
  (forall c, Concurrent.producer reads [] <> inl c) -> (0 < numWorkers)%nat ->
  let file := concat (Reader.consumed reads) in
  Concurrent.producer reads []
    = Concurrent.producer (Concurrent.blocks_reader (Reader.consumed reads)) [] /\
  (exists r, Concurrent.CountUniqueIPs TrimSpace ParseIPv4 Concurrent.New
               numWorkers None reads r) /\
  (forall r, Concurrent.CountUniqueIPs TrimSpace ParseIPv4 Concurrent.New
               numWorkers None reads r ->
             r = Ok (distinct (valid_addresses TrimSpace ParseIPv4 file))).
Proof.
  intros Hok Hnw file.
  pose proof (Reader.producer_consumed reads [] Hok) as Hp.
  split; [exact Hp|].
  unfold Concurrent.CountUniqueIPs. rewrite Hp.
  apply (Concurrent.CountUniqueIPs_count TrimSpace ParseIPv4 TrimSpace_nil
           ParseIPv4_u32 (Reader.consumed reads) numWorkers Hnw).
Qed.

(** A reader that reports the end of the file with its second block,
    and would have more to give. *)
Definition eof_reads : list (list byte * Concurrent.read_status) :=
  [(Codec.bytes "1.2.3.4" ++ [newline] ++ Codec.bytes "1.2", Concurrent.RNil);
   (Codec.bytes ".3.4", Concurrent.REOF);
   (Codec.bytes "9.9.9.9", Concurrent.RNil)].

Lemma count_for_any_reader_example :
  (exists r, Concurrent.CountUniqueIPs Codec.TrimSpace Codec.ParseIPv4 Concurrent.New
               2 None eof_reads r) /\
  (forall r, Concurrent.CountUniqueIPs Codec.TrimSpace Codec.ParseIPv4 Concurrent.New
               2 None eof_reads r -> r = Ok 1).
Proof.
  refine (proj2 (count_for_any_reader Codec.TrimSpace Codec.ParseIPv4
            Codec.TrimSpace_nil Codec.ParseIPv4_u32 eof_reads 2 _ (Nat.lt_0_succ 1))).
  intros c. discriminate.
Defined.

(** ** The errors of the disk engine (bitbucket.go, lines 26-139) *)

Module Faults.

Import Bucket.

Section Errors.

Variable TrimSpace : list byte -> list byte.
Variable ParseIPv4 : list byte -> option Z.
Variable W : world.

(** No operation whose error the call checks fails. *)
Definition no_failure : Prop :=
  mkdtemp_fail W = None /\
  (forall i, (i < 256)%nat -> create_fail W i = None) /\
  open_fail W = None /\
  read_fail W = None /\
  (forall i, (i < 256)%nat ->
     bucket_open_fail W i = None /\ bucket_read_fault W i = None).

(** Some operation whose error the call checks fails. *)
Definition checked_failure : Prop :=
  mkdtemp_fail W <> None \/
  (exists i, (i < 256)%nat /\ create_fail W i <> None) \/
  open_fail W <> None \/
  read_fail W <> None \/
  (exists i, (i < 256)%nat /\
     (bucket_open_fail W i <> None \/ bucket_read_fault W i <> None)).

(** The bucket files pass 2 reads, when pass 1 went through. *)
Definition files_of_input : list (list byte) :=
  flushClose W (foldl (store W) (replicate 256 new_writer)
                  (valid_addresses TrimSpace ParseIPv4 (input W))).

Lemma create_buckets_first n :
  forall i j c,
  (i <= j < i + n)%nat ->
  (forall k, (i <= k < j)%nat -> create_fail W k = None) ->
  create_fail W j = Some c ->
  create_buckets W i n = inl c.
Proof.
  induction n as [|n IH]; intros i j c Hj Hbefore Hc; [lia|].
  cbn [create_buckets]. destruct (decide (i = j)) as [->|Hne].
  - rewrite Hc. reflexivity.
  - rewrite Hbefore by lia. rewrite (IH (S i) j c); [reflexivity|lia| |exact Hc].
    intros k Hk. apply Hbefore. lia.
Qed.

Lemma create_buckets_inl_inv n :
  forall i c, create_buckets W i n = inl c ->
  exists j, (i <= j < i + n)%nat /\ create_fail W j = Some c.
Proof.
  induction n as [|n IH]; intros i c; cbn [create_buckets]; [discriminate|].
  destruct (create_fail W i) as [c'|] eqn:E.
  - intros [= <-]. exists i. split; [lia|exact E].
  - destruct (create_buckets W (S i) n) as [c'|ws] eqn:E'; [|discriminate].
    intros [= <-]. destruct (IH _ _ E') as (j & Hj & Hc).
    exists j. split; [lia|exact Hc].
Qed.

Lemma create_buckets_inr_inv n :
  forall i ws, create_buckets W i n = inr ws ->
  forall j, (i <= j < i + n)%nat -> create_fail W j = None.
Proof.
  induction n as [|n IH]; intros i ws; cbn [create_buckets]; [intros _ j Hj; lia|].
  destruct (create_fail W i) as [c'|] eqn:E; [discriminate|].
  destruct (create_buckets W (S i) n) as [c'|ws'] eqn:E'; [discriminate|].
  intros _ j Hj. destruct (decide (i = j)) as [<-|Hne]; [exact E|].
  apply (IH _ _ E'). lia.
Qed.

Lemma create_buckets_all n :
  forall i, (forall j, (i <= j < i + n)%nat -> create_fail W j = None) ->
  create_buckets W i n = inr (replicate n new_writer).
Proof.
  induction n as [|n IH]; intros i H; cbn [create_buckets]; [reflexivity|].
  rewrite H by lia. rewrite IH; [reflexivity|]. intros j Hj. apply H. lia.
Qed.

(** A stream that ends in a read failure gives no count. *)
Lemma count_records_fail i c s :
  forall bitset added,
  count_records i (Some c) s bitset added = Err (ErrReadBucket i c) \/
  count_records i (Some c) s bitset added = Panic.
Proof.
  induction s as [s Hl|b0 b1 b2 b3 rest IH] using quad_ind; intros bitset added.
  - left. apply count_records_short, Hl.
  - cbn [count_records].
    destruct (test_and_set bitset (Uint32 b0 b1 b2 b3)) as [[bitset' [|]]|];
      [apply IH|apply IH|right; reflexivity].
Qed.

(** A stream that ends at the end of the file gives no error. *)
Lemma count_records_eof i s :
  forall bitset added e, count_records i None s bitset added <> Err e.
Proof.
  induction s as [s Hl|b0 b1 b2 b3 rest IH] using quad_ind; intros bitset added e.
  - rewrite count_records_short by exact Hl. discriminate.
  - cbn [count_records].
    destruct (test_and_set bitset (Uint32 b0 b1 b2 b3)) as [[bitset' [|]]|];
      [apply IH|apply IH|discriminate].
Qed.

Lemma pass2_Ok_inv files n :
  forall i total t, pass2 W files i n total = Ok t ->
  forall j, (i <= j < i + n)%nat ->
    bucket_open_fail W j = None /\ bucket_read_fault W j = None.
Proof.
  induction n as [|n IH]; intros i total t; cbn [pass2]; [intros _ j Hj; lia|].
  destruct (bucket_open_fail W i) as [c|] eqn:Eo; [discriminate|].
  destruct (files !! i) as [content|]; [|discriminate].
  unfold bucket_stream.
  destruct (bucket_read_fault W i) as [[k c]|] eqn:Er.
  - destruct (count_records_fail i c (take k content) (make wordsPerSet) 0) as [-> | ->];
      discriminate.
  - destruct (count_records i None content (make wordsPerSet) 0) as [added|e|] eqn:Ec;
      [|discriminate|discriminate].
    intros H j Hj. destruct (decide (i = j)) as [<-|Hne]; [auto|].
    apply (IH _ _ _ H). lia.
Qed.

Lemma pass2_Err_inv files n :
  forall i total e, pass2 W files i n total = Err e ->
  (i + n <= length files)%nat ->
  exists j, (i <= j < i + n)%nat /\
    ((exists c, bucket_open_fail W j = Some c /\ e = ErrOpenBucket j c) \/
     (exists k c, bucket_read_fault W j = Some (k, c) /\ e = ErrReadBucket j c)).
Proof.
  induction n as [|n IH]; intros i total e; cbn [pass2]; [discriminate|].
  intros H Hlen.
  destruct (bucket_open_fail W i) as [c|] eqn:Eo.
  { injection H as <-. exists i. split; [lia|]. left. exists c. auto. }
  destruct (files !! i) as [content|] eqn:Ef.
  2:{ apply lookup_ge_None in Ef. lia. }
  unfold bucket_stream in H.
  destruct (bucket_read_fault W i) as [[k c]|] eqn:Er.
  - exists i. split; [lia|]. right. exists k, c. split; [exact Er|].
    destruct (count_records_fail i c (take k content) (make wordsPerSet) 0) as [E|E];
      rewrite E in H; congruence.
  - destruct (count_records i None content (make wordsPerSet) 0) as [added|e'|] eqn:Ec.
    + destruct (IH _ _ _ H) as (j & Hj & Hcase); [lia|].
      exists j. split; [lia|exact Hcase].
    + exfalso. exact (count_records_eof _ _ _ _ _ Ec).
    + discriminate.
Qed.

(** One round of pass 2 on a bucket file that opens. *)
Lemma pass2_round files i n total content :
  bucket_open_fail W i = None -> files !! i = Some content ->
  (forall r, r ∈ records (fst (bucket_stream W i content)) -> 0 <= r < 2 ^ 24) ->
  pass2 W files i (S n) total =
  match bucket_read_fault W i with
  | Some (_, c) => Err (ErrReadBucket i c)
  | None => pass2 W files (S i) n (int64 (total + distinct (records content)))
  end.
Proof.
  intros Ho Hf Hr. cbn [pass2]. rewrite Ho, Hf.
  unfold bucket_stream in *.
  destruct (bucket_read_fault W i) as [[k c]|]; cbn [fst] in Hr;
    rewrite count_records_fresh by exact Hr; reflexivity.
Qed.

(** Pass 2 stops at the first bucket file that fails to open or to read. *)
Lemma pass2_first files n :
  (forall j content r, files !! j = Some content ->
     r ∈ records (fst (bucket_stream W j content)) -> 0 <= r < 2 ^ 24) ->
  forall i total j,
  (i <= j < i + n)%nat -> (j < length files)%nat ->
  (forall k, (i <= k < j)%nat ->
     bucket_open_fail W k = None /\ bucket_read_fault W k = None) ->
  (forall c, bucket_open_fail W j = Some c ->
     pass2 W files i n total = Err (ErrOpenBucket j c)) /\
  (forall k c, bucket_open_fail W j = None -> bucket_read_fault W j = Some (k, c) ->
     pass2 W files i n total = Err (ErrReadBucket j c)).
Proof.
  intros Hr. induction n as [|n IH]; intros i total j Hj Hlen Hbefore; [lia|].
  destruct (decide (i = j)) as [->|Hne].
  - split.
    + intros c Hc. cbn [pass2]. rewrite Hc. reflexivity.
    + intros k c Ho Hf.
      destruct (files !! j) as [content|] eqn:Ef.
      2:{ apply lookup_ge_None in Ef. lia. }
      rewrite (pass2_round files j n total content Ho Ef (fun r => Hr j content r Ef)).
      rewrite Hf. reflexivity.
  - destruct (Hbefore i ltac:(lia)) as [Ho Hf].
    destruct (files !! i) as [content|] eqn:Ef.
    2:{ apply lookup_ge_None in Ef. lia. }
    rewrite (pass2_round files i n total content Ho Ef (fun r => Hr i content r Ef)).
    rewrite Hf.
    apply IH; [lia|exact Hlen|]. intros k Hk. apply Hbefore. lia.
Qed.

Lemma files_of_input_length : length files_of_input = 256%nat.
Proof.
  unfold files_of_input.
  rewrite flushClose_length, foldl_store_length, length_replicate. reflexivity.
Qed.

Lemma files_of_input_range j content r :
  files_of_input !! j = Some content ->
  r ∈ records (fst (bucket_stream W j content)) -> 0 <= r < 2 ^ 24.
Proof.
  intros Hj. assert (Hlt : (j < 256)%nat).
  { apply lookup_lt_Some in Hj. rewrite files_of_input_length in Hj. exact Hj. }
  unfold files_of_input in Hj.
  rewrite files_after_pass1 in Hj by exact Hlt. injection Hj as <-.
  apply bucket_stream_range.
Qed.

(** The call up to pass 2, when the temporary directory, the bucket
    files and the input open and the input is read to its end. *)
Lemma CountUniqueIPs_pass2 :
  mkdtemp_fail W = None ->
  (forall j, (j < 256)%nat -> create_fail W j = None) ->
  open_fail W = None ->
  read_fail W = None ->
  CountUniqueIPs TrimSpace ParseIPv4 W = pass2 W files_of_input 0 256 0.
Proof.
  intros Hm Hc Ho Hr. unfold CountUniqueIPs.
  rewrite Hm, numBuckets_nat, create_buckets_all, Ho by (intros j Hj; apply Hc; lia).
  rewrite pass1_read_all, Hr; [reflexivity|apply length_replicate|apply not_elem_of_nil].
Qed.

Lemma CountUniqueIPs_Ok_inv n :
  CountUniqueIPs TrimSpace ParseIPv4 W = Ok n -> no_failure.
Proof.
  unfold CountUniqueIPs, no_failure. rewrite numBuckets_nat.
  destruct (mkdtemp_fail W); [discriminate|].
  destruct (create_buckets W 0 256) as [c|ws] eqn:Ec; [discriminate|].
  pose proof (create_buckets_inr_inv _ _ _ Ec) as Hc.
  apply create_buckets_inr in Ec. subst ws.
  destruct (open_fail W); [discriminate|].
  rewrite pass1_read_all; [|apply length_replicate|apply not_elem_of_nil].
  destruct (read_fail W); [discriminate|].
  intros H. split; [reflexivity|]. split; [intros i Hi; apply Hc; lia|].
  split; [reflexivity|]. split; [reflexivity|].
  intros i Hi. apply (pass2_Ok_inv _ _ _ _ _ H). lia.
Qed.

Lemma CountUniqueIPs_Err_inv e :
  CountUniqueIPs TrimSpace ParseIPv4 W = Err e -> checked_failure.
Proof.
  unfold CountUniqueIPs, checked_failure. rewrite numBuckets_nat.
  destruct (mkdtemp_fail W); [intros _; left; discriminate|].
  destruct (create_buckets W 0 256) as [c|ws] eqn:Ec.
  { intros _. right. left. apply create_buckets_inl_inv in Ec as (j & Hj & Hc).
    exists j. split; [lia|congruence]. }
  apply create_buckets_inr in Ec. subst ws.
  destruct (open_fail W); [intros _; right; right; left; discriminate|].
  rewrite pass1_read_all; [|apply length_replicate|apply not_elem_of_nil].
  destruct (read_fail W); [intros _; right; right; right; left; discriminate|].
  intros H. right. right. right. right.
  apply pass2_Err_inv in H as (j & Hj & Hcase).
  - exists j. split; [lia|].
    destruct Hcase as [(c & -> & _)|(k & c & -> & _)]; [left|right]; discriminate.
  - rewrite flushClose_length, foldl_store_length, length_replicate. lia.
Qed.

Lemma no_failure_not_checked : no_failure -> ~ checked_failure.
Proof.
  intros (Hm & Hc & Ho & Hr & Hb) [H|[(i & Hi & H)|[H|[H|(i & Hi & [H|H])]]]];
    try contradiction.
  - apply H, Hc, Hi.
  - apply H, Hb, Hi.
  - apply H, Hb, Hi.
Qed.

Lemma checked_failure_Err :
  checked_failure -> exists e, CountUniqueIPs TrimSpace ParseIPv4 W = Err e.
Proof.
  intros Hf.
  pose proof (CountUniqueIPs_no_panic TrimSpace ParseIPv4 W) as Hp.
  pose proof CountUniqueIPs_Ok_inv as Hok.
  destruct (CountUniqueIPs TrimSpace ParseIPv4 W) as [n|e|]; [|eauto|contradiction].
  exfalso. exact (no_failure_not_checked (Hok n eq_refl) Hf).
Qed.

End Errors.

End Faults.

(** X3. The disk engine returns an error exactly when an operation
    whose error it checks fails: creating the temporary directory or one
    of the 256 bucket files, opening or reading the input, opening or
    reading one of the bucket files in pass 2.  It returns a count
    exactly when none of them fails; a failed write changes neither. *)
Theorem error_exactly_when_a_checked_operation_fails
    (TrimSpace : list byte -> list byte) (ParseIPv4 : list byte -> option Z)
    (W : Bucket.world) :
  ((exists n, Bucket.CountUniqueIPs TrimSpace ParseIPv4 W = Ok n)
   <-> Faults.no_failure W) /\
  ((exists e, Bucket.CountUniqueIPs TrimSpace ParseIPv4 W = Err e)
   <-> Faults.checked_failure W).
Proof.
  pose proof (Bucket.CountUniqueIPs_no_panic TrimSpace ParseIPv4 W) as Hp.
  pose proof (Faults.CountUniqueIPs_Ok_inv TrimSpace ParseIPv4 W) as Hok.
  pose proof (Faults.CountUniqueIPs_Err_inv TrimSpace ParseIPv4 W) as Herr.
  pose proof (Faults.no_failure_not_checked W) as Hex.
  destruct (Bucket.CountUniqueIPs TrimSpace ParseIPv4 W) as [n|e|];
    [| |contradiction].
  - specialize (Hok n eq_refl). split; split.
    + intros _. exact Hok.
    + intros _. exists n. reflexivity.
    + intros (e & He). discriminate.
    + intros Hf. exfalso. exact (Hex Hok Hf).
  - specialize (Herr e eq_refl). split; split.
    + intros (n & Hn). discriminate.
    + intros Hf. exfalso. exact (Hex Hf Herr).
    + intros _. exact Herr.
    + intros _. exists e. reflexivity.
Qed.

(** X4. The disk engine reports the first operation that fails, in the
    order it performs them: the temporary directory, the bucket files in
    the order of their index, opening the input, reading it, and in pass
    2 the bucket files in the order of their index, each opened and then
    read; what would fail later is not reached. *)
Theorem first_failure_is_reported
    (TrimSpace : list byte -> list byte) (ParseIPv4 : list byte -> option Z)
    (W : Bucket.world) (c : cause) :
  let call := Bucket.CountUniqueIPs TrimSpace ParseIPv4 W in
  (Bucket.mkdtemp_fail W = Some c -> call = Err (Bucket.ErrMkdtemp c)) /\
  (Bucket.mkdtemp_fail W = None ->
   (forall i, (i < 256)%nat ->
      (forall k, (k < i)%nat -> Bucket.create_fail W k = None) ->
      Bucket.create_fail W i = Some c -> call = Err (Bucket.ErrCreateBucket c)) /\
   ((forall k, (k < 256)%nat -> Bucket.create_fail W k = None) ->
    (Bucket.open_fail W = Some c -> call = Err (Bucket.ErrOpenInput c)) /\
    (Bucket.open_fail W = None ->
     (Bucket.read_fail W = Some c -> call = Err (Bucket.ErrRead c)) /\
     (Bucket.read_fail W = None ->
      forall i, (i < 256)%nat ->
        (forall k, (k < i)%nat ->
           Bucket.bucket_open_fail W k = None /\ Bucket.bucket_read_fault W k = None) ->
        (Bucket.bucket_open_fail W i = Some c ->
           call = Err (Bucket.ErrOpenBucket i c)) /\
        (Bucket.bucket_open_fail W i = None ->
         forall q, Bucket.bucket_read_fault W i = Some (q, c) ->
           call = Err (Bucket.ErrReadBucket i c)))))).
Proof.
  intros call. subst call. split.
  { intros Hm. unfold Bucket.CountUniqueIPs. rewrite Hm. reflexivity. }
  intros Hm. split.
  { intros i Hi Hbefore Hc. unfold Bucket.CountUniqueIPs.
    rewrite Hm, Bucket.numBuckets_nat.
    rewrite (Faults.create_buckets_first W 256 0 i c); [reflexivity|lia| |exact Hc].
    intros k Hk. apply Hbefore. lia. }
  intros Hcr. split.
  { intros Ho. unfold Bucket.CountUniqueIPs.
    rewrite Hm, Bucket.numBuckets_nat, Faults.create_buckets_all, Ho;
      [reflexivity|]. intros j Hj. apply Hcr. lia. }
  intros Ho. split.
  { intros Hr. unfold Bucket.CountUniqueIPs.
    rewrite Hm, Bucket.numBuckets_nat, Faults.create_buckets_all, Ho
      by (intros j Hj; apply Hcr; lia).
    rewrite Bucket.pass1_read_all, Hr;
      [reflexivity|apply length_replicate|apply not_elem_of_nil]. }
  intros Hr i Hi Hbefore.
  rewrite (Faults.CountUniqueIPs_pass2 TrimSpace ParseIPv4 W Hm Hcr Ho Hr).
  destruct (Faults.pass2_first W (Faults.files_of_input TrimSpace ParseIPv4 W) 256
              (Faults.files_of_input_range TrimSpace ParseIPv4 W) 0 0 i) as [H1 H2].
  - lia.
  - rewrite Faults.files_of_input_length. exact Hi.
  - intros k Hk. apply Hbefore. lia.
  - split; [apply H1|]. intros Hbo q. apply H2, Hbo.
Qed.

(** A world in which the fourth bucket file cannot be created, and the
    input could not be opened either. *)
Definition crowded_world : Bucket.world := {|
  Bucket.mkdtemp_fail := None;
  Bucket.create_fail := fun i =>
    if Nat.eqb i 3 then Some "too many open files"%string else None;
  Bucket.open_fail := Some "no such file or directory"%string;
  Bucket.input := [];
  Bucket.read_fail := None;
  Bucket.write_fault := fun _ => None;
  Bucket.bucket_open_fail := fun _ => None;
  Bucket.bucket_read_fault := fun _ => None;
|}.

Lemma first_failure_is_reported_example :
  Bucket.CountUniqueIPs Codec.TrimSpace Codec.ParseIPv4 crowded_world
  = Err (Bucket.ErrCreateBucket "too many open files"%string).
Proof.
  destruct (first_failure_is_reported Codec.TrimSpace Codec.ParseIPv4 crowded_world
              "too many open files"%string) as (_ & H).
  destruct (H eq_refl) as (H2 & _).
  apply (H2 3%nat); [lia| |reflexivity].
  intros k Hk. destruct k as [|[|[|k]]]; [reflexivity|reflexivity|reflexivity|lia].
Defined.

(** ** The temporary files of the disk engine (bitbucket.go, lines 66-133) *)

Module Files.

Import Bucket.

Lemma distinct_mono (l1 l2 : list Z) :
  (forall x, x ∈ l1 -> x ∈ l2) -> distinct l1 <= distinct l2.
Proof.
  intros H. unfold distinct. apply inj_le, submseteq_length.
  apply NoDup_submseteq; [apply NoDup_remove_dups|].
  intros x. rewrite !elem_of_remove_dups. apply H.
Qed.

Lemma sum_from_le f g n :
  forall i, (forall j, (i <= j < i + n)%nat -> f j <= g j) ->
  sum_from f i n <= sum_from g i n.
Proof.
  induction n as [|n IH]; intros i H; simpl; [lia|].
  pose proof (H i ltac:(lia)). pose proof (IH (S i) ltac:(intros j Hj; apply H; lia)).
  lia.
Qed.

(** What pass 2 decodes from a bucket file that a write fault cut short
    is a prefix of what pass 1 handed to its writer. *)
Lemma records_truncate fault sufs :
  (forall x, x ∈ sufs -> 0 <= x < 2 ^ 32) ->
  exists k, records (truncate fault (encode sufs)) = take k sufs.
Proof.
  intros Hr. destruct fault as [[q c]|]; cbn [truncate].
  - destruct (take_encode q sufs) as (k & tail & -> & Ht).
    exists k. apply records_encode; [|exact Ht].
    intros x Hx. apply Hr. rewrite <- (take_drop k sufs).
    apply elem_of_app. left. exact Hx.
  - exists (length sufs). rewrite firstn_all, <- (app_nil_r (encode sufs)).
    apply records_encode; [exact Hr|simpl; lia].
Qed.

Lemma truncate_all fault data :
  (forall q c, fault = Some (q, c) -> (length data <= q)%nat) ->
  truncate fault data = data.
Proof.
  destruct fault as [[q c]|]; [|reflexivity].
  intros H. cbn [truncate]. apply take_ge. eapply H. reflexivity.
Qed.

Section Count.

Variable TrimSpace : list byte -> list byte.
Variable ParseIPv4 : list byte -> option Z.
Hypothesis ParseIPv4_u32 : forall l a, ParseIPv4 l = Some a -> 0 <= a < 2 ^ 32.

Lemma bucket_sufs_u32 i file x :
  x ∈ bucket_sufs i (valid_addresses TrimSpace ParseIPv4 file) -> 0 <= x < 2 ^ 32.
Proof. intros Hx. apply bucket_sufs_range in Hx. lia. Qed.

Lemma distinct_by_bucket file :
  sum_from (fun i => distinct (records (encode
     (bucket_sufs i (valid_addresses TrimSpace ParseIPv4 file))))) 0 256
  = distinct (valid_addresses TrimSpace ParseIPv4 file).
Proof.
  set (addrs := valid_addresses TrimSpace ParseIPv4 file).
  rewrite (sum_from_ext _
    (fun i => distinct (filter (fun a => Z.to_nat (top_of a) = i) addrs))).
  - apply (distinct_classes (fun a => Z.to_nat (top_of a))).
    intros x _. pose proof (top_of_range x). lia.
  - intros j _. apply bucket_count_healthy. intros a.
    apply valid_addresses_range, ParseIPv4_u32.
Qed.

Lemma truncated_count_le fault i file :
  0 <= distinct (records (truncate fault (encode
         (bucket_sufs i (valid_addresses TrimSpace ParseIPv4 file)))))
    <= distinct (records (encode
         (bucket_sufs i (valid_addresses TrimSpace ParseIPv4 file)))).
Proof.
  split; [apply distinct_nonneg|].
  set (sufs := bucket_sufs i (valid_addresses TrimSpace ParseIPv4 file)).
  destruct (records_truncate fault sufs (bucket_sufs_u32 i file)) as (k & ->).
  destruct (records_truncate None sufs (bucket_sufs_u32 i file)) as (k' & Hk').
  cbn [truncate] in Hk'. rewrite <- (app_nil_r (encode sufs)) in Hk' |- *.
  rewrite records_encode in Hk' |- *;
    [|apply bucket_sufs_u32|simpl; lia|apply bucket_sufs_u32|simpl; lia].
  apply distinct_mono. intros x Hx. rewrite <- (take_drop k sufs).
  apply elem_of_app. left. exact Hx.
Qed.

End Count.

(** A call in which no checked operation fails is a call in which only
    writes may fail. *)
Lemma pass2_write_faults_only (W : world) files n :
  forall i total,
  (forall j, (i <= j < i + n)%nat ->
     bucket_open_fail W j = None /\ bucket_read_fault W j = None) ->
  pass2 W files i n total
  = pass2 (with_write_faults (input W) (write_fault W)) files i n total.
Proof.
  induction n as [|n IH]; intros i total H; [reflexivity|].
  cbn [pass2]. destruct (H i ltac:(lia)) as [Ho Hf]. rewrite Ho.
  cbn [with_write_faults bucket_open_fail].
  destruct (files !! i) as [content|]; [|reflexivity].
  unfold bucket_stream. rewrite Hf. cbn [with_write_faults bucket_read_fault].
  destruct (count_records i None content (make wordsPerSet) 0); try reflexivity.
  apply IH. intros j Hj. apply H. lia.
Qed.

Lemma CountUniqueIPs_write_faults_only TrimSpace ParseIPv4 (W : world) :
  Faults.no_failure W ->
  CountUniqueIPs TrimSpace ParseIPv4 W
  = CountUniqueIPs TrimSpace ParseIPv4 (with_write_faults (input W) (write_fault W)).
Proof.
  intros (Hm & Hc & Ho & Hr & Hb).
  rewrite (Faults.CountUniqueIPs_pass2 TrimSpace ParseIPv4 W Hm Hc Ho Hr).
  rewrite (Faults.CountUniqueIPs_pass2 TrimSpace ParseIPv4
             (with_write_faults (input W) (write_fault W)))
    by reflexivity.
  change (Faults.files_of_input TrimSpace ParseIPv4
            (with_write_faults (input W) (write_fault W)))
    with (Faults.files_of_input TrimSpace ParseIPv4 W).
  apply pass2_write_faults_only. intros j Hj. apply Hb. lia.
Qed.

(** The files that are read back hold as many bytes as were written. *)
Lemma sum_from_lengths (files : list (list byte)) (data : nat -> list byte) n :
  forall i, (forall j, (i <= j < i + n)%nat -> files !! j = Some (data j)) ->
  sum_from (fun j => Z.of_nat (length (default [] (files !! j)))) i n
  = sum_from (fun j => Z.of_nat (length (data j))) i n.
Proof.
  intros i H. apply sum_from_ext. intros j Hj. rewrite H by exact Hj. reflexivity.
Qed.

Lemma bucket_sufs_total addrs :
  sum_from (fun i => Z.of_nat (length (encode (bucket_sufs i addrs)))) 0 256
  = 4 * Z.of_nat (length addrs).
Proof.
  rewrite <- (sum_from_classes (fun a => Z.to_nat (top_of a)) addrs 256).
  2:{ intros x _. pose proof (top_of_range x). lia. }
  assert (H : forall n i,
    sum_from (fun i => Z.of_nat (length (encode (bucket_sufs i addrs)))) i n
    = 4 * sum_from (fun i => Z.of_nat (length
            (filter (fun x => Z.to_nat (top_of x) = i) addrs))) i n).
  { induction n as [|n IH]; intros i; simpl; [reflexivity|].
    rewrite IH, encode_length. unfold bucket_sufs. rewrite length_fmap. lia. }
  apply H.
Qed.

(** The first byte of a record is its bits 24 to 31. *)
Lemma Uint32_top b0 b1 b2 b3 : b0 <> x00 -> 2 ^ 24 <= Uint32 b0 b1 b2 b3.
Proof.
  intros Hb.
  pose proof (Z_of_byte_range b0) as R0. pose proof (Z_of_byte_range b1) as R1.
  pose proof (Z_of_byte_range b2) as R2. pose proof (Z_of_byte_range b3) as R3.
  assert (Hpos : 0 < Z_of_byte b0).
  { destruct (Z.eq_dec (Z_of_byte b0) 0) as [E|]; [|lia].
    exfalso. apply Hb. rewrite <- (byte_of_Z_of_byte b0), E. reflexivity. }
  assert (Hnn : 0 <= Uint32 b0 b1 b2 b3).
  { unfold Uint32. rewrite !Z.lor_nonneg, !Z.shiftl_nonneg. lia. }
  destruct (Z.lt_ge_cases (Uint32 b0 b1 b2 b3) (2 ^ 24)) as [Hlt|]; [exfalso|assumption].
  set (k := Z.log2 (Z_of_byte b0)).
  assert (Hk : 0 <= k < 8).
  { split; [apply Z.log2_nonneg|]. apply Z.log2_lt_pow2; [exact Hpos|]. lia. }
  assert (Hbit : Z.testbit (Uint32 b0 b1 b2 b3) (k + 24) = true).
  { unfold Uint32. rewrite !Z.lor_spec, (Z.shiftl_spec (Z_of_byte b0)) by lia.
    replace (k + 24 - 24) with k by lia.
    unfold k. rewrite Z.bit_log2 by exact Hpos. apply Bool.orb_true_r. }
  rewrite (testbit_above _ 24) in Hbit; [discriminate|lia|lia].
Qed.

End Files.

(** X5. Whenever the disk engine returns a count, the count is at most
    the number of distinct addresses of the input: a failed write can
    lose addresses and cannot add any.  The count is the right one when
    every write fault lies beyond what pass 1 wrote to its file. *)
Theorem returned_count_never_exceeds
    (TrimSpace : list byte -> list byte) (ParseIPv4 : list byte -> option Z)
    (ParseIPv4_u32 : forall l a, ParseIPv4 l = Some a -> 0 <= a < 2 ^ 32)
    (W : Bucket.world) (n : Z) :
  Bucket.CountUniqueIPs TrimSpace ParseIPv4 W = Ok n ->
  let addrs := valid_addresses TrimSpace ParseIPv4 (Bucket.input W) in
  0 <= n <= distinct addrs /\
  ((forall i q c, (i < 256)%nat -> Bucket.write_fault W i = Some (q, c) ->
      (4 * length (Bucket.bucket_sufs i addrs) <= q)%nat) ->
   n = distinct addrs).
Proof.
  intros Hn addrs. subst addrs.
  rewrite (Files.CountUniqueIPs_write_faults_only TrimSpace ParseIPv4 W) in Hn
    by (eapply Faults.CountUniqueIPs_Ok_inv, Hn).
  rewrite Bucket.CountUniqueIPs_write_faults in Hn.
  set (s := sum_from _ 0 256) in Hn.
  assert (Hs : n = s) by congruence. subst n. unfold s. clear Hn s.
  cbn [Bucket.with_write_faults Bucket.input].
  rewrite <- (Files.distinct_by_bucket TrimSpace ParseIPv4 ParseIPv4_u32 (Bucket.input W)).
  split; [split|].
  - rewrite <- (sum_from_zero 0 256). apply Files.sum_from_le. intros j _.
    apply distinct_nonneg.
  - apply Files.sum_from_le. intros j _. apply Files.truncated_count_le.
  - intros Hq. apply sum_from_ext. intros j Hj.
    rewrite Files.truncate_all; [reflexivity|].
    intros q c Hf. rewrite Bucket.encode_length. apply (Hq j q c); [lia|exact Hf].
Qed.

(** The file system refuses what follows the second record of bucket 1. *)
Definition bucket1_two_records (i : nat) : option (nat * cause) :=
  if Nat.eqb i 1 then Some (8%nat, "no space left on device"%string) else None.

Lemma returned_count_never_exceeds_example :
  Bucket.CountUniqueIPs Codec.TrimSpace Codec.ParseIPv4
    (Bucket.with_write_faults scenario bucket1_two_records) = Ok 2.
Proof.
  assert (H : exists n, Bucket.CountUniqueIPs Codec.TrimSpace Codec.ParseIPv4
                (Bucket.with_write_faults scenario bucket1_two_records) = Ok n).
  { rewrite Bucket.CountUniqueIPs_write_faults. eauto. }
  destruct H as (n & H).
  destruct (returned_count_never_exceeds Codec.TrimSpace Codec.ParseIPv4
              Codec.ParseIPv4_u32 _ n H) as (_ & Heq).
  rewrite H. f_equal. apply Heq. intros i q c Hi.
  destruct i as [|[|i]]; [discriminate| |discriminate].
  intros [= <- _]. apply Nat.leb_le. reflexivity.
Defined.

(** X6. When the input is read to its end, pass 1 leaves in the file
    of bucket [i], in the order of the input, the four big-endian bytes
    of the low-order 24 bits of each address whose top byte is [i], up
    to the byte at which a write to that file failed, and nothing else.
    When no write fails that is four bytes of temporary file for every
    line that stands for an address, duplicates included. *)
Theorem bucket_files_hold_the_suffixes
    (TrimSpace : list byte -> list byte) (ParseIPv4 : list byte -> option Z)
    (W : Bucket.world) :
  Bucket.read_fail W = None ->
  let addrs := valid_addresses TrimSpace ParseIPv4 (Bucket.input W) in
  exists ws,
    Bucket.pass1 TrimSpace ParseIPv4 W (Bucket.read_all (Bucket.input W) [])
      (replicate 256 Bucket.new_writer) = Ok ws /\
    length (Bucket.flushClose W ws) = 256%nat /\
    (forall i, (i < 256)%nat ->
       Bucket.flushClose W ws !! i
       = Some (Bucket.truncate (Bucket.write_fault W i)
                 (Bucket.encode
                    (Bucket.suffix_of <$>
                       filter (fun a => Z.to_nat (Bucket.top_of a) = i) addrs)))) /\
    ((forall i, (i < 256)%nat -> Bucket.write_fault W i = None) ->
     sum_from (fun i => Z.of_nat (length (default [] (Bucket.flushClose W ws !! i))))
       0 256 = 4 * Z.of_nat (length addrs)).
Proof.
  intros Hr addrs.
  rewrite Bucket.pass1_read_all, Hr by (apply length_replicate || apply not_elem_of_nil).
  eexists. split; [reflexivity|].
  split; [|split].
  - rewrite Bucket.flushClose_length, Bucket.foldl_store_length. apply length_replicate.
  - intros i Hi. apply Bucket.files_after_pass1, Hi.
  - intros Hw.
    rewrite (Files.sum_from_lengths _ (fun i => Bucket.encode (Bucket.bucket_sufs i addrs))).
    + apply Files.bucket_sufs_total.
    + intros i Hi. rewrite Bucket.files_after_pass1 by lia.
      rewrite Hw by lia. reflexivity.
Qed.

Lemma bucket_files_hold_the_suffixes_example :
  exists ws,
    Bucket.pass1 Codec.TrimSpace Codec.ParseIPv4 (Bucket.healthy scenario)
      (Bucket.read_all scenario []) (replicate 256 Bucket.new_writer) = Ok ws /\
    Bucket.flushClose (Bucket.healthy scenario) ws !! 1%nat
      = Some [x00; x02; x03; x04; x00; x02; x03; x04] /\
    Bucket.flushClose (Bucket.healthy scenario) ws !! 5%nat
      = Some [x00; x06; x07; x08] /\
    Bucket.flushClose (Bucket.healthy scenario) ws !! 9%nat = Some [].
Proof.
  destruct (bucket_files_hold_the_suffixes Codec.TrimSpace Codec.ParseIPv4
              (Bucket.healthy scenario) eq_refl)
    as (ws & H1 & _ & H3 & _).
  exists ws. split; [exact H1|].
  split; [|split]; rewrite H3 by (apply Nat.ltb_lt; reflexivity); reflexivity.
Defined.

(** X7. The read loop of pass 2 relies on pass 1 for its index: on a
    record whose first byte is not zero, which pass 1 never writes, the
    access [bitset[word]] is out of range and the loop panics, whatever
    follows in the file. *)
Theorem record_out_of_range_panics
    (i : nat) (fail : option cause) (b0 b1 b2 b3 : byte) (rest : list byte)
    (bitset : list Z) (added : Z) :
  length bitset = Z.to_nat Bucket.wordsPerSet -> b0 <> x00 ->
  Bucket.test_and_set bitset (Uint32 b0 b1 b2 b3) = None /\
  Bucket.count_records i fail (b0 :: b1 :: b2 :: b3 :: rest) bitset added = Panic.
Proof.
  intros Hlen Hb.
  assert (Ht : Bucket.test_and_set bitset (Uint32 b0 b1 b2 b3) = None).
  { unfold Bucket.test_and_set. rewrite shiftr_5.
    pose proof (Files.Uint32_top b0 b1 b2 b3 Hb) as Hge.
    destruct (bitset !! Z.to_nat (Uint32 b0 b1 b2 b3 / 32)) as [w|] eqn:E;
      [|reflexivity].
    apply lookup_lt_Some in E. rewrite Hlen, Bucket.wordsPerSet_val in E.
    assert (2 ^ 24 / 32 <= Uint32 b0 b1 b2 b3 / 32)
      by (apply Z.div_le_mono; lia).
    change (2 ^ 24 / 32) with 524288 in *. lia. }
  split; [exact Ht|]. cbn [Bucket.count_records]. rewrite Ht. reflexivity.
Qed.

Lemma record_out_of_range_panics_example :
  Bucket.count_records 0 None [x01; x00; x00; x00; x00; x00; x00; x07]
    (make Bucket.wordsPerSet) 0 = Panic.
Proof.
  apply (record_out_of_range_panics 0 None x01 x00 x00 x00 [x00; x00; x00; x07]
           (make Bucket.wordsPerSet) 0).
  - apply length_make.
  - discriminate.
Defined.

(** ** The runs of the concurrent engine (concurrent.go, lines 74-212) *)

Module Runs.

Import Concurrent.

(** The state with [base] added to the total: a run on a counter that
    holds addresses already is compared with the run that has counted
    them. *)
Definition shift (base : Z) (st : state) : state :=
  {| shards := shards st; unsent := unsent st; chunkChan := chunkChan st;
     workers := workers st; resultChan := resultChan st;
     total := total st + base |}.

Definition shift_outcome (base : Z) (o : outcome) : outcome :=
  match o with
  | Next st => Next (shift base st)
  | Blocked => Blocked
  | Crash => Crash
  end.

(** The shards of a counter after a call that returned a count. *)
Definition after_call (TrimSpace : list byte -> list byte)
    (ParseIPv4 : list byte -> option Z) (b : list shard) (numWorkers : nat)
    (reads : list (list byte * read_status)) (b' : list shard) : Prop :=
  exists chunks st,
    producer reads [] = inr chunks /\
    rtc (step TrimSpace ParseIPv4) (init b numWorkers chunks) st /\
    final st /\ b' = shards st.

(** The distinct values of [l] that are not in [seen]. *)
Lemma distinct_new (seen l : list Z) :
  distinct (seen ++ l) = distinct seen + distinct (filter (fun a => a ∉ seen) l).
Proof.
  rewrite (distinct_equiv (seen ++ l)
             (remove_dups seen ++ remove_dups (filter (fun a => a ∉ seen) l))).
  - rewrite distinct_NoDup.
    + rewrite length_app. unfold distinct. lia.
    + apply NoDup_app. split; [apply NoDup_remove_dups|].
      split; [|apply NoDup_remove_dups].
      intros x Hx Hx'. rewrite elem_of_remove_dups in Hx, Hx'.
      apply list_elem_of_filter in Hx' as [Hn _]. contradiction.
  - intros x. rewrite !elem_of_app, !elem_of_remove_dups, list_elem_of_filter.
    destruct (decide (x ∈ seen)); tauto.
Qed.

(** [setBit] on the shard and the offset of an address sets the bit of
    that address and of no other. *)
Lemma setBit_address m a :
  wf_mem m -> 0 <= a < 2 ^ 32 ->
  exists m',
    setBit m (Z.to_nat (a mod numShards)) (a / numShards)
      = Some (m', negb (mem_bit m a)) /\
    wf_mem m' /\
    forall a', 0 <= a' < 2 ^ 32 -> mem_bit m' a' = mem_bit m a' || (a' =? a).
Proof.
  intros Hwf Ha.
  destruct (setBit_spec m (Z.to_nat (a mod numShards)) (a / numShards) Hwf)
    as (m' & Hs & Hwf' & Hset & Hother).
  { apply shard_index_range. lia. }
  { pose proof (word_index_range a Ha) as Hw.
    rewrite numShards_val, wordsPerShard_val in *.
    split; [apply Z.div_pos; lia|apply Z.div_lt_upper_bound; lia]. }
  exists m'. split; [exact Hs|]. split; [exact Hwf'|].
  intros a' Ha'. rewrite !mem_bit_shard_bit.
  destruct (Z.eqb_spec a' a) as [->|Hne].
  - rewrite Hset. apply eq_sym, Bool.orb_true_r.
  - rewrite Bool.orb_false_r. apply Hother.
    + apply Z.div_pos; [lia|reflexivity].
    + destruct (decide (Z.to_nat (a' mod numShards) = Z.to_nat (a mod numShards)))
        as [E|E]; [right|left; exact E].
      pose proof (same_address a a' ltac:(lia) ltac:(lia) E) as Hs'.
      destruct (Z.eqb_spec (a' / numShards) (a / numShards)) as [E'|E']; [|exact E'].
      destruct (Z.eqb_spec a' a); [contradiction|discriminate].
Qed.

Section Steps.

Variable TrimSpace : list byte -> list byte.
Variable ParseIPv4 : list byte -> option Z.

Lemma rtc_workers_length st st' :
  rtc (step TrimSpace ParseIPv4) st st' -> length (workers st') = length (workers st).
Proof.
  induction 1 as [|st st1 st2 H1 _ IH]; [reflexivity|].
  rewrite IH. eapply step_workers_length, H1.
Qed.

Lemma weight_all_Idle m n : sumZ (weight m <$> replicate n Idle) = 0.
Proof.
  induction n as [|n IH]; [reflexivity|].
  cbn [replicate]. rewrite fmap_cons, sumZ_cons, IH. reflexivity.
Qed.

(** The measure of a run when the workers are started. *)
Lemma measure_init b numWorkers chunks :
  measure TrimSpace ParseIPv4 (init b numWorkers chunks)
  = (2 * Z.of_nat numWorkers + 4)
      * Z.of_nat (length (flat_map (chunk_addrs TrimSpace ParseIPv4) chunks))
    + 6 * Z.of_nat (length chunks).
Proof.
  unfold measure, pending, init. cbn [shards unsent chunkChan workers resultChan].
  rewrite weight_all_Idle, length_replicate, app_nil_r.
  rewrite wtodo_all_Idle by (apply Forall_replicate; reflexivity).
  rewrite app_nil_r. cbn [length]. lia.
Qed.

(** *** Runs on a counter that holds addresses already *)

Lemma worker_step_shift base i w st :
  worker_step TrimSpace ParseIPv4 i w (shift base st)
  = shift_outcome base (worker_step TrimSpace ParseIPv4 i w st).
Proof.
  destruct w as [|[|ip todo] count|ip [si widx mask|si widx mask old] todo count];
    cbn [worker_step shift shards unsent chunkChan workers resultChan total].
  - destruct (chunkChan st); reflexivity.
  - change (capacity (shift base st)) with (capacity st).
    destruct (_ <? _)%nat; reflexivity.
  - destruct (shards st !! _); [|reflexivity].
    destruct (ensure _); [|reflexivity].
    destruct (_ <? _)%nat; reflexivity.
  - destruct (load _ _ _); [|reflexivity]. destruct (_ =? _); reflexivity.
  - destruct (load _ _ _); [|reflexivity]. destruct (_ =? _); reflexivity.
Qed.

Lemma step_at_shift base who st :
  (forall c rest, resultChan st = c :: rest ->
     int64 (total st + base + c) = int64 (total st + c) + base) ->
  step_at TrimSpace ParseIPv4 who (shift base st)
  = shift_outcome base (step_at TrimSpace ParseIPv4 who st).
Proof.
  intros Hagg. destruct who as [|i|]; cbn [step_at].
  - cbn [shift unsent chunkChan]. destruct (unsent st); [reflexivity|].
    change (capacity (shift base st)) with (capacity st).
    destruct (_ <? _)%nat; reflexivity.
  - cbn [shift workers]. destruct (workers st !! i); [|reflexivity].
    apply worker_step_shift.
  - cbn [shift resultChan total]. destruct (resultChan st) as [|c rest] eqn:Er;
      [reflexivity|].
    cbn [shift_outcome shift shards unsent chunkChan workers resultChan total].
    rewrite (Hagg c rest eq_refl). reflexivity.
Qed.

(** A run on a counter that held [base] addresses, seen as the run that
    has counted them: the invariant of the latter, and a total that is
    not negative. *)
Definition inv_from (base : Z) (all done : list Z) (st : state) : Prop :=
  inv TrimSpace ParseIPv4 all done (shift base st) /\ 0 <= total st.

Lemma no_wrap base all done st c rest :
  0 <= base -> inv_from base all done st -> resultChan st = c :: rest ->
  int64 (total st + base + c) = int64 (total st + c) + base /\
  0 <= int64 (total st + c).
Proof.
  intros Hb [I Ht] Er.
  pose proof (inv_counts _ _ _ _ _ I) as Hc.
  pose proof (inv_results _ _ _ _ _ I) as Hr.
  pose proof (done_bound _ _ _ _ _ I) as Hdb.
  pose proof (sumZ_nonneg (wcount <$> workers st)) as Hwn.
  rewrite Forall_fmap in Hwn. specialize (Hwn (inv_wcounts _ _ _ _ _ I)).
  cbn [shift resultChan total workers] in Hc, Hr.
  rewrite Er in Hc, Hr. rewrite sumZ_cons in Hc.
  apply Forall_cons in Hr as [Hc0 Hr].
  pose proof (sumZ_nonneg _ Hr) as Hrn.
  rewrite !int64_small by lia. lia.
Qed.

Lemma step_total st st' :
  step TrimSpace ParseIPv4 st st' ->
  total st' = total st \/
  exists c rest, resultChan st = c :: rest /\ total st' = int64 (total st + c).
Proof.
  intros [[|i|] Hstep]; cbn [step_at] in Hstep.
  - destruct (unsent st); [discriminate|].
    destruct (_ <? _)%nat; [|discriminate]. injection Hstep as <-. left. reflexivity.
  - destruct (workers st !! i) as [w|] eqn:Hw; [|discriminate].
    destruct w as [|[|ip todo] count|ip [si widx mask|si widx mask old] todo count];
      cbn [worker_step] in Hstep;
      repeat match type of Hstep with
        | context [match ?x with _ => _ end] => destruct x; try discriminate
        end;
      injection Hstep as <-; left; reflexivity.
  - destruct (resultChan st) as [|c rest]; [discriminate|]. injection Hstep as <-.
    right. exists c, rest. split; reflexivity.
Qed.

(** *** The shards a run allocates *)

Lemma step_allocated st st' i ws' :
  step TrimSpace ParseIPv4 st st' -> shards st' !! i = Some (Some ws') ->
  (exists ws, shards st !! i = Some (Some ws)) \/
  (exists a, a ∈ pending TrimSpace ParseIPv4 st /\ Z.to_nat (a mod numShards) = i).
Proof.
  intros [[|j|] Hstep] Hi; cbn [step_at] in Hstep.
  - destruct (unsent st); [discriminate|].
    destruct (_ <? _)%nat; [|discriminate]. injection Hstep as <-. eauto.
  - destruct (workers st !! j) as [w|] eqn:Hw; [|discriminate].
    destruct w as [|[|ip todo] count|ip [si widx mask|si widx mask old] todo count];
      cbn [worker_step] in Hstep.
    + destruct (chunkChan st); [discriminate|]. injection Hstep as <-. eauto.
    + destruct (_ <? _)%nat; [|discriminate]. injection Hstep as <-. eauto.
    + destruct (shards st !! _) as [s|] eqn:Es; [|discriminate].
      destruct (ensure s) as [ws|] eqn:He; [|discriminate].
      destruct (_ <? _)%nat; [|discriminate]. injection Hstep as <-.
      cbn [set_worker set_shards shards] in Hi.
      destruct (decide (i = Z.to_nat (ip mod numShards))) as [->|Hne].
      * right. exists ip. split; [|reflexivity].
        unfold pending. apply elem_of_app. right. apply elem_of_flat_map.
        exists (Running (ip :: todo) count).
        split; [eapply list_elem_of_lookup_2, Hw|apply list_elem_of_here].
      * rewrite list_lookup_insert_ne in Hi by congruence. eauto.
    + destruct (load _ _ _); [|discriminate].
      destruct (_ =? _); injection Hstep as <-; eauto.
    + destruct (load _ _ _) as [cur|] eqn:El; [|discriminate].
      destruct (Z.eqb_spec cur old) as [->|Hne]; injection Hstep as <-; eauto.
      cbn [set_worker set_shards shards] in Hi. unfold store in Hi.
      destruct (shards st !! si) as [[ws|]|] eqn:Es; eauto.
      destruct (decide (i = si)) as [->|Hne]; [eauto|].
      rewrite list_lookup_insert_ne in Hi by congruence. eauto.
  - destruct (resultChan st); [discriminate|]. injection Hstep as <-. eauto.
Qed.

Section From.

Variable all : list Z.
Hypothesis all_u32 : forall a, a ∈ all -> 0 <= a < 2 ^ 32.
Variable base : Z.
Hypothesis base_nonneg : 0 <= base.

Lemma step_shift done st st' :
  inv_from base all done st -> step TrimSpace ParseIPv4 st st' ->
  step TrimSpace ParseIPv4 (shift base st) (shift base st').
Proof.
  intros I [who Hstep]. exists who. rewrite step_at_shift, Hstep; [reflexivity|].
  intros c rest Er. eapply no_wrap; eauto.
Qed.

Lemma inv_from_step done st st' :
  inv_from base all done st -> step TrimSpace ParseIPv4 st st' ->
  exists done', inv_from base all done' st'.
Proof.
  intros I Hstep.
  destruct (inv_step TrimSpace ParseIPv4 all all_u32 done _ _ (proj1 I)
              (step_shift _ _ _ I Hstep)) as [done' I'].
  exists done'. split; [exact I'|].
  destruct (step_total _ _ Hstep) as [->|(c & rest & Er & ->)]; [apply I|].
  eapply no_wrap; eauto.
Qed.

Lemma inv_from_steps done st st' :
  inv_from base all done st -> rtc (step TrimSpace ParseIPv4) st st' ->
  exists done', inv_from base all done' st'.
Proof.
  intros I Hsteps. revert done I.
  induction Hsteps as [st|st st1 st2 H1 _ IH]; intros done I; [eauto|].
  destruct (inv_from_step _ _ _ I H1) as [done1 I1]. eapply IH, I1.
Qed.

Lemma from_no_crash done st :
  inv_from base all done st -> ~ crashes TrimSpace ParseIPv4 st.
Proof.
  intros I [who Hc].
  apply (inv_no_crash TrimSpace ParseIPv4 all all_u32 done _ (proj1 I)).
  exists who. rewrite step_at_shift, Hc; [reflexivity|].
  intros c rest Er. eapply no_wrap; eauto.
Qed.

Lemma from_progress done st :
  inv_from base all done st -> (0 < length (workers st))%nat ->
  final st \/ exists st', step TrimSpace ParseIPv4 st st'.
Proof.
  intros I Hnw.
  destruct (inv_progress TrimSpace ParseIPv4 all all_u32 done _ (proj1 I) Hnw)
    as [Hf|[x [who Hx]]]; [left; exact Hf|right].
  rewrite step_at_shift in Hx by (intros c rest Er; eapply no_wrap; eauto).
  destruct (step_at TrimSpace ParseIPv4 who st) as [st'| |] eqn:E; try discriminate.
  exists st', who. exact E.
Qed.

Lemma from_completes :
  forall n done st,
  measure TrimSpace ParseIPv4 st < Z.of_nat n ->
  inv_from base all done st -> (0 < length (workers st))%nat ->
  exists st', rtc (step TrimSpace ParseIPv4) st st' /\ final st'.
Proof.
  induction n as [|n IH]; intros done st Hm I Hnw.
  - pose proof (measure_nonneg TrimSpace ParseIPv4 st). lia.
  - destruct (from_progress done st I Hnw) as [Hf|[st1 H1]].
    + exists st. split; [apply rtc_refl|exact Hf].
    + destruct (inv_from_step done st st1 I H1) as [done1 I1].
      pose proof (measure_step _ _ _ _ H1) as Hlt.
      destruct (IH done1 st1) as (st' & Hrun & Hf); [lia|exact I1| |].
      * rewrite (step_workers_length _ _ _ _ H1). exact Hnw.
      * exists st'. split; [|exact Hf]. eapply rtc_l; eauto.
Qed.

Lemma from_final done st :
  inv_from base all done st -> final st ->
  total st = distinct all - base /\
  (forall a, 0 <= a < 2 ^ 32 -> mem_bit (shards st) a = true <-> a ∈ all).
Proof.
  intros [I _] Hf. split.
  - pose proof (inv_final TrimSpace ParseIPv4 all done _ I Hf) as H.
    cbn [shift total] in H. lia.
  - intros a Ha. rewrite (inv_bits _ _ _ _ _ I a Ha : mem_bit (shards st) a = true <-> _).
    rewrite (inv_cover _ _ _ _ _ I a). unfold pending.
    destruct Hf as (Hu & Hc & Hw & _).
    cbn [shift unsent chunkChan workers]. rewrite Hu, Hc, wtodo_all_Idle by exact Hw.
    simpl. rewrite elem_of_nil. tauto.
Qed.

Lemma run_allocated st st' :
  rtc (step TrimSpace ParseIPv4) st st' ->
  forall done i ws', inv_from base all done st ->
  shards st' !! i = Some (Some ws') ->
  (exists ws, shards st !! i = Some (Some ws)) \/
  (exists a, a ∈ all /\ Z.to_nat (a mod numShards) = i).
Proof.
  induction 1 as [st|st st1 st2 H1 _ IH]; intros done i ws' I Hi; [eauto|].
  destruct (inv_from_step done st st1 I H1) as [done1 I1].
  destruct (IH done1 i ws' I1 Hi) as [[ws Hws]|Ha]; [|right; exact Ha].
  destruct (step_allocated _ _ _ _ H1 Hws) as [Hb|(a & Ha & Hm)]; [left; exact Hb|].
  right. exists a. split; [|exact Hm].
  apply (inv_cover _ _ _ _ _ (proj1 I)). right. exact Ha.
Qed.

End From.

(** The invariant when the workers are started on a counter whose bits
    are the addresses [seen]. *)
Lemma inv_from_init b seen numWorkers chunks :
  wf_mem b -> NoDup seen -> (forall a, a ∈ seen -> 0 <= a < 2 ^ 32) ->
  (forall a, 0 <= a < 2 ^ 32 -> mem_bit b a = true <-> a ∈ seen) ->
  inv_from (Z.of_nat (length seen))
    (seen ++ flat_map (chunk_addrs TrimSpace ParseIPv4) chunks) seen
    (init b numWorkers chunks).
Proof.
  intros Hwf Hnd Hrange Hbits.
  assert (HI : Forall (fun w => w = Idle) (replicate numWorkers Idle)).
  { apply Forall_replicate. reflexivity. }
  split; [|simpl; lia].
  split; cbn [shift init shards unsent chunkChan workers resultChan total].
  - exact Hwf.
  - exact Hbits.
  - exact Hnd.
  - exact Hrange.
  - rewrite wcount_all_Idle by exact HI. cbn [sumZ foldr]. lia.
  - lia.
  - apply Forall_nil_2.
  - eapply Forall_impl; [exact HI|]. intros w ->. simpl. lia.
  - intros a. unfold pending. cbn [unsent chunkChan workers].
    rewrite wtodo_all_Idle by exact HI. rewrite !app_nil_r, elem_of_app. tauto.
  - eapply Forall_impl; [exact HI|]. intros w ->. exact I.
Qed.

End Steps.

(** The chunks the producer sends for a file read in [blocks]. *)
Definition chunks_of (blocks : list (list byte)) : list (list byte) :=
  match producer (blocks_reader blocks) [] with
  | inr chunks => chunks
  | inl _ => []
  end.

Lemma chunks_of_sent blocks :
  producer (blocks_reader blocks) [] = inr (chunks_of blocks).
Proof.
  unfold chunks_of.
  destruct (producer_spec blocks [] (not_elem_of_nil _)) as (complete & -> & _).
  reflexivity.
Qed.

Section Counting.

Variable TrimSpace : list byte -> list byte.
Variable ParseIPv4 : list byte -> option Z.
Hypothesis TrimSpace_nil : TrimSpace [] = [].
Hypothesis ParseIPv4_u32 : forall l a, ParseIPv4 l = Some a -> 0 <= a < 2 ^ 32.

Section Call.

(** A counter [b] whose bits are the addresses [seen], and the chunks
    of a file. *)
Variable b : list shard.
Variable seen : list Z.
Variable blocks : list (list byte).
Variable numWorkers : nat.
Variable chunks : list (list byte).

Hypothesis b_wf : wf_mem b.
Hypothesis seen_u32 : forall a, a ∈ seen -> 0 <= a < 2 ^ 32.
Hypothesis b_seen : forall a, 0 <= a < 2 ^ 32 -> mem_bit b a = true <-> a ∈ seen.
Hypothesis chunks_sent : producer (blocks_reader blocks) [] = inr chunks.

Let addrs := valid_addresses TrimSpace ParseIPv4 (concat blocks).
Let new := distinct (filter (fun a => a ∉ seen) addrs).

(** The invariant of the run that has counted [seen] holds when the
    workers are started. *)
Lemma call_inv :
  exists all base done,
    0 <= base /\
    (forall a, a ∈ all -> 0 <= a < 2 ^ 32) /\
    inv_from TrimSpace ParseIPv4 base all done (init b numWorkers chunks) /\
    (forall a, a ∈ all <-> a ∈ seen \/ a ∈ addrs) /\
    distinct all - base = new.
Proof.
  pose proof (producer_addresses TrimSpace ParseIPv4 TrimSpace_nil blocks chunks
                chunks_sent) as Haddrs. fold addrs in Haddrs.
  set (seen' := remove_dups seen).
  exists (seen' ++ flat_map (chunk_addrs TrimSpace ParseIPv4) chunks),
         (Z.of_nat (length seen')), seen'.
  assert (Hs : forall a, a ∈ seen' <-> a ∈ seen).
  { intros a. unfold seen'. apply elem_of_remove_dups. }
  split; [lia|]. split; [|split; [|split]].
  - intros a Ha. apply elem_of_app in Ha as [Ha|Ha].
    + apply seen_u32, Hs, Ha.
    + rewrite Haddrs in Ha. revert Ha. apply valid_addresses_range, ParseIPv4_u32.
  - apply inv_from_init; [exact b_wf|apply NoDup_remove_dups| |].
    + intros a Ha. apply seen_u32, Hs, Ha.
    + intros a Ha. rewrite Hs. apply b_seen, Ha.
  - intros a. rewrite elem_of_app, Hs, Haddrs. reflexivity.
  - unfold new. rewrite Haddrs, distinct_new.
    rewrite (distinct_NoDup seen') by apply NoDup_remove_dups.
    rewrite (list_filter_iff (fun a => a ∉ seen') (fun a => a ∉ seen)); [lia|].
    intros a. rewrite Hs. reflexivity.
Qed.

(** Some interleaving leads the run to its end. *)
Lemma call_completes :
  (0 < numWorkers)%nat ->
  exists st, rtc (step TrimSpace ParseIPv4) (init b numWorkers chunks) st /\ final st.
Proof.
  intros Hnw.
  destruct call_inv as (all & base & done & Hbase & Hall & I0 & _).
  apply (from_completes TrimSpace ParseIPv4 all Hall base Hbase
           (S (Z.to_nat (measure TrimSpace ParseIPv4 (init b numWorkers chunks))))
           done (init b numWorkers chunks)).
  - pose proof (measure_nonneg TrimSpace ParseIPv4 (init b numWorkers chunks)). lia.
  - exact I0.
  - cbn [init workers]. rewrite length_replicate. exact Hnw.
Qed.

(** What holds of every state of the run. *)
Lemma call_state st :
  rtc (step TrimSpace ParseIPv4) (init b numWorkers chunks) st ->
  ~ crashes TrimSpace ParseIPv4 st /\
  ((0 < numWorkers)%nat -> final st \/ exists st', step TrimSpace ParseIPv4 st st') /\
  wf_mem (shards st) /\
  (forall i ws, shards st !! i = Some (Some ws) ->
     (exists ws0, b !! i = Some (Some ws0)) \/
     (exists a, a ∈ addrs /\ Z.to_nat (a mod numShards) = i)) /\
  0 <= total st /\
  Forall (fun c => 0 <= c) (resultChan st) /\
  Forall (fun w => 0 <= wcount w) (workers st) /\
  total st + sumZ (resultChan st) + sumZ (wcount <$> workers st) <= new /\
  new <= 2 ^ 32 /\
  (final st ->
     total st = new /\
     forall a, 0 <= a < 2 ^ 32 ->
       mem_bit (shards st) a = true <-> a ∈ seen \/ a ∈ addrs).
Proof.
  intros Hrun.
  destruct call_inv as (all & base & done0 & Hbase & Hall & I0 & Hcover & Hnew).
  destruct (inv_from_steps TrimSpace ParseIPv4 all Hall base Hbase _ _ _ I0 Hrun)
    as [done I].
  split; [exact (from_no_crash TrimSpace ParseIPv4 all Hall base Hbase done st I)|].
  split.
  { intros Hnw. apply (from_progress TrimSpace ParseIPv4 all Hall base Hbase done st I).
    rewrite (rtc_workers_length _ _ _ _ Hrun). cbn [init workers].
    rewrite length_replicate. exact Hnw. }
  split; [exact (inv_mem _ _ _ _ _ (proj1 I))|]. split.
  { intros i ws Hi.
    destruct (run_allocated TrimSpace ParseIPv4 all Hall base Hbase _ _ Hrun
                done0 i ws I0 Hi) as [Hb|(a & Ha & Hm)]; [left; exact Hb|].
    apply Hcover in Ha as [Ha|Ha]; [left|right; eauto].
    assert (Hr : 0 <= a < 2 ^ 32) by apply seen_u32, Ha.
    apply (b_seen a Hr) in Ha. unfold mem_bit in Ha. rewrite Hm in Ha.
    cbn [init shards]. destruct (b !! i) as [[ws0|]|]; [eauto|discriminate|discriminate]. }
  destruct I as [I Ht].
  pose proof (inv_counts _ _ _ _ _ I) as Hc.
  cbn [shift total resultChan workers] in Hc.
  assert (Hd : Z.of_nat (length done) <= distinct all).
  { rewrite <- (distinct_NoDup done) by apply I.
    apply Files.distinct_mono. intros x Hx.
    apply (inv_cover _ _ _ _ _ I). left. exact Hx. }
  split; [exact Ht|]. split; [exact (inv_results _ _ _ _ _ I)|].
  split; [exact (inv_wcounts _ _ _ _ _ I)|]. split; [lia|]. split.
  { unfold new. apply distinct_bound; [lia|].
    intros x Hx. apply list_elem_of_filter in Hx as [_ Hx].
    revert Hx. apply valid_addresses_range, ParseIPv4_u32. }
  intros Hf.
  destruct (from_final TrimSpace ParseIPv4 all base done st (conj I Ht) Hf) as [H1 H2].
  split; [lia|]. intros a Ha. rewrite (H2 a Ha). apply Hcover.
Qed.

End Call.

(** A call on a counter whose bits are the addresses [seen]: it returns
    the number of distinct addresses of the file that are not in [seen],
    and leaves the counter with the bits of both. *)
Lemma CountUniqueIPs_from (b : list shard) (seen : list Z) blocks numWorkers :
  wf_mem b -> (forall a, a ∈ seen -> 0 <= a < 2 ^ 32) ->
  (forall a, 0 <= a < 2 ^ 32 -> mem_bit b a = true <-> a ∈ seen) ->
  (0 < numWorkers)%nat ->
  let addrs := valid_addresses TrimSpace ParseIPv4 (concat blocks) in
  (exists b', after_call TrimSpace ParseIPv4 b numWorkers (blocks_reader blocks) b') /\
  (exists r, CountUniqueIPs TrimSpace ParseIPv4 b numWorkers None
               (blocks_reader blocks) r) /\
  (forall r, CountUniqueIPs TrimSpace ParseIPv4 b numWorkers None
               (blocks_reader blocks) r ->
             r = Ok (distinct (filter (fun a => a ∉ seen) addrs))) /\
  (forall b', after_call TrimSpace ParseIPv4 b numWorkers (blocks_reader blocks) b' ->
     wf_mem b' /\
     forall a, 0 <= a < 2 ^ 32 -> mem_bit b' a = true <-> a ∈ seen \/ a ∈ addrs).
Proof.
  intros Hwf Hrange Hbits Hnw addrs.
  destruct (producer_spec blocks [] (not_elem_of_nil _)) as (complete & Hp & _ & _).
  set (chunks := complete ++ flush (tail_line ([] ++ concat blocks))) in *.
  destruct (call_completes b seen blocks numWorkers chunks Hwf Hrange Hbits Hp Hnw)
    as (st0 & Hrun0 & Hf0).
  pose proof (call_state b seen blocks numWorkers chunks Hwf Hrange Hbits Hp) as Hst.
  split; [|split; [|split]].
  - exists (shards st0), chunks, st0. auto.
  - unfold CountUniqueIPs. rewrite Hp. fold chunks.
    exists (Ok (total st0)), st0. split; [exact Hrun0|]. left. auto.
  - unfold CountUniqueIPs. rewrite Hp. fold chunks.
    intros r (st & Hrun & Hres).
    destruct (Hst st Hrun) as (Hnc & _ & _ & _ & _ & _ & _ & _ & _ & Hfin).
    destruct Hres as [[Hf ->]|[Hc _]]; [|contradiction].
    f_equal. apply (Hfin Hf).
  - intros b' (chunks' & st & Hp' & Hrun & Hf & ->).
    rewrite Hp in Hp'. injection Hp' as <-. fold chunks in Hrun.
    destruct (Hst st Hrun) as (_ & _ & Hwf' & _ & _ & _ & _ & _ & _ & Hfin).
    split; [exact Hwf'|]. apply (Hfin Hf).
Qed.

End Counting.

End Runs.

(** X8. [setBit], called as [processChunk] calls it for a 32-bit
    address [a], on shard [a mod numShards] at offset [a / numShards],
    returns true exactly when [a] was not in the counter, and leaves the
    counter with [a] added and no other address added or removed: two
    addresses never share a bit. *)
Theorem setBit_marks_exactly_one_address (m : list Concurrent.shard) (a : Z) :
  Concurrent.wf_mem m -> 0 <= a < 2 ^ 32 ->
  exists m',
    Concurrent.setBit m (Z.to_nat (a mod Concurrent.numShards))
      (a / Concurrent.numShards) = Some (m', negb (Concurrent.mem_bit m a)) /\
    Concurrent.wf_mem m' /\
    Concurrent.mem_bit m' a = true /\
    (forall a', 0 <= a' < 2 ^ 32 -> a' <> a ->
       Concurrent.mem_bit m' a' = Concurrent.mem_bit m a').
Proof.
  intros Hwf Ha.
  destruct (Runs.setBit_address m a Hwf Ha) as (m' & Hs & Hwf' & Hbits).
  exists m'. split; [exact Hs|]. split; [exact Hwf'|]. split.
  - rewrite Hbits by exact Ha. rewrite Z.eqb_refl. apply Bool.orb_true_r.
  - intros a' Ha' Hne. rewrite Hbits by exact Ha'.
    destruct (Z.eqb_spec a' a); [contradiction|]. apply Bool.orb_false_r.
Qed.

Lemma setBit_marks_exactly_one_address_example :
  exists m',
    Concurrent.setBit Concurrent.New 772 1032 = Some (m', true) /\
    Concurrent.wf_mem m' /\
    Concurrent.mem_bit m' 16909060 = true /\
    (forall a', 0 <= a' < 2 ^ 32 -> a' <> 16909060 ->
       Concurrent.mem_bit m' a' = Concurrent.mem_bit Concurrent.New a').
Proof.
  apply (setBit_marks_exactly_one_address Concurrent.New 16909060 Concurrent.wf_mem_New).
  split; [discriminate|reflexivity].
Defined.

(** X9. A worker that is about to call [setBit] for a 32-bit address
    and is left alone by the others goes through the allocation, the
    load and the compare-and-swap and is back in [processChunk] with the
    shards and the result the call gives when nothing interferes; it
    counts the address exactly when it was not in the counter. *)
Theorem uninterrupted_setBit_run
    (TrimSpace : list byte -> list byte) (ParseIPv4 : list byte -> option Z)
    (st : Concurrent.state) (i : nat) (ip : Z) (todo : list Z) (count : Z) :
  Concurrent.wf_mem (Concurrent.shards st) -> 0 <= ip < 2 ^ 32 ->
  Concurrent.workers st !! i = Some (Concurrent.Running (ip :: todo) count) ->
  let new := negb (Concurrent.mem_bit (Concurrent.shards st) ip) in
  exists m',
    Concurrent.setBit (Concurrent.shards st) (Z.to_nat (ip mod Concurrent.numShards))
      (ip / Concurrent.numShards) = Some (m', new) /\
    rtc (Concurrent.step TrimSpace ParseIPv4) st
      (Concurrent.set_worker i
         (Concurrent.Running todo (if new then int64 (count + 1) else count))
         (Concurrent.set_shards m' st)).
Proof.
  intros Hwf Hip Hw new.
  destruct (Runs.setBit_address _ ip Hwf Hip) as (m' & Hs & _).
  exists m'. split; [exact Hs|].
  exact (Concurrent.setBit_steps TrimSpace ParseIPv4 st i ip todo count m' new Hw Hs).
Qed.

(** A worker of a fresh counter that has the address 1.2.3.4 to process. *)
Definition one_worker_state : Concurrent.state := {|
  Concurrent.shards := Concurrent.New;
  Concurrent.unsent := [];
  Concurrent.chunkChan := [];
  Concurrent.workers := [Concurrent.Running [16909060] 0];
  Concurrent.resultChan := [];
  Concurrent.total := 0;
|}.

Lemma uninterrupted_setBit_run_example :
  exists m',
    Concurrent.setBit Concurrent.New 772 1032 = Some (m', true) /\
    rtc (Concurrent.step Codec.TrimSpace Codec.ParseIPv4) one_worker_state
      (Concurrent.set_worker 0 (Concurrent.Running [] 1)
         (Concurrent.set_shards m' one_worker_state)).
Proof.
  apply (uninterrupted_setBit_run Codec.TrimSpace Codec.ParseIPv4 one_worker_state
           0 16909060 [] 0 Concurrent.wf_mem_New).
  - split; [discriminate|reflexivity].
  - reflexivity.
Defined.

(** X10. A call on a counter that holds addresses already, as after
    earlier calls, returns the number of distinct addresses of the file
    that the counter did not hold, whatever the blocks, the workers and
    their interleaving; and it leaves the counter with the addresses it
    held and those of the file, and no other. *)
Theorem counter_counts_only_new_addresses
    (TrimSpace : list byte -> list byte) (ParseIPv4 : list byte -> option Z)
    (TrimSpace_nil : TrimSpace [] = [])
    (ParseIPv4_u32 : forall l a, ParseIPv4 l = Some a -> 0 <= a < 2 ^ 32)
    (b : list Concurrent.shard) (seen : list Z)
    (blocks : list (list byte)) (numWorkers : nat) :
  Concurrent.wf_mem b -> (forall a, a ∈ seen -> 0 <= a < 2 ^ 32) ->
  (forall a, 0 <= a < 2 ^ 32 -> Concurrent.mem_bit b a = true <-> a ∈ seen) ->
  (0 < numWorkers)%nat ->
  let addrs := valid_addresses TrimSpace ParseIPv4 (concat blocks) in
  (exists r, Concurrent.CountUniqueIPs TrimSpace ParseIPv4 b numWorkers None
               (Concurrent.blocks_reader blocks) r) /\
  (forall r, Concurrent.CountUniqueIPs TrimSpace ParseIPv4 b numWorkers None
               (Concurrent.blocks_reader blocks) r ->
             r = Ok (distinct (filter (fun a => a ∉ seen) addrs))) /\
  (forall b', Runs.after_call TrimSpace ParseIPv4 b numWorkers
                (Concurrent.blocks_reader blocks) b' ->
     Concurrent.wf_mem b' /\
     forall a, 0 <= a < 2 ^ 32 ->
       Concurrent.mem_bit b' a = true <-> a ∈ seen \/ a ∈ addrs).
Proof.
  intros Hwf Hrange Hbits Hnw addrs.
  destruct (Runs.CountUniqueIPs_from TrimSpace ParseIPv4 TrimSpace_nil ParseIPv4_u32
              b seen blocks numWorkers Hwf Hrange Hbits Hnw) as (_ & H2 & H3 & H4).
  split; [exact H2|]. split; [exact H3|exact H4].
Qed.

Lemma counter_counts_only_new_addresses_example :
  exists b,
    Concurrent.setBit Concurrent.New 772 1032 = Some (b, true) /\
    (exists r, Concurrent.CountUniqueIPs Codec.TrimSpace Codec.ParseIPv4 b 3 None
                 (Concurrent.blocks_reader scenario_blocks) r) /\
    (forall r, Concurrent.CountUniqueIPs Codec.TrimSpace Codec.ParseIPv4 b 3 None
                 (Concurrent.blocks_reader scenario_blocks) r -> r = Ok 1).
Proof.
  assert (Ha : 0 <= 16909060 < 2 ^ 32) by (split; [discriminate|reflexivity]).
  destruct (Runs.setBit_address Concurrent.New 16909060 Concurrent.wf_mem_New Ha)
    as (b & Hs & Hwf & Hbits).
  exists b. split; [exact Hs|].
  destruct (counter_counts_only_new_addresses Codec.TrimSpace Codec.ParseIPv4
              Codec.TrimSpace_nil Codec.ParseIPv4_u32 b [16909060] scenario_blocks 3
              Hwf) as (H1 & H2 & _).
  - intros a Hin. apply list_elem_of_singleton in Hin as ->. exact Ha.
  - intros a Hr. rewrite Hbits, Concurrent.mem_bit_New by exact Hr. cbn [orb].
    rewrite list_elem_of_singleton. apply Z.eqb_eq.
  - apply Nat.lt_0_succ.
  - split; [exact H1|exact H2].
Defined.

(** X11. A second call on the counter of a first call returns the
    number of distinct addresses of its file that were not in the file
    of the first call: [CountUniqueIPs] counts what is new to the
    counter, and on the file of the first call again it returns 0. *)
Theorem second_call_counts_new_addresses
    (TrimSpace : list byte -> list byte) (ParseIPv4 : list byte -> option Z)
    (TrimSpace_nil : TrimSpace [] = [])
    (ParseIPv4_u32 : forall l a, ParseIPv4 l = Some a -> 0 <= a < 2 ^ 32)
    (blocks1 blocks2 : list (list byte)) (numWorkers1 numWorkers2 : nat)
    (b' : list Concurrent.shard) :
  (0 < numWorkers1)%nat -> (0 < numWorkers2)%nat ->
  Runs.after_call TrimSpace ParseIPv4 Concurrent.New numWorkers1
    (Concurrent.blocks_reader blocks1) b' ->
  let addrs1 := valid_addresses TrimSpace ParseIPv4 (concat blocks1) in
  let addrs2 := valid_addresses TrimSpace ParseIPv4 (concat blocks2) in
  (exists r, Concurrent.CountUniqueIPs TrimSpace ParseIPv4 b' numWorkers2 None
               (Concurrent.blocks_reader blocks2) r) /\
  (forall r, Concurrent.CountUniqueIPs TrimSpace ParseIPv4 b' numWorkers2 None
               (Concurrent.blocks_reader blocks2) r ->
             r = Ok (distinct (filter (fun a => a ∉ addrs1) addrs2)) /\
             (concat blocks2 = concat blocks1 -> r = Ok 0)).
Proof.
  intros Hnw1 Hnw2 Hafter addrs1 addrs2.
  destruct (Runs.CountUniqueIPs_from TrimSpace ParseIPv4 TrimSpace_nil ParseIPv4_u32
              Concurrent.New [] blocks1 numWorkers1 Concurrent.wf_mem_New)
    as (_ & _ & _ & H4); [| |exact Hnw1|].
  { intros a Ha. apply elem_of_nil in Ha. contradiction. }
  { intros a _. rewrite Concurrent.mem_bit_New, elem_of_nil.
    split; [discriminate|tauto]. }
  destruct (H4 b' Hafter) as [Hwf Hbits].
  destruct (Runs.CountUniqueIPs_from TrimSpace ParseIPv4 TrimSpace_nil ParseIPv4_u32
              b' addrs1 blocks2 numWorkers2 Hwf) as (_ & H2 & H3 & _);
    [| |exact Hnw2|].
  { intros a. apply valid_addresses_range, ParseIPv4_u32. }
  { intros a Ha. rewrite (Hbits a Ha), elem_of_nil. fold addrs1. tauto. }
  split; [exact H2|]. intros r Hr. rewrite (H3 r Hr). fold addrs2.
  split; [reflexivity|]. intros Heq. f_equal.
  unfold addrs2. rewrite Heq. fold addrs1.
  rewrite (elem_of_nil_inv (filter (fun a => a ∉ addrs1) addrs1)); [reflexivity|].
  intros x Hx. apply list_elem_of_filter in Hx as [Hn Hin]. contradiction.
Qed.

Lemma second_call_counts_new_addresses_example :
  exists b',
    Runs.after_call Codec.TrimSpace Codec.ParseIPv4 Concurrent.New 2
      (Concurrent.blocks_reader scenario_blocks) b' /\
    (forall r, Concurrent.CountUniqueIPs Codec.TrimSpace Codec.ParseIPv4 b' 2 None
                 (Concurrent.blocks_reader [scenario]) r -> r = Ok 0) /\
    (forall r, Concurrent.CountUniqueIPs Codec.TrimSpace Codec.ParseIPv4 b' 2 None
                 (Concurrent.blocks_reader [same_suffix_file]) r -> r = Ok 1).
Proof.
  destruct (Runs.CountUniqueIPs_from Codec.TrimSpace Codec.ParseIPv4
              Codec.TrimSpace_nil Codec.ParseIPv4_u32 Concurrent.New []
              scenario_blocks 2 Concurrent.wf_mem_New) as ((b' & Hb') & _).
  { intros a Ha. apply elem_of_nil in Ha. contradiction. }
  { intros a _. rewrite Concurrent.mem_bit_New, elem_of_nil.
    split; [discriminate|tauto]. }
  { apply Nat.lt_0_succ. }
  exists b'. split; [exact Hb'|]. split.
  - intros r Hr.
    destruct (second_call_counts_new_addresses Codec.TrimSpace Codec.ParseIPv4
                Codec.TrimSpace_nil Codec.ParseIPv4_u32 scenario_blocks [scenario]
                2 2 b' (Nat.lt_0_succ 1) (Nat.lt_0_succ 1) Hb') as (_ & H).
    apply (H r Hr). reflexivity.
  - intros r Hr.
    destruct (second_call_counts_new_addresses Codec.TrimSpace Codec.ParseIPv4
                Codec.TrimSpace_nil Codec.ParseIPv4_u32 scenario_blocks
                [same_suffix_file] 2 2 b' (Nat.lt_0_succ 1) (Nat.lt_0_succ 1) Hb')
      as (_ & H).
    apply (H r Hr).
Defined.

(** X12. The shards are allocated on demand: in every state of a run on
    a fresh counter, a shard that is allocated has [wordsPerShard] words
    and is the shard of an address of the file; and when the run is
    over, the shard of every address of the file is allocated. *)
Theorem shards_are_allocated_on_demand
    (TrimSpace : list byte -> list byte) (ParseIPv4 : list byte -> option Z)
    (TrimSpace_nil : TrimSpace [] = [])
    (ParseIPv4_u32 : forall l a, ParseIPv4 l = Some a -> 0 <= a < 2 ^ 32)
    (blocks : list (list byte)) (numWorkers : nat) (st : Concurrent.state) :
  rtc (Concurrent.step TrimSpace ParseIPv4)
    (Concurrent.init Concurrent.New numWorkers (Runs.chunks_of blocks)) st ->
  let addrs := valid_addresses TrimSpace ParseIPv4 (concat blocks) in
  (forall i ws, Concurrent.shards st !! i = Some (Some ws) ->
     length ws = Z.to_nat Concurrent.wordsPerShard /\
     exists a, a ∈ addrs /\ Z.to_nat (a mod Concurrent.numShards) = i) /\
  (Concurrent.final st ->
   forall a, a ∈ addrs ->
     exists ws, Concurrent.shards st !! Z.to_nat (a mod Concurrent.numShards)
                = Some (Some ws)).
Proof.
  intros Hrun addrs.
  destruct (Runs.call_state TrimSpace ParseIPv4 TrimSpace_nil ParseIPv4_u32
              Concurrent.New [] blocks numWorkers (Runs.chunks_of blocks)
              Concurrent.wf_mem_New) with (st := st)
    as (_ & _ & Hwf & Halloc & _ & _ & _ & _ & _ & Hfin).
  { intros a Ha. apply elem_of_nil in Ha. contradiction. }
  { intros a _. rewrite Concurrent.mem_bit_New, elem_of_nil.
    split; [discriminate|tauto]. }
  { apply Runs.chunks_of_sent. }
  { exact Hrun. }
  split.
  - intros i ws Hi. split; [eapply Hwf, Hi|].
    destruct (Halloc i ws Hi) as [(ws0 & H0)|Ha]; [|exact Ha].
    apply lookup_replicate in H0 as [H0 _]. discriminate.
  - intros Hf a Ha.
    assert (Hr : 0 <= a < 2 ^ 32).
    { revert Ha. apply valid_addresses_range, ParseIPv4_u32. }
    destruct (Hfin Hf) as [_ Hbits].
    assert (Hb : Concurrent.mem_bit (Concurrent.shards st) a = true).
    { apply (Hbits a Hr). right. exact Ha. }
    unfold Concurrent.mem_bit in Hb.
    destruct (Concurrent.shards st !! Z.to_nat (a mod Concurrent.numShards))
      as [[ws|]|]; [eauto|discriminate|discriminate].
Qed.

Lemma shards_are_allocated_on_demand_example :
  exists st,
    rtc (Concurrent.step Codec.TrimSpace Codec.ParseIPv4)
      (Concurrent.init Concurrent.New 2 (Runs.chunks_of scenario_blocks)) st /\
    Concurrent.final st /\
    (exists ws, Concurrent.shards st !! 772%nat = Some (Some ws)) /\
    (exists ws, Concurrent.shards st !! 1800%nat = Some (Some ws)) /\
    (forall i ws, Concurrent.shards st !! i = Some (Some ws) ->
       length ws = Z.to_nat Concurrent.wordsPerShard /\ (i = 772%nat \/ i = 1800%nat)).
Proof.
  destruct (Runs.call_completes Codec.TrimSpace Codec.ParseIPv4
              Codec.TrimSpace_nil Codec.ParseIPv4_u32 Concurrent.New []
              scenario_blocks 2 (Runs.chunks_of scenario_blocks)
              Concurrent.wf_mem_New) as (st & Hrun & Hf).
  { intros a Ha. apply elem_of_nil in Ha. contradiction. }
  { intros a _. rewrite Concurrent.mem_bit_New, elem_of_nil.
    split; [discriminate|tauto]. }
  { apply Runs.chunks_of_sent. }
  { apply Nat.lt_0_succ. }
  destruct (shards_are_allocated_on_demand Codec.TrimSpace Codec.ParseIPv4
              Codec.TrimSpace_nil Codec.ParseIPv4_u32 scenario_blocks 2 st Hrun)
    as [H1 H2].
  exists st. split; [exact Hrun|]. split; [exact Hf|]. split; [|split].
  - apply (H2 Hf 16909060). apply list_elem_of_here.
  - apply (H2 Hf 84281096). do 2 apply list_elem_of_further. apply list_elem_of_here.
  - intros i ws Hi. destruct (H1 i ws Hi) as (Hl & a & Ha & <-).
    split; [exact Hl|].
    apply elem_of_cons in Ha as [->|Ha]; [left; reflexivity|].
    apply elem_of_cons in Ha as [->|Ha]; [left; reflexivity|].
    apply list_elem_of_singleton in Ha as ->. right. reflexivity.
Defined.

(** X13. No run deadlocks: with at least one worker, on every counter
    that is well formed, whatever the capacity of the channels leaves
    blocked, a state of a run that is not its end has a step, and no
    state has a step that panics. *)
Theorem runs_do_not_deadlock
    (TrimSpace : list byte -> list byte) (ParseIPv4 : list byte -> option Z)
    (TrimSpace_nil : TrimSpace [] = [])
    (ParseIPv4_u32 : forall l a, ParseIPv4 l = Some a -> 0 <= a < 2 ^ 32)
    (b : list Concurrent.shard) (seen : list Z)
    (blocks : list (list byte)) (numWorkers : nat) (st : Concurrent.state) :
  Concurrent.wf_mem b -> (forall a, a ∈ seen -> 0 <= a < 2 ^ 32) ->
  (forall a, 0 <= a < 2 ^ 32 -> Concurrent.mem_bit b a = true <-> a ∈ seen) ->
  (0 < numWorkers)%nat ->
  rtc (Concurrent.step TrimSpace ParseIPv4)
    (Concurrent.init b numWorkers (Runs.chunks_of blocks)) st ->
  (Concurrent.final st \/ exists st', Concurrent.step TrimSpace ParseIPv4 st st') /\
  ~ Concurrent.crashes TrimSpace ParseIPv4 st.
Proof.
  intros Hwf Hrange Hbits Hnw Hrun.
  destruct (Runs.call_state TrimSpace ParseIPv4 TrimSpace_nil ParseIPv4_u32
              b seen blocks numWorkers (Runs.chunks_of blocks) Hwf Hrange Hbits
              (Runs.chunks_of_sent blocks) st Hrun) as (Hnc & Hprog & _).
  split; [exact (Hprog Hnw)|exact Hnc].
Qed.

Lemma runs_do_not_deadlock_example :
  let st := Concurrent.init Concurrent.New 2 (Runs.chunks_of scenario_blocks) in
  (Concurrent.final st \/
   exists st', Concurrent.step Codec.TrimSpace Codec.ParseIPv4 st st') /\
  ~ Concurrent.crashes Codec.TrimSpace Codec.ParseIPv4 st.
Proof.
  apply (runs_do_not_deadlock Codec.TrimSpace Codec.ParseIPv4
           Codec.TrimSpace_nil Codec.ParseIPv4_u32 Concurrent.New [] scenario_blocks 2
           _ Concurrent.wf_mem_New).
  - intros a Ha. apply elem_of_nil in Ha. contradiction.
  - intros a _. rewrite Concurrent.mem_bit_New, elem_of_nil.
    split; [discriminate|tauto].
  - apply Nat.lt_0_succ.
  - apply rtc_refl.
Defined.

(** X14. Every run is finite, whatever the counter and the schedule: a
    run of [numWorkers] workers on chunks that hold [A] lines standing
    for an address is over after at most [(2 numWorkers + 4) A + 6 C]
    steps, [C] the number of chunks.  The retries of the
    compare-and-swap are counted: a worker retries only after another
    worker has set a bit. *)
Theorem every_run_is_finite
    (TrimSpace : list byte -> list byte) (ParseIPv4 : list byte -> option Z)
    (b : list Concurrent.shard) (numWorkers : nat) (chunks : list (list byte))
    (n : nat) (st : Concurrent.state) :
  nsteps (Concurrent.step TrimSpace ParseIPv4) n
    (Concurrent.init b numWorkers chunks) st ->
  Z.of_nat n <=
    (2 * Z.of_nat numWorkers + 4)
      * Z.of_nat (length (flat_map (Concurrent.chunk_addrs TrimSpace ParseIPv4) chunks))
    + 6 * Z.of_nat (length chunks).
Proof.
  intros Hrun.
  pose proof (Concurrent.nsteps_bound TrimSpace ParseIPv4 _ _ _ Hrun) as Hb.
  pose proof (Concurrent.measure_nonneg TrimSpace ParseIPv4 st) as Hn.
  rewrite Runs.measure_init in Hb. lia.
Qed.

Lemma every_run_is_finite_example :
  Z.of_nat 2 <=
    (2 * Z.of_nat 1 + 4)
      * Z.of_nat (length (flat_map
           (Concurrent.chunk_addrs Codec.TrimSpace Codec.ParseIPv4)
           [Codec.bytes "1.2.3.4"]))
    + 6 * Z.of_nat (length [Codec.bytes "1.2.3.4"]).
Proof.
  apply (every_run_is_finite Codec.TrimSpace Codec.ParseIPv4 Concurrent.New 1
           [Codec.bytes "1.2.3.4"] 2
           {| Concurrent.shards := Concurrent.New; Concurrent.unsent := [];
              Concurrent.chunkChan := [];
              Concurrent.workers := [Concurrent.Running [16909060] 0];
              Concurrent.resultChan := []; Concurrent.total := 0 |}).
  eapply nsteps_l; [exists Concurrent.Producer; reflexivity|].
  apply nsteps_once. exists (Concurrent.Worker 0). reflexivity.
Defined.

(** X15. The counts of a run never wrap and never exceed what is new:
    in every state of a run on a well-formed counter, the total, the
    counts in the result channel and the counts of the workers are not
    negative, and their sum is at most the number of distinct addresses
    of the file that the counter did not hold, which is at most 2^32; at
    the end the total is that number. *)
Theorem counts_stay_in_range
    (TrimSpace : list byte -> list byte) (ParseIPv4 : list byte -> option Z)
    (TrimSpace_nil : TrimSpace [] = [])
    (ParseIPv4_u32 : forall l a, ParseIPv4 l = Some a -> 0 <= a < 2 ^ 32)
    (b : list Concurrent.shard) (seen : list Z)
    (blocks : list (list byte)) (numWorkers : nat) (st : Concurrent.state) :
  Concurrent.wf_mem b -> (forall a, a ∈ seen -> 0 <= a < 2 ^ 32) ->
  (forall a, 0 <= a < 2 ^ 32 -> Concurrent.mem_bit b a = true <-> a ∈ seen) ->
  rtc (Concurrent.step TrimSpace ParseIPv4)
    (Concurrent.init b numWorkers (Runs.chunks_of blocks)) st ->
  let new := distinct (filter (fun a => a ∉ seen)
                         (valid_addresses TrimSpace ParseIPv4 (concat blocks))) in
  0 <= Concurrent.total st /\
  Forall (fun c => 0 <= c) (Concurrent.resultChan st) /\
  Forall (fun w => 0 <= Concurrent.wcount w) (Concurrent.workers st) /\
  Concurrent.total st + Concurrent.sumZ (Concurrent.resultChan st)
    + Concurrent.sumZ (Concurrent.wcount <$> Concurrent.workers st) <= new /\
  new <= 2 ^ 32 /\
  (Concurrent.final st -> Concurrent.total st = new).
Proof.
  intros Hwf Hrange Hbits Hrun new.
  destruct (Runs.call_state TrimSpace ParseIPv4 TrimSpace_nil ParseIPv4_u32
              b seen blocks numWorkers (Runs.chunks_of blocks) Hwf Hrange Hbits
              (Runs.chunks_of_sent blocks) st Hrun)
    as (_ & _ & _ & _ & H1 & H2 & H3 & H4 & H5 & H6).
  repeat (split; [assumption|]). intros Hf. apply (H6 Hf).
Qed.

Lemma counts_stay_in_range_example :
  let st := Concurrent.init Concurrent.New 2 (Runs.chunks_of scenario_blocks) in
  0 <= Concurrent.total st /\
  Concurrent.total st + Concurrent.sumZ (Concurrent.resultChan st)
    + Concurrent.sumZ (Concurrent.wcount <$> Concurrent.workers st) <= 2.
Proof.
  destruct (counts_stay_in_range Codec.TrimSpace Codec.ParseIPv4
              Codec.TrimSpace_nil Codec.ParseIPv4_u32 Concurrent.New [] scenario_blocks 2
              (Concurrent.init Concurrent.New 2 (Runs.chunks_of scenario_blocks))
              Concurrent.wf_mem_New) as (H1 & _ & _ & H4 & _).
  - intros a Ha. apply elem_of_nil in Ha. contradiction.
  - intros a _. rewrite Concurrent.mem_bit_New, elem_of_nil.
    split; [discriminate|tauto].
  - apply rtc_refl.
  - split; [exact H1|exact H4].
Defined.

(** ** [processChunk] run by one worker (concurrent.go, lines 179-212) *)

Module Chunk.

Import Concurrent.

(** [processChunk] from the first address on, with the count so far,
    when no other worker writes to the shards meanwhile: [setBit] for
    each address in turn, and the count of those it reports as new.
    [None] is a panic of [setBit]. *)
Fixpoint process_addrs (addrs : list Z) (m : list shard) (count : Z)
  : option (list shard * Z) :=
  match addrs with
  | [] => Some (m, count)
  | ip :: rest =>
      match setBit m (Z.to_nat (ip mod numShards)) (ip / numShards) with
      | None => None
      | Some (m', true) => process_addrs rest m' (int64 (count + 1))
      | Some (m', false) => process_addrs rest m' count
      end
  end.

(** [processChunk(chunk, b)] on the shards [m] of [b]. *)
Definition processChunk (TrimSpace : list byte -> list byte)
    (ParseIPv4 : list byte -> option Z) (chunk : list byte) (m : list shard)
  : option (list shard * Z) :=
  process_addrs (chunk_addrs TrimSpace ParseIPv4 chunk) m 0.

(** The addresses of [l] that are not in the shards [m]. *)
Definition fresh (m : list shard) (l : list Z) : list Z :=
  filter (fun a => mem_bit m a = false) l.

Lemma filter_ext_in {A} (P1 P2 : A -> Prop)
    `{!forall x, Decision (P1 x)} `{!forall x, Decision (P2 x)} (l : list A) :
  (forall x, x ∈ l -> P1 x <-> P2 x) -> filter P1 l = filter P2 l.
Proof.
  induction l as [|x l IH]; intros Hext; [reflexivity|].
  rewrite !filter_cons.
  rewrite IH by (intros y Hy; apply Hext, list_elem_of_further, Hy).
  pose proof (Hext x (list_elem_of_here _ _)) as Hx.
  destruct (decide (P1 x)), (decide (P2 x)); tauto || reflexivity.
Qed.

Lemma distinct_cons_filter (x : Z) (l : list Z) :
  distinct (x :: l) = 1 + distinct (filter (fun a => a <> x) l).
Proof.
  rewrite (distinct_equiv (x :: l) (x :: filter (fun a => a <> x) l)).
  - rewrite distinct_cons_new; [lia|].
    intros H. apply list_elem_of_filter in H as [H _]. contradiction.
  - intros y. rewrite !elem_of_cons, list_elem_of_filter.
    destruct (decide (y = x)); tauto.
Qed.

Lemma fresh_cons_old m m' ip l :
  mem_bit m ip = true ->
  (forall a, 0 <= a < 2 ^ 32 -> mem_bit m' a = mem_bit m a || (a =? ip)) ->
  (forall a, a ∈ ip :: l -> 0 <= a < 2 ^ 32) ->
  distinct (fresh m' l) = distinct (fresh m (ip :: l)).
Proof.
  intros Hold Hbits Hr. unfold fresh. rewrite filter_cons.
  destruct (decide (mem_bit m ip = false)) as [E|_]; [congruence|].
  f_equal. apply filter_ext_in. intros a Ha.
  rewrite Hbits by (apply Hr, list_elem_of_further, Ha).
  destruct (Z.eqb_spec a ip) as [->|_].
  - rewrite Hold. reflexivity.
  - rewrite Bool.orb_false_r. reflexivity.
Qed.

Lemma fresh_cons_new m m' ip l :
  mem_bit m ip = false ->
  (forall a, 0 <= a < 2 ^ 32 -> mem_bit m' a = mem_bit m a || (a =? ip)) ->
  (forall a, a ∈ ip :: l -> 0 <= a < 2 ^ 32) ->
  1 + distinct (fresh m' l) = distinct (fresh m (ip :: l)).
Proof.
  intros Hnew Hbits Hr. unfold fresh. rewrite filter_cons.
  destruct (decide (mem_bit m ip = false)) as [_|E]; [|contradiction].
  rewrite distinct_cons_filter. f_equal. f_equal.
  rewrite list_filter_filter. apply filter_ext_in. intros a Ha.
  rewrite Hbits by (apply Hr, list_elem_of_further, Ha).
  destruct (Z.eqb_spec a ip) as [->|Hne].
  - rewrite Bool.orb_true_r. split; [discriminate|]. intros [H _]. contradiction.
  - rewrite Bool.orb_false_r. tauto.
Qed.

(** [processChunk] does not panic on well-formed shards; it counts the
    distinct addresses that were not in the shards, and adds the
    addresses to the shards. *)
Lemma process_addrs_spec addrs :
  forall m count,
  wf_mem m -> (forall a, a ∈ addrs -> 0 <= a < 2 ^ 32) ->
  0 <= count -> count + distinct (fresh m addrs) < 2 ^ 63 ->
  exists m',
    process_addrs addrs m count = Some (m', count + distinct (fresh m addrs)) /\
    wf_mem m' /\
    (forall a, 0 <= a < 2 ^ 32 ->
       mem_bit m' a = mem_bit m a || bool_decide (a ∈ addrs)).
Proof.
  induction addrs as [|ip rest IH]; intros m count Hwf Hr Hc Hb.
  - exists m. cbn [process_addrs]. unfold fresh. rewrite filter_nil, distinct_nil.
    split; [f_equal; f_equal; lia|]. split; [exact Hwf|].
    intros a _. rewrite bool_decide_eq_false_2 by apply not_elem_of_nil.
    rewrite Bool.orb_false_r. reflexivity.
  - assert (Hip : 0 <= ip < 2 ^ 32) by apply Hr, list_elem_of_here.
    destruct (Runs.setBit_address m ip Hwf Hip) as (m1 & Hs & Hwf1 & Hbits).
    cbn [process_addrs]. rewrite Hs.
    assert (Hr' : forall a, a ∈ rest -> 0 <= a < 2 ^ 32).
    { intros a Ha. apply Hr, list_elem_of_further, Ha. }
    pose proof (distinct_nonneg (fresh m1 rest)) as Hnn.
    assert (Hfinal : forall m' : list shard,
      (forall a, 0 <= a < 2 ^ 32 ->
         mem_bit m' a = mem_bit m1 a || bool_decide (a ∈ rest)) ->
      forall a, 0 <= a < 2 ^ 32 ->
        mem_bit m' a = mem_bit m a || bool_decide (a ∈ ip :: rest)).
    { intros m' H a Ha. rewrite H, Hbits by exact Ha.
      rewrite <- Bool.orb_assoc. f_equal.
      destruct (Z.eqb_spec a ip) as [->|Hne].
      - rewrite (bool_decide_eq_true_2 (ip ∈ ip :: rest)) by apply list_elem_of_here.
        reflexivity.
      - cbn [orb]. apply bool_decide_ext. rewrite elem_of_cons. tauto. }
    destruct (mem_bit m ip) eqn:E; cbn [negb].
    + pose proof (fresh_cons_old m m1 ip rest E Hbits Hr) as Heq.
      destruct (IH m1 count Hwf1 Hr' Hc) as (m' & Hp & Hwf' & Hb'); [lia|].
      exists m'. rewrite Hp, Heq. auto.
    + pose proof (fresh_cons_new m m1 ip rest E Hbits Hr) as Heq.
      rewrite int64_small by lia.
      destruct (IH m1 (count + 1) Hwf1 Hr') as (m' & Hp & Hwf' & Hb'); [lia|lia|].
      exists m'. rewrite Hp. split; [f_equal; f_equal; lia|]. auto.
Qed.

Section Steps.

Variable TrimSpace : list byte -> list byte.
Variable ParseIPv4 : list byte -> option Z.

(** The steps of a worker that is left alone realise [processChunk]. *)
Lemma process_addrs_steps addrs :
  forall st i count m' count',
  workers st !! i = Some (Running addrs count) ->
  process_addrs addrs (shards st) count = Some (m', count') ->
  rtc (step TrimSpace ParseIPv4) st
    (set_worker i (Running [] count') (set_shards m' st)).
Proof.
  induction addrs as [|ip rest IH]; intros st i count m' count' Hw Hp.
  - injection Hp as <- <-.
    replace (set_worker i (Running [] count) (set_shards (shards st) st)) with st;
      [apply rtc_refl|].
    destruct st as [m u cc ws rc t]. unfold set_worker, set_shards.
    cbn [shards unsent chunkChan workers resultChan total] in *.
    rewrite list_insert_id by exact Hw. reflexivity.
  - cbn [process_addrs] in Hp.
    destruct (setBit (shards st) (Z.to_nat (ip mod numShards)) (ip / numShards))
      as [[m1 b]|] eqn:Hs; [|discriminate].
    pose proof (setBit_steps TrimSpace ParseIPv4 st i ip rest count m1 b Hw Hs) as H1.
    set (c1 := if b then int64 (count + 1) else count) in *.
    set (st1 := set_worker i (Running rest c1) (set_shards m1 st)) in *.
    assert (Hp1 : process_addrs rest m1 c1 = Some (m', count')).
    { unfold c1. destruct b; exact Hp. }
    assert (Hw1 : workers st1 !! i = Some (Running rest c1)).
    { unfold st1, set_worker, set_shards. cbn [workers].
      apply list_lookup_insert_eq. eapply lookup_lt_Some, Hw. }
    pose proof (IH st1 i c1 m' count' Hw1 Hp1) as H2.
    replace (set_worker i (Running [] count') (set_shards m' st1))
      with (set_worker i (Running [] count') (set_shards m' st)) in H2.
    + exact (rtc_trans _ _ _ H1 H2).
    + unfold st1, set_worker, set_shards.
      cbn [shards unsent chunkChan workers resultChan total].
      rewrite list_insert_insert_eq. reflexivity.
Qed.

End Steps.

End Chunk.

(** X16. [processChunk], run by a worker that the others leave alone,
    on a well-formed counter: it does not panic, it returns the number
    of distinct addresses among the lines of the chunk that were not in
    the counter, it leaves the counter with those addresses added and no
    other change, and the steps of the worker that received the chunk
    lead to the state in which it is about to send that count. *)
Theorem processChunk_counts_new_addresses
    (TrimSpace : list byte -> list byte) (ParseIPv4 : list byte -> option Z)
    (TrimSpace_nil : TrimSpace [] = [])
    (ParseIPv4_u32 : forall l a, ParseIPv4 l = Some a -> 0 <= a < 2 ^ 32)
    (chunk : list byte) (st : Concurrent.state) (i : nat) :
  Concurrent.wf_mem (Concurrent.shards st) ->
  Concurrent.workers st !! i
    = Some (Concurrent.Running (Concurrent.chunk_addrs TrimSpace ParseIPv4 chunk) 0) ->
  let m := Concurrent.shards st in
  let addrs := valid_addresses TrimSpace ParseIPv4 chunk in
  exists m',
    Chunk.processChunk TrimSpace ParseIPv4 chunk m
      = Some (m', distinct (filter (fun a => Concurrent.mem_bit m a = false) addrs)) /\
    Concurrent.wf_mem m' /\
    (forall a, 0 <= a < 2 ^ 32 ->
       Concurrent.mem_bit m' a = true <-> Concurrent.mem_bit m a = true \/ a ∈ addrs) /\
    rtc (Concurrent.step TrimSpace ParseIPv4) st
      (Concurrent.set_worker i
         (Concurrent.Running []
            (distinct (filter (fun a => Concurrent.mem_bit m a = false) addrs)))
         (Concurrent.set_shards m' st)).
Proof.
  intros Hwf Hw m addrs.
  assert (Hr : forall a, a ∈ addrs -> 0 <= a < 2 ^ 32).
  { intros a. apply valid_addresses_range, ParseIPv4_u32. }
  pose proof (distinct_nonneg (Chunk.fresh m addrs)) as Hnn.
  assert (Hle : distinct (Chunk.fresh m addrs) <= 2 ^ 32).
  { apply distinct_bound; [lia|]. intros x Hx.
    apply list_elem_of_filter in Hx as [_ Hx]. apply Hr, Hx. }
  destruct (Chunk.process_addrs_spec addrs m 0 Hwf Hr) as (m' & Hp & Hwf' & Hbits);
    [lia|lia|].
  rewrite Z.add_0_l in Hp.
  assert (Hpc : Chunk.processChunk TrimSpace ParseIPv4 chunk m
                = Some (m', distinct (Chunk.fresh m addrs))).
  { unfold Chunk.processChunk.
    rewrite (Concurrent.chunk_addrs_valid TrimSpace ParseIPv4 TrimSpace_nil).
    exact Hp. }
  exists m'. split; [exact Hpc|]. split; [exact Hwf'|]. split.
  - intros a Ha. rewrite Hbits by exact Ha.
    rewrite Bool.orb_true_iff, bool_decide_eq_true. reflexivity.
  - apply (Chunk.process_addrs_steps TrimSpace ParseIPv4 _ st i 0 m' _ Hw).
    exact Hpc.
Qed.

(** A worker of a fresh counter that has received the scenario as one
    chunk. *)
Definition scenario_worker_state : Concurrent.state := {|
  Concurrent.shards := Concurrent.New;
  Concurrent.unsent := [];
  Concurrent.chunkChan := [];
  Concurrent.workers :=
    [Concurrent.Idle;
     Concurrent.Running (Concurrent.chunk_addrs Codec.TrimSpace Codec.ParseIPv4 scenario) 0];
  Concurrent.resultChan := [];
  Concurrent.total := 0;
|}.

Lemma processChunk_counts_new_addresses_example :
  exists m',
    Chunk.processChunk Codec.TrimSpace Codec.ParseIPv4 scenario Concurrent.New
      = Some (m', 2) /\
    rtc (Concurrent.step Codec.TrimSpace Codec.ParseIPv4) scenario_worker_state
      (Concurrent.set_worker 1 (Concurrent.Running [] 2)
         (Concurrent.set_shards m' scenario_worker_state)).
Proof.
  destruct (processChunk_counts_new_addresses Codec.TrimSpace Codec.ParseIPv4
              Codec.TrimSpace_nil Codec.ParseIPv4_u32 scenario scenario_worker_state 1
              Concurrent.wf_mem_New eq_refl) as (m' & H1 & _ & _ & H4).
  exists m'. split; [exact H1|exact H4].
Defined.

(** ** The command (main.go, lines 14-42) *)

Module Main.

(** The error of an engine, as [main] receives it. *)
Inductive engine_error : Type :=
| NaiveError (c : cause)
| ConcurrentError (e : Concurrent.error)
| BucketError (e : Bucket.error).

(** How the command ends. *)
Inductive outcome : Type :=
| Usage                          (* the usage line on stderr, exit status 1 *)
| UnknownImpl (impl : string)    (* log.Fatalf: unknown impl *)
| Failed (e : engine_error)      (* log.Fatalf: error *)
| Printed (count : Z)            (* Unique IPv4 addresses: count *)
| Panicked.

(** The default of the flag [-impl]. *)
Definition default_impl : string := "bucket".

(** Lines 38-41: the error is fatal, the count is printed. *)
Definition report {E} (wrap : E -> engine_error) (r : Go.result E Z) : outcome :=
  match r with
  | Ok count => Printed count
  | Err e => Failed (wrap e)
  | Panic => Panicked
  end.

Section Main.

Variable TrimSpace : list byte -> list byte.
Variable ParseIPv4 : list byte -> option Z.

(** The engine of package [naive], which is not among the sources: the
    results its call can have on a file name. *)
Variable naive_CountUniqueIPs : string -> Go.result cause Z -> Prop.

(** [runtime.NumCPU()], and the file system as each engine meets it
    under a file name. *)
Variable numCPU : nat.
Variable bucket_world : string -> Bucket.world.
Variable concurrent_open : string -> option cause.
Variable concurrent_reads : string -> list (list byte * Concurrent.read_status).

(** [main], once [flag.Parse] has given the value [impl] of the flag
    and the arguments [args] that follow the flags: the ways it can
    end. *)
Definition main (impl : string) (args : list string) (o : outcome) : Prop :=
  match args with
  | [] => o = Usage
  | filename :: _ =>
      if String.eqb impl "naive" then
        exists r, naive_CountUniqueIPs filename r /\ o = report NaiveError r
      else if String.eqb impl "concurrent" then
        exists r,
          Concurrent.CountUniqueIPs TrimSpace ParseIPv4 Concurrent.New numCPU
            (concurrent_open filename) (concurrent_reads filename) r /\
          o = report ConcurrentError r
      else if String.eqb impl "bucket" then
        o = report BucketError
              (Bucket.CountUniqueIPs TrimSpace ParseIPv4 (bucket_world filename))
      else o = UnknownImpl impl
  end.

End Main.

End Main.

(** X17. The command with the disk engine or with the concurrent
    engine, on a file that both read without failure, prints the number
    of distinct addresses of the file and can end in no other way: it
    gives the concurrent engine a fresh counter, so that what an earlier
    call left in a counter never matters.  With the disk engine, when a
    checked operation fails, it ends with that error and prints no
    count.  With no file name it prints the usage, and with another
    value of the flag it runs no engine. *)
Theorem main_prints_the_distinct_count
    (TrimSpace : list byte -> list byte) (ParseIPv4 : list byte -> option Z)
    (TrimSpace_nil : TrimSpace [] = [])
    (ParseIPv4_u32 : forall l a, ParseIPv4 l = Some a -> 0 <= a < 2 ^ 32)
    (naive : string -> Go.result cause Z -> Prop) (numCPU : nat)
    (bucket_world : string -> Bucket.world)
    (concurrent_open : string -> option cause)
    (concurrent_reads : string -> list (list byte * Concurrent.read_status))
    (filename : string) (rest : list string) :
  let main := Main.main TrimSpace ParseIPv4 naive numCPU bucket_world
                concurrent_open concurrent_reads in
  (forall file blocks impl,
     (0 < numCPU)%nat ->
     bucket_world filename = Bucket.healthy file ->
     concurrent_open filename = None ->
     concurrent_reads filename = Concurrent.blocks_reader blocks ->
     concat blocks = file ->
     impl = "bucket"%string \/ impl = "concurrent"%string ->
     main impl (filename :: rest)
       (Main.Printed (distinct (valid_addresses TrimSpace ParseIPv4 file))) /\
     forall o, main impl (filename :: rest) o ->
       o = Main.Printed (distinct (valid_addresses TrimSpace ParseIPv4 file))) /\
  (Faults.checked_failure (bucket_world filename) ->
   forall o, main "bucket"%string (filename :: rest) o ->
     exists e, o = Main.Failed (Main.BucketError e)) /\
  (forall impl o, main impl [] o <-> o = Main.Usage) /\
  (forall impl o,
     impl <> "naive"%string -> impl <> "concurrent"%string -> impl <> "bucket"%string ->
     main impl (filename :: rest) o <-> o = Main.UnknownImpl impl).
Proof.
  intros main. subst main. split; [|split; [|split]].
  - intros file blocks impl Hnw Hb Ho Hr Hcat Himpl.
    destruct (Concurrent.CountUniqueIPs_count TrimSpace ParseIPv4 TrimSpace_nil
                ParseIPv4_u32 blocks numCPU Hnw) as [(r0 & Hr0) Hall].
    rewrite Hcat in Hall.
    pose proof (Bucket.CountUniqueIPs_healthy TrimSpace ParseIPv4 ParseIPv4_u32 file)
      as Hbucket.
    destruct Himpl as [-> | ->]; cbn [Main.main String.eqb Ascii.eqb Bool.eqb].
    + rewrite Hb, Hbucket. split; [reflexivity|]. intros o ->. reflexivity.
    + rewrite Ho, Hr. split.
      * exists r0. split; [exact Hr0|]. rewrite (Hall r0 Hr0). reflexivity.
      * intros o (r & Hcall & ->). rewrite (Hall r Hcall). reflexivity.
  - intros Hf o. cbn [Main.main String.eqb Ascii.eqb Bool.eqb]. intros ->.
    destruct (Faults.checked_failure_Err TrimSpace ParseIPv4 _ Hf) as (e & ->).
    exists e. reflexivity.
  - intros impl o. reflexivity.
  - intros impl o Hn Hc Hb. cbn [Main.main].
    apply String.eqb_neq in Hn, Hc, Hb. rewrite Hn, Hc, Hb. reflexivity.
Qed.

Lemma main_prints_the_distinct_count_example :
  let main := Main.main Codec.TrimSpace Codec.ParseIPv4 (fun _ _ => False) 4
                (fun _ => Bucket.healthy scenario) (fun _ => None)
                (fun _ => Concurrent.blocks_reader scenario_blocks) in
  main Main.default_impl ["ips.txt"%string] (Main.Printed 2) /\
  (forall o, main "concurrent"%string ["ips.txt"%string] o -> o = Main.Printed 2).
Proof.
  destruct (main_prints_the_distinct_count Codec.TrimSpace Codec.ParseIPv4
              Codec.TrimSpace_nil Codec.ParseIPv4_u32 (fun _ _ => False) 4
              (fun _ => Bucket.healthy scenario) (fun _ => None)
              (fun _ => Concurrent.blocks_reader scenario_blocks)
              "ips.txt"%string []) as (H & _).
  split.
  - exact (proj1 (H scenario scenario_blocks Main.default_impl (Nat.lt_0_succ 3)
                    eq_refl eq_refl eq_refl eq_refl (or_introl eq_refl))).
  - exact (proj2 (H scenario scenario_blocks "concurrent"%string (Nat.lt_0_succ 3)
                    eq_refl eq_refl eq_refl eq_refl (or_intror eq_refl))).
Defined.
